(** * Word wrapping in stringi: [stri__wrap_greedy], [stri__wrap_dynamic],
      [stri_wrap], and the [stri__mkString*] helpers

    A shallow embedding of [src/common.cpp], and of the accessors of
    [src/container_listutf8.h].

    Conventions of the embedding.
    - [std::vector]/[std::deque] values are lists.  A read [v[i]] is the
      checked lookup [v !! i]; a write [v[i] = x] is [vec_set].  An index
      outside the vector has no defined behaviour in C++, so both give
      [None] there and the enclosing function has no result.
    - Word and block indices ([R_len_t]/[int] values that the code keeps
      non-negative) are [nat]; code-point counts, widths and byte offsets
      are [Z], so that differences such as [width_val - sum] and
      [cur_pos - last_pos] can go negative as they do in the source.
      Counts are code-point counts of one R string, whose byte length fits
      an [int]; the sums formed here stay below that length, so [int]
      overflow is not modelled, and the size [n*n] of the cost matrix is
      taken as it is.
    - [double] values are kept behind the interface [DoubleOps]: the source
      only converts integers, adds, calls [pow] and compares.  *)

From stdpp Require Import base option list strings.
From Stdlib Require Import ZArith Lia.
From Stdlib.Strings Require Import Byte.

Local Open Scope Z_scope.

(** ** Vectors and counted loops *)

Definition vec_set {A : Type} (v : list A) (i : nat) (x : A) : option (list A) :=
  if (i <? length v)%nat then Some (<[i:=x]> v) else None.

(** [iterM body js s] runs [body] for the indices [js] in order, stopping
    with [None] as soon as one iteration has no defined result. *)
Fixpoint iterM {S : Type} (body : nat → S → option S) (js : list nat) (s : S)
  : option S :=
  match js with
  | [] => Some s
  | j :: js' => match body j s with
                | Some s' => iterM body js' s'
                | None => None
                end
  end.

(** [for (j = lo; j < hi; ++j) body] *)
Definition for_loop {S : Type} (lo hi : nat) (body : nat → S → option S) (s : S)
  : option S :=
  iterM body (seq lo (hi - lo)) s.

(** ** The [double] operations the planner uses *)

Class DoubleOps (D : Type) : Type := {
  dofZ : Z → D;          (* [(double)ct], and the literals [0.0], [-1.0] *)
  dadd : D → D → D;      (* [x + y] *)
  dpow : D → D → D;      (* [pow(x, y)] *)
  dltb : D → D → bool;   (* [x < y] *)
  dleb : D → D → bool    (* [x <= y]; [x >= y] is [dleb y x] *)
}.

(** What the planner relies on: the sign tests tell the sentinel [-1.0]
    from [0.0] and from [pow(ct, exponent_val)] with [ct >= 0].  IEEE
    doubles satisfy this for every exponent that is not a NaN. *)
Record SignLaws {D : Type} `{DoubleOps D} (exponent_val : D) : Prop := {
  sentinel_lt0 : dltb (dofZ (-1)) (dofZ 0) = true;
  sentinel_ge0 : dleb (dofZ 0) (dofZ (-1)) = false;
  zero_lt0 : dltb (dofZ 0) (dofZ 0) = false;
  zero_ge0 : dleb (dofZ 0) (dofZ 0) = true;
  pow_lt0 : ∀ ct, 0 ≤ ct → dltb (dpow (dofZ ct) exponent_val) (dofZ 0) = false;
  pow_ge0 : ∀ ct, 0 ≤ ct → dleb (dofZ 0) (dpow (dofZ ct) exponent_val) = true
}.

(** Exact integer arithmetic.  It agrees with [double] arithmetic as long
    as the exponent is a non-negative integer and every value stays an
    integer below 2^53; it is used to run the planner on small inputs. *)
#[export] Instance ZDouble : DoubleOps Z := {|
  dofZ := λ z, z;
  dadd := Z.add;
  dpow := Z.pow;
  dltb := Z.ltb;
  dleb := Z.leb
|}.

(** ** [stri__wrap_greedy] *)

Section Greedy.
Variables (width_val : Z) (counts_orig counts_trim : list Z).

(** Body of the loop over [j]; the state is [(cur_len, wrap)]. *)
Definition greedy_step (j : nat) (st : Z * list nat) : option (Z * list nat) :=
  let '(cur_len, wrap) := st in
  t ← counts_trim !! j;
  o ← counts_orig !! j;
  if (cur_len + t >? width_val)
  then Some (o, wrap ++ [(j - 1)%nat])
  else Some (cur_len + o, wrap).

End Greedy.

Definition stri__wrap_greedy (wrap : list nat) (noccurences : nat) (width_val : Z)
    (counts_orig counts_trim : list Z) : option (list nat) :=
  cur_len ← counts_orig !! 0%nat;
  st ← for_loop 1 (noccurences - 1) (greedy_step width_val counts_orig counts_trim)
                (cur_len, wrap);
  Some (st.2).

(** ** [stri__wrap_dynamic] *)

(** [#define IDX(i,j) (i)*n+(j)] *)
Definition IDX (n i j : nat) : nat := (i * n + j)%nat.

Section Dynamic.
Context {D : Type} `{DoubleOps D}.
Variables (width_val : Z) (exponent_val : D) (counts_orig counts_trim : list Z).
Variable n : nat.

(** The tail of the inner loop body, from [sum += counts_trim[j]] on. *)
Definition cost_fill (i j : nat) (sum : Z) (cost : list D) : option (Z * list D) :=
  t ← counts_trim !! j;
  let sum := sum + t in
  let ct := width_val - sum in
  let v := if (j =? i)%nat
           then (if ct <? 0 then dofZ 0 else dpow (dofZ ct) exponent_val)
           else (if ct <? 0 then dofZ (-1) else dpow (dofZ ct) exponent_val) in
  cost' ← vec_set cost (IDX n i j) v;
  Some (sum, cost').

(** Body of the loop over [j] for a fixed [i]; the state is [(sum, cost)]. *)
Definition cost_cell (i j : nat) (st : Z * list D) : option (Z * list D) :=
  let '(sum, cost) := st in
  if (i <? j)%nat then
    prev ← cost !! IDX n i (j - 1);
    if dltb prev (dofZ 0) then
      cost' ← vec_set cost (IDX n i j) (dofZ (-1));
      Some (sum, cost')                                   (* continue *)
    else
      tp ← counts_trim !! (j - 1)%nat;
      op ← counts_orig !! (j - 1)%nat;
      cost_fill i j (sum - tp + op) cost
  else cost_fill i j sum cost.

(** Body of the loop over [i]: [int sum = 0; for (j = i; j < n; j++) ...] *)
Definition cost_row (i : nat) (cost : list D) : option (list D) :=
  st ← for_loop i n (cost_cell i) (0, cost);
  Some (st.2).

(** [vector<double> cost(n*n)] and the two nested loops filling it. *)
Definition cost_matrix : option (list D) :=
  for_loop 0 n cost_row (replicate (n * n) (dofZ 0)).

(** [while (i <= j) if (cost[IDX(i+1,j)] >= 0.0) break; else ++i;]
    [rem] counts the values of [i] not yet tried: [rem = j + 1 - i]. *)
Fixpoint first_fit (cost : list D) (j rem i : nat) : option nat :=
  match rem with
  | O => Some i
  | S rem' =>
      c ← cost !! IDX n (i + 1) j;
      if dleb (dofZ 0) c then Some i else first_fit cost j rem' (S i)
  end.

(** Body of [for (k = i+1; k < j; ++k)]; the state is [(best_i, i)]. *)
Definition improve (cost f : list D) (j k : nat) (st : D * nat) : option (D * nat) :=
  let '(best_i, i) := st in
  c ← cost !! IDX n (k + 1) j;
  if dltb c (dofZ 0) then Some (best_i, i)                 (* continue *)
  else
    fk ← f !! k;
    let best_cur := dadd fk c in
    if dltb best_cur best_i then Some (best_cur, k) else Some (best_i, i).

(** Body of [for (k = 0; k < i; ++k) where[IDX(k,j)] = where[IDX(k,i)]] *)
Definition copy_where (i j k : nat) (where_ : list bool) : option (list bool) :=
  b ← where_ !! IDX n k i;
  vec_set where_ (IDX n k j) b.

(** Body of the loop over [j]; the state is [(f, where)]. *)
Definition plan_column (cost : list D) (j : nat) (st : list D * list bool)
  : option (list D * list bool) :=
  let '(f, where_) := st in
  c0 ← cost !! IDX n 0 j;
  if dleb (dofZ 0) c0 then
    f' ← vec_set f j c0;
    Some (f', where_)
  else
    i ← first_fit cost j (j + 1) 0;
    f0 ← f !! 0%nat;
    ci ← cost !! IDX n (i + 1) j;
    bi ← for_loop (i + 1) j (improve cost f j) (dadd f0 ci, i);
    w1 ← for_loop 0 (bi.2) (copy_where (bi.2) j) where_;
    w2 ← vec_set w1 (IDX n (bi.2) j) true;
    f' ← vec_set f j (bi.1);
    Some (f', w2).

(** [vector<double> f(n); vector<bool> where(n*n, false)] and the loop. *)
Definition plan_columns (cost : list D) : option (list D * list bool) :=
  for_loop 0 n (plan_column cost) (replicate n (dofZ 0), replicate (n * n) false).

(** Body of the final loop: [if (where[IDX(k,n-1)]) wrap.push_back(k)] *)
Definition collect (where_ : list bool) (k : nat) (wrap : list nat) : option (list nat) :=
  b ← where_ !! IDX n k (n - 1);
  if b : bool then Some (wrap ++ [k]) else Some wrap.
End Dynamic.

Definition stri__wrap_dynamic {D : Type} `{DoubleOps D}
    (wrap : list nat) (noccurences : nat) (width_val : Z) (exponent_val : D)
    (counts_orig counts_trim : list Z) : option (list nat) :=
  let n := (noccurences - 1)%nat in
  cost ← cost_matrix width_val exponent_val counts_orig counts_trim n;
  fw ← plan_columns n cost;
  for_loop 0 n (collect n (fw.2)) wrap.

(** ** R values *)

Inductive CHARSXP : Type :=
| NA_STRING
| mkChar (s : list byte).

#[warnings="-register-all"]
Inductive SEXP : Type :=
| R_NilValue
| STRSXP (elts : list CHARSXP)
| VECSXP (elts : list SEXP).

(** [allocVector(STRSXP, n)]: [n] elements, each [R_BlankString];
    [Rf_allocVector(VECSXP, n)]: [n] elements, each [R_NilValue]. *)
Definition allocVector_STRSXP (n : nat) : list CHARSXP := replicate n (mkChar []).
Definition allocVector_VECSXP (n : nat) : list SEXP := replicate n R_NilValue.

(** [mkCharLen(NULL, 0)] *)
Definition mkCharLen_empty : CHARSXP := mkChar [].

Definition stri__mkStringNA (howmany : Z) : option SEXP :=
  if howmany <=? 0 then Some R_NilValue
  else
    ret ← for_loop 0 (Z.to_nat howmany) (λ i ret, vec_set ret i NA_STRING)
                   (allocVector_STRSXP (Z.to_nat howmany));
    Some (STRSXP ret).

Definition stri__mkStringEmpty (howmany : Z) : option SEXP :=
  if howmany <=? 0 then Some R_NilValue
  else
    ret ← for_loop 0 (Z.to_nat howmany) (λ i ret, vec_set ret i mkCharLen_empty)
                   (allocVector_STRSXP (Z.to_nat howmany));
    Some (STRSXP ret).

(** ** [stri_wrap] *)

Inductive message : Type :=
| MSG__EXPECTED_POSITIVE      (* [Rf_error(MSG__EXPECTED_POSITIVE, "width")] *)
| MSG__NEWLINE_FOUND          (* [throw StriException(MSG__NEWLINE_FOUND)] *)
| ICU_FAILURE.                (* [throw StriException(status)] *)

(** How a piece of [stri_wrap] ends.  [Error m] is an [Rf_error], raised
    directly or by [STRI__ERROR_HANDLER_END] from a thrown [StriException];
    either way the call returns nothing.  [Undefined] is an out-of-range
    access; [OutOfFuel] is a scan that was cut off before [j] reached the
    end of the string. *)
Inductive outcome (A : Type) : Type :=
| Done (a : A)
| Error (m : message)
| Undefined
| OutOfFuel.
Arguments Done {A} a.
Arguments Error {A} m.
Arguments Undefined {A}.
Arguments OutOfFuel {A}.

#[export] Instance outcome_ret : MRet outcome := λ A a, Done a.
#[export] Instance outcome_bind : MBind outcome := λ A B k m,
  match m with
  | Done a => k a
  | Error e => Error e
  | Undefined => Undefined
  | OutOfFuel => OutOfFuel
  end.

Definition defined {A : Type} (o : option A) : outcome A :=
  match o with Some a => Done a | None => Undefined end.

(** [UnicodeSet("[\\u000A-\\u000D\\u0085\\u2028\\u2029]").contains(c)] *)
Definition uset_linebreaks (c : Z) : bool :=
  ((0x0A <=? c) && (c <=? 0x0D)) || (c =? 0x85) || (c =? 0x2028) || (c =? 0x2029).

(** [UnicodeSet("\\p{White_space}").contains(c)]: the code points with the
    Unicode property White_Space. *)
Definition uset_whitespaces (c : Z) : bool :=
  ((0x09 <=? c) && (c <=? 0x0D)) || (c =? 0x20) || (c =? 0x85) || (c =? 0xA0)
  || (c =? 0x1680) || ((0x2000 <=? c) && (c <=? 0x200A))
  || (c =? 0x2028) || (c =? 0x2029) || (c =? 0x202F) || (c =? 0x205F)
  || (c =? 0x3000).

(** Modelled from the spec: [StriContainerUTF8_indexable::toR(i)] (the
    container class is not among the sources) gives a single output line
    equal to the original string. *)
Definition toR (s : list byte) : SEXP := STRSXP [mkChar s].

(** Modelled from the spec: [stri__vector_NA_strings(1)] (not among the
    sources) is the missing-value result, one NA line. *)
Definition stri__vector_NA_strings_1 : SEXP := STRSXP [NA_STRING].

(** [Rf_mkCharLenCE(str_cur_s + last_pos, len, CE_UTF8)]: the [len] bytes
    from offset [last_pos]; defined when they lie inside the string. *)
Definition Rf_mkCharLenCE (str_cur_s : list byte) (last_pos len : Z) : outcome CHARSXP :=
  if (0 <=? last_pos) && (0 <=? len) && (last_pos + len <=? Z.of_nat (length str_cur_s))
  then Done (mkChar (take (Z.to_nat len) (drop (Z.to_nat last_pos) str_cur_s)))
  else Undefined.

(** [wrap.push_back(noccurences-2)] *)
Definition push_back_last (noccurences : nat) (wrap : list nat) : list nat :=
  wrap ++ [(noccurences - 2)%nat].

(** The variables of the scanning loop, with element [i] of [ret]. *)
Record scan_state : Type := ScanState {
  j : Z;
  cur_block : nat;
  cur_count_orig : Z;
  cur_count_trim : Z;
  cur_end_pos_trim : Z;
  counts_orig : list Z;
  counts_trim : list Z;
  end_pos_trim : list Z;
  ret_i : SEXP
}.

Section Driver.
Context {D : Type} `{DoubleOps D}.

(** [U8_NEXT(s, j, n, c)] of ICU: given [j], the offset after the code
    point and the code point, negative for an ill-formed sequence. *)
Variable U8_NEXT : list byte → Z → Z → Z * Z.

(** The offsets [briter->first()], [briter->next()], ... up to [DONE] for
    the text; [None] when ICU reports a failure ([U_FAILURE(status)]). *)
Variable line_boundaries : list byte → option (list Z).

Variables (width_val : Z) (exponent_val : D).

Section OneString.
Variables (str_cur_s : list byte) (pos : list Z).
Let str_cur_n : Z := Z.of_nat (length str_cur_s).

(** [while (j < str_cur_n) { ... }].  The [continue] after an invalid
    sequence is inside this loop, so it resumes the scan. *)
Fixpoint measure_loop (fuel : nat) (st : scan_state) : outcome scan_state :=
  if j st <? str_cur_n then
    match fuel with
    | O => OutOfFuel
    | S fuel' =>
      let '(j', c) := U8_NEXT str_cur_s (j st) str_cur_n in
      if c <? 0 then
        measure_loop fuel'
          (ScanState j' (cur_block st) (cur_count_orig st) (cur_count_trim st)
             (cur_end_pos_trim st) (counts_orig st) (counts_trim st)
             (end_pos_trim st) (toR str_cur_s))           (* continue *)
      else if uset_linebreaks c then Error MSG__NEWLINE_FOUND
      else
        let count_orig := cur_count_orig st + 1 in
        let count_trim := if uset_whitespaces c then cur_count_trim st + 1 else 0 in
        let end_trim := if uset_whitespaces c then cur_end_pos_trim st else j' in
        close ← (if str_cur_n <=? j' then Done true
                 else p ← defined (pos !! (cur_block st + 1)%nat); Done (p <=? j'));
        if close : bool then
          co ← defined (vec_set (counts_orig st) (cur_block st) count_orig);
          ct ← defined (vec_set (counts_trim st) (cur_block st) (count_orig - count_trim));
          ep ← defined (vec_set (end_pos_trim st) (cur_block st) end_trim);
          measure_loop fuel' (ScanState j' (S (cur_block st)) 0 0 j' co ct ep (ret_i st))
        else
          measure_loop fuel'
            (ScanState j' (cur_block st) count_orig count_trim end_trim
               (counts_orig st) (counts_trim st) (end_pos_trim st) (ret_i st))
    end
  else Done st.

(** The three vectors of [noccurences-1] zeros and the scan from [j = 0]. *)
Definition measure (noccurences : nat) : outcome scan_state :=
  let zeros := replicate (noccurences - 1) 0 in
  measure_loop (length str_cur_s) (ScanState 0 0 0 0 0 zeros zeros zeros R_NilValue).

(** [if (exponent_val <= 0.0) stri__wrap_greedy(...) else
    stri__wrap_dynamic(...)], on the empty deque [wrap]. *)
Definition plan (noccurences : nat) (c_orig c_trim : list Z) : option (list nat) :=
  if dleb exponent_val (dofZ 0)
  then stri__wrap_greedy [] noccurences width_val c_orig c_trim
  else stri__wrap_dynamic [] noccurences width_val exponent_val c_orig c_trim.

(** The loop over [iter_wrap]; the state is [(j, last_pos, ans)]. *)
Fixpoint build (e_trim : list Z) (wrap : list nat) (st : nat * Z * list CHARSXP)
  : outcome (list CHARSXP) :=
  match wrap with
  | [] => Done (st.2)
  | w :: wrap' =>
      let '(j, last_pos, ans) := st in
      cur_pos ← defined (e_trim !! w);
      line ← Rf_mkCharLenCE str_cur_s last_pos (cur_pos - last_pos);
      ans' ← defined (vec_set ans j line);
      last_pos' ← defined (pos !! (w + 1)%nat);
      build e_trim wrap' (S j, last_pos', ans')
  end.
End OneString.

(** The body of the loop over [i]: the value left in element [i] of
    [ret] when the iteration completes. *)
Definition wrap_element (str_i : option (list byte)) : outcome SEXP :=
  match str_i with
  | None => Done stri__vector_NA_strings_1
  | Some str_cur_s =>
      match line_boundaries str_cur_s with
      | None => Error ICU_FAILURE
      | Some occurences_list =>
          let noccurences := length occurences_list in
          if (noccurences <=? 1)%nat then Done (toR str_cur_s)
          else
            st ← measure str_cur_s occurences_list noccurences;
            wrap ← defined (plan noccurences (counts_orig st) (counts_trim st));
            let nlines := (length wrap + 1)%nat in
            let wrap := push_back_last noccurences wrap in
            ans ← build str_cur_s occurences_list (end_pos_trim st) wrap
                        (0%nat, 0, allocVector_STRSXP nlines);
            Done (STRSXP ans)
      end
  end.

(** [for (i = 0; i < str_length; ++i) { ... SET_VECTOR_ELT(ret, i, ...) }] *)
Fixpoint wrap_elements (str : list (option (list byte))) (i : nat) (ret : list SEXP)
  : outcome (list SEXP) :=
  match str with
  | [] => Done ret
  | str_i :: str' =>
      elt ← wrap_element str_i;
      ret' ← defined (vec_set ret i elt);
      wrap_elements str' (S i) ret'
  end.
End Driver.

(** [str] holds the prepared argument: each element a UTF-8 string or NA. *)
Definition stri_wrap {D : Type} `{DoubleOps D}
    (U8_NEXT : list byte → Z → Z → Z * Z)
    (line_boundaries : list byte → option (list Z))
    (str : list (option (list byte))) (width_val : Z) (exponent_val : D)
  : outcome SEXP :=
  if width_val <=? 0 then Error MSG__EXPECTED_POSITIVE
  else
    ret ← wrap_elements U8_NEXT line_boundaries width_val exponent_val str 0
                        (allocVector_VECSXP (length str));
    Done (VECSXP ret).

(** ** [StriContainerListUTF8] ([src/container_listutf8.h]) *)

Module StriContainerListUTF8.

(** The members the accessors read: [data], an array of pointers to
    string containers with [NULL] for a missing one, and [n] and
    [nrecycle] of the base class.  [A] stands for [StriContainerUTF8]. *)
Record t (A : Type) : Type := Make {
  data : list (option A);
  n : Z;
  nrecycle : Z
}.
Arguments Make {A} data n nrecycle.
Arguments data {A} _.
Arguments n {A} _.
Arguments nrecycle {A} _.

(** How an accessor ends: with a value, with [error(msg)], or with an
    access that C++ leaves undefined. *)
Inductive result (A : Type) : Type :=
| Value (a : A)
| Rf_error (msg : string)
| Undefined_access.
Arguments Value {A} a.
Arguments Rf_error {A} msg.
Arguments Undefined_access {A}.

(** [data[i%n]] on [int]s: [%] truncates towards zero and is undefined
    for [n == 0] and for [INT_MIN % -1]; the array is read inside its
    bounds only. *)
Definition data_at {A : Type} (c : t A) (i : Z) : option (option A) :=
  if (n c =? 0) || ((i =? - 2 ^ 31) && (n c =? -1)) then None
  else
    let r := Z.rem i (n c) in
    if r <? 0 then None else data c !! Z.to_nat r.

(** [NDEBUG] tells whether the checks under [#ifndef NDEBUG] are
    compiled out. *)
Definition isNA {A : Type} (NDEBUG : bool) (c : t A) (i : Z) : result bool :=
  if negb NDEBUG && ((i <? 0) || (nrecycle c <=? i))
  then Rf_error "StriContainerListUTF8::isNA(): INDEX OUT OF BOUNDS"
  else
    match data_at c i with
    | Some d => Value (match d with None => true | Some _ => false end)
    | None => Undefined_access
    end.

Definition get {A : Type} (NDEBUG : bool) (c : t A) (i : Z) : result A :=
  if negb NDEBUG && ((i <? 0) || (nrecycle c <=? i))
  then Rf_error "StriContainerListUTF8::get(): INDEX OUT OF BOUNDS"
  else
    match data_at c i with
    | Some None =>
        if negb NDEBUG then Rf_error "StriContainerListUTF8::get(): isNA"
        else Undefined_access                              (* [*NULL] *)
    | Some (Some x) => Value x
    | None => Undefined_access
    end.

End StriContainerListUTF8.

(** ** Stand-ins for ICU, to run the driver *)

Definition byte_at (s : list byte) (i : Z) : Z :=
  match s !! Z.to_nat i with
  | Some b => Z.of_N (Byte.to_N b)
  | None => 0
  end.

Definition is_trail (b : Z) : bool := (0x80 <=? b) && (b <=? 0xBF).

Definition second_of_3 (b0 b1 : Z) : bool :=
  if b0 =? 0xE0 then (0xA0 <=? b1) && (b1 <=? 0xBF)
  else if b0 =? 0xED then (0x80 <=? b1) && (b1 <=? 0x9F)
  else is_trail b1.

Definition second_of_4 (b0 b1 : Z) : bool :=
  if b0 =? 0xF0 then (0x90 <=? b1) && (b1 <=? 0xBF)
  else if b0 =? 0xF4 then (0x80 <=? b1) && (b1 <=? 0x8F)
  else is_trail b1.

(** A decoder with the interface of [U8_NEXT]: the well-formed UTF-8
    sequences of the Unicode Standard (Table 3-7) give their code point;
    a byte that starts none of them is consumed alone and gives [-1]. *)
Definition u8_next (s : list byte) (i n : Z) : Z * Z :=
  let b0 := byte_at s i in
  let b1 := byte_at s (i + 1) in
  let b2 := byte_at s (i + 2) in
  let b3 := byte_at s (i + 3) in
  if b0 <? 0x80 then (i + 1, b0)
  else if (0xC2 <=? b0) && (b0 <=? 0xDF) && (i + 1 <? n) && is_trail b1 then
    (i + 2, Z.lor (Z.shiftl (Z.land b0 0x1F) 6) (Z.land b1 0x3F))
  else if (0xE0 <=? b0) && (b0 <=? 0xEF) && (i + 2 <? n)
          && second_of_3 b0 b1 && is_trail b2 then
    (i + 3, Z.lor (Z.shiftl (Z.land b0 0x0F) 12)
              (Z.lor (Z.shiftl (Z.land b1 0x3F) 6) (Z.land b2 0x3F)))
  else if (0xF0 <=? b0) && (b0 <=? 0xF4) && (i + 3 <? n)
          && second_of_4 b0 b1 && is_trail b2 && is_trail b3 then
    (i + 4, Z.lor (Z.shiftl (Z.land b0 0x07) 18)
              (Z.lor (Z.shiftl (Z.land b1 0x3F) 12)
                 (Z.lor (Z.shiftl (Z.land b2 0x3F) 6) (Z.land b3 0x3F))))
  else (i + 1, -1).

(** A segmenter to run the driver with: a break opportunity after every
    run of U+0020, besides offset 0 and the end of the text. *)
Fixpoint space_breaks (s : list byte) (i : Z) (after_space : bool) : list Z :=
  match s with
  | [] => [i]
  | b :: s' =>
      let sp := Byte.eqb b x20 in
      (if after_space && negb sp then [i] else []) ++ space_breaks s' (i + 1) sp
  end.

Definition space_boundaries (s : list byte) : option (list Z) :=
  match s with
  | [] => Some [0]
  | _ => Some (0 :: space_breaks s 0 false)
  end.

Definition bytes (s : string) : list byte := String.list_byte_of_string s.

(** ** Notions used in the statements *)

Definition zsum (l : list Z) : Z := foldr Z.add 0 l.

(** The [k]-th count of a vector, read totally (0 outside the vector). *)
Definition count_at (counts : list Z) (k : nat) : Z := default 0 (counts !! k).

(** The width of the line made of words [i..j]: the original width of
    every word but the last, and the trimmed width of the last. *)
Definition line_sum (counts_orig counts_trim : list Z) (i j : nat) : Z :=
  zsum (take (j - i) (drop i counts_orig)) + count_at counts_trim j.

Definition strictly_increasing (l : list nat) : Prop :=
  ∀ a b x y, (a < b)%nat → l !! a = Some x → l !! b = Some y → (x < y)%nat.

(** The words [(first, last)] of the lines that end at the words [ends],
    as the driver's loop over [iter_wrap] walks them: a line starts at
    word 0 or at the word after the previous end ([last_pos = pos[w+1]]). *)
Fixpoint line_ranges (first : nat) (ends : list nat) : list (nat * nat) :=
  match ends with
  | [] => []
  | w :: ends' => (first, w) :: line_ranges (S w) ends'
  end.

(** The current line width of the greedy policy once word [j] is placed. *)
Fixpoint greedy_cur_len (width_val : Z) (counts_orig counts_trim : list Z) (j : nat) : Z :=
  match j with
  | O => count_at counts_orig 0
  | S j' =>
      if greedy_cur_len width_val counts_orig counts_trim j' + count_at counts_trim j
         >? width_val
      then count_at counts_orig j
      else greedy_cur_len width_val counts_orig counts_trim j' + count_at counts_orig j
  end.

(** Whether word [j >= 1] does not fit behind word [j-1]. *)
Definition greedy_breaks_before (width_val : Z) (counts_orig counts_trim : list Z)
    (j : nat) : bool :=
  greedy_cur_len width_val counts_orig counts_trim (j - 1) + count_at counts_trim j
  >? width_val.

(** The greedy loop with the bounds of claim C3, [j = 1 .. wordCount-2]. *)
Definition greedy_as_claimed (width_val : Z) (counts_orig counts_trim : list Z)
    (wordCount : nat) : option (list nat) :=
  cur_len ← counts_orig !! 0%nat;
  st ← for_loop 1 (wordCount - 1) (greedy_step width_val counts_orig counts_trim)
                (cur_len, []);
  Some (st.2).

(** The cost of a line from the space [ct] it leaves: an overlong
    single word costs [0.0], any other overlong line is the sentinel. *)
Definition cost_of_slack {D : Type} `{DoubleOps D} (exponent_val : D)
    (single : bool) (ct : Z) : D :=
  if single then (if ct <? 0 then dofZ 0 else dpow (dofZ ct) exponent_val)
  else (if ct <? 0 then dofZ (-1) else dpow (dofZ ct) exponent_val).

Definition line_cost {D : Type} `{DoubleOps D} (width_val : Z) (exponent_val : D)
    (counts_orig counts_trim : list Z) (i j : nat) : D :=
  cost_of_slack exponent_val (j =? i)%nat (width_val - line_sum counts_orig counts_trim i j).

(** Whether some line [i..j'] with [i < j' <= j] is wider than [width_val]. *)
Definition blocked (width_val : Z) (counts_orig counts_trim : list Z) (i j : nat) : bool :=
  existsb (λ j', line_sum counts_orig counts_trim i j' >? width_val) (seq (i + 1) (j - i)).

(** The entry that the first loop nest of [stri__wrap_dynamic] leaves in
    [cost[IDX(i,j)]], for any counts. *)
Definition cell_value {D : Type} `{DoubleOps D} (width_val : Z) (exponent_val : D)
    (counts_orig counts_trim : list Z) (i j : nat) : D :=
  if negb (j =? i)%nat && blocked width_val counts_orig counts_trim i j then dofZ (-1)
  else line_cost width_val exponent_val counts_orig counts_trim i j.

(** The sum and the cost of claim C1: the trimmed width of every word but
    the last, and the original width of the last. *)
Definition claimed_line_sum (counts_orig counts_trim : list Z) (i j : nat) : Z :=
  zsum (take (j - i) (drop i counts_trim)) + count_at counts_orig j.

Definition claimed_line_cost {D : Type} `{DoubleOps D} (width_val : Z) (exponent_val : D)
    (counts_orig counts_trim : list Z) (i j : nat) : D :=
  cost_of_slack exponent_val (j =? i)%nat
    (width_val - claimed_line_sum counts_orig counts_trim i j).

(** The invariant of the loop over [j] that fills row [i] of [cost]: the
    state is [(sum, cost)], rows above [i] and the entries of row [i]
    before column [j] are final, and [sum] is the width of the line
    [i..j-1] as long as no line of the row was too wide. *)
Definition row_inv {D : Type} `{DoubleOps D} (width_val : Z) (exponent_val : D)
    (counts_orig counts_trim : list Z) (n i j : nat) (st : Z * list D) : Prop :=
  length st.2 = (n * n)%nat
  ∧ (∀ i' j', (i' < i ∨ (i' = i ∧ j' < j))%nat → (i' ≤ j' < n)%nat →
       st.2 !! IDX n i' j'
       = Some (cell_value width_val exponent_val counts_orig counts_trim i' j'))
  ∧ (j = i → st.1 = 0)
  ∧ ((i < j)%nat → blocked width_val counts_orig counts_trim i (j - 1) = false →
     st.1 = line_sum counts_orig counts_trim i (j - 1)).

(** [is_line brk last a b]: words [a..b] are one line of the layout of
    words [0..last] whose breaks are the words satisfying [brk]. *)
Definition is_line (brk : nat → Prop) (last a b : nat) : Prop :=
  (a ≤ b ≤ last)%nat
  ∧ (a = 0%nat ∨ ((1 ≤ a)%nat ∧ brk (a - 1)%nat))
  ∧ (b = last ∨ brk b)
  ∧ ∀ k, (a ≤ k < b)%nat → ¬ brk k.

(** A line fits when it is a single word or is at most [width_val] wide. *)
Definition fits (width_val : Z) (counts_orig counts_trim : list Z) (a b : nat) : Prop :=
  a = b ∨ line_sum counts_orig counts_trim a b ≤ width_val.

Definition lines_fit (width_val : Z) (counts_orig counts_trim : list Z)
    (brk : nat → Prop) (last : nat) : Prop :=
  ∀ a b, is_line brk last a b → fits width_val counts_orig counts_trim a b.

(** [where[IDX(k,j)]] is set: a break after word [k] when printing [0..j]. *)
Definition breaks_at (n : nat) (where_ : list bool) (j k : nat) : Prop :=
  where_ !! IDX n k j = Some true.

(** The invariant of the loop over [j] that fills [f] and [where]: an
    entry of [where] is set only below the diagonal of a column already
    done, and the lines of every column done fit. *)
Definition plan_inv {D : Type} (width_val : Z) (counts_orig counts_trim : list Z)
    (n j : nat) (st : list D * list bool) : Prop :=
  length st.1 = n
  ∧ length st.2 = (n * n)%nat
  ∧ (∀ k j', (k < n)%nat → (j' < n)%nat →
       ∃ b : bool, st.2 !! IDX n k j' = Some b ∧ (b = true → (k < j' < j)%nat))
  ∧ (∀ j', (j' < j)%nat →
       lines_fit width_val counts_orig counts_trim (breaks_at n st.2 j') j').

(** The invariant of the loop of [stri__wrap_greedy] on reaching word
    [k]: the state is [(cur_len, wrap)], the breaks so far lay out the
    words [0..k-1] in lines that fit, and [cur_len] is the sum of the
    original widths of the words of the last of these lines. *)
Definition greedy_inv (width_val : Z) (counts_orig counts_trim : list Z)
    (k : nat) (st : Z * list nat) : Prop :=
  strictly_increasing st.2
  ∧ (∀ x, x ∈ st.2 → (x + 1 < k)%nat)
  ∧ lines_fit width_val counts_orig counts_trim (λ x, x ∈ st.2) (k - 1)
  ∧ ∃ a, is_line (λ x, x ∈ st.2) (k - 1) a (k - 1)
         ∧ st.1 = zsum (take (k - a) (drop a counts_orig)).

(** The code points the scanning loop meets from offset [j] on, in at
    most [fuel] steps. *)
Fixpoint code_points (U8_NEXT : list byte → Z → Z → Z * Z) (s : list byte)
    (fuel : nat) (j : Z) : list Z :=
  if j <? Z.of_nat (length s) then
    match fuel with
    | O => []
    | S fuel' =>
        let '(j', c) := U8_NEXT s j (Z.of_nat (length s)) in
        c :: code_points U8_NEXT s fuel' j'
    end
  else [].

(** The line breaks of claim C6: LF, CR, NEL, LINE SEPARATOR, PARAGRAPH
    SEPARATOR, and VT, FF. *)
Definition forbidden_break (c : Z) : Prop :=
  c ∈ [0x0A; 0x0D; 0x85; 0x2028; 0x2029; 0x0B; 0x0C].

(** What the scanning loop keeps true: the three vectors have one entry
    per word, and while the scan is inside the string the current block
    has a following boundary. *)
Definition scan_ok (pos : list Z) (n : Z) (st : scan_state) : Prop :=
  length (counts_orig st) = (length pos - 1)%nat
  ∧ length (counts_trim st) = (length pos - 1)%nat
  ∧ length (end_pos_trim st) = (length pos - 1)%nat
  ∧ (j st < n → (cur_block st + 1 < length pos)%nat).

(** The column step with the candidate totals of claim C5: the first
    candidate [i] is charged [f[i] + cost[IDX(i+1,j)]], like the later
    candidates [k], so that ties between totals go to the smallest start. *)
Definition claimed_plan_column {D : Type} `{DoubleOps D} (n : nat) (cost : list D)
    (j : nat) (st : list D * list bool) : option (list D * list bool) :=
  let '(f, where_) := st in
  c0 ← cost !! IDX n 0 j;
  if dleb (dofZ 0) c0 then
    f' ← vec_set f j c0;
    Some (f', where_)
  else
    i ← first_fit n cost j (j + 1) 0;
    fi ← f !! i;
    ci ← cost !! IDX n (i + 1) j;
    bi ← for_loop (i + 1) j (improve n cost f j) (dadd fi ci, i);
    w1 ← for_loop 0 (bi.2) (copy_where n (bi.2) j) where_;
    w2 ← vec_set w1 (IDX n (bi.2) j) true;
    f' ← vec_set f j (bi.1);
    Some (f', w2).

Definition claimed_dynamic {D : Type} `{DoubleOps D}
    (noccurences : nat) (width_val : Z) (exponent_val : D)
    (counts_orig counts_trim : list Z) : option (list nat) :=
  let n := (noccurences - 1)%nat in
  cost ← cost_matrix width_val exponent_val counts_orig counts_trim n;
  fw ← for_loop 0 n (claimed_plan_column n cost)
                (replicate n (dofZ 0), replicate (n * n) false);
  for_loop 0 n (collect n (fw.2)) [].

(** The byte offset at which the driver starts the line whose first word
    is [a]: [last_pos], which is 0 at first and [pos[w+1]] after a line
    that ends at word [w]. *)
Definition line_start (pos : list Z) (a : nat) : option Z :=
  if (a =? 0)%nat then Some 0 else pos !! a.

(** The counts of the data model: [0 <= trimmed <= original], for the
    words already measured and for the running counts of the current
    word. *)
Definition counts_ok (st : scan_state) : Prop :=
  0 ≤ cur_count_trim st ≤ cur_count_orig st
  ∧ length (counts_trim st) = length (counts_orig st)
  ∧ ∀ k, 0 ≤ count_at (counts_trim st) k ≤ count_at (counts_orig st) k.

(** [span U8_NEXT s x y m]: decoding [s] from offset [x] arrives at
    offset [y] after exactly [m] code points. *)
Inductive span (U8_NEXT : list byte → Z → Z → Z * Z) (s : list byte) : Z → Z → Z → Prop :=
| span_here (x : Z) : span U8_NEXT s x x 0
| span_next (x y m : Z) :
    0 ≤ x < Z.of_nat (length s) →
    span U8_NEXT s (U8_NEXT s x (Z.of_nat (length s))).1 y m →
    span U8_NEXT s x y (m + 1).

(** The decoder advances, and every code point of [s] is well formed. *)
Definition well_decoded (U8_NEXT : list byte → Z → Z → Z * Z) (s : list byte) : Prop :=
  (∀ x, 0 ≤ x < Z.of_nat (length s) → x < (U8_NEXT s x (Z.of_nat (length s))).1)
  ∧ (∀ x m, span U8_NEXT s 0 x m → x < Z.of_nat (length s) →
            0 ≤ (U8_NEXT s x (Z.of_nat (length s))).2).

(** The contract of the segmenter: offsets from 0 to the length of the
    text, strictly increasing, each on a code point boundary. *)
Definition well_segmented (U8_NEXT : list byte → Z → Z → Z * Z) (s : list byte)
    (pos : list Z) : Prop :=
  pos !! 0%nat = Some 0
  ∧ last pos = Some (Z.of_nat (length s))
  ∧ (∀ k p, pos !! k = Some p → 0 ≤ p ≤ Z.of_nat (length s))
  ∧ (∀ k p q, pos !! k = Some p → pos !! (k + 1)%nat = Some q →
       p < q ∧ ∃ m, span U8_NEXT s p q m).

(** Word [k] is measured: its original width is the number of code points
    between its two boundaries, its trimmed width the number of code
    points up to its trimmed end. *)
Definition block_ok (U8_NEXT : list byte → Z → Z → Z * Z) (s : list byte)
    (pos : list Z) (st : scan_state) (k : nat) : Prop :=
  ∃ p q e,
    pos !! k = Some p ∧ pos !! (k + 1)%nat = Some q ∧ end_pos_trim st !! k = Some e
    ∧ e ≤ q
    ∧ span U8_NEXT s p q (count_at (counts_orig st) k)
    ∧ span U8_NEXT s p e (count_at (counts_trim st) k).

(** The invariant of the scanning loop on a well-formed, well-segmented
    string. *)
Definition scan_inv (U8_NEXT : list byte → Z → Z → Z * Z) (s : list byte)
    (pos : list Z) (st : scan_state) : Prop :=
  length (counts_orig st) = (length pos - 1)%nat
  ∧ length (counts_trim st) = (length pos - 1)%nat
  ∧ length (end_pos_trim st) = (length pos - 1)%nat
  ∧ (∃ p m0,
       pos !! cur_block st = Some p ∧ span U8_NEXT s 0 p m0
       ∧ span U8_NEXT s p (j st) (cur_count_orig st)
       ∧ span U8_NEXT s p (cur_end_pos_trim st) (cur_count_orig st - cur_count_trim st)
       ∧ cur_end_pos_trim st ≤ j st)
  ∧ (j st < Z.of_nat (length s) →
       ∃ q m, pos !! (cur_block st + 1)%nat = Some q ∧ j st < q
              ∧ span U8_NEXT s (j st) q m)
  ∧ (Z.of_nat (length s) ≤ j st → (cur_block st + 1)%nat = length pos)
  ∧ ∀ k, (k < cur_block st)%nat → block_ok U8_NEXT s pos st k.

(** A segmenter that reports a failure for the empty text, to run the
    path [if (U_FAILURE(status)) throw StriException(status)]. *)
Definition failing_boundaries (s : list byte) : option (list Z) :=
  match s with
  | [] => None
  | _ => space_boundaries s
  end.

(** [blank U8_NEXT s x y]: decoding [s] from offset [x] arrives at offset
    [y] through white space only. *)
Inductive blank (U8_NEXT : list byte → Z → Z → Z * Z) (s : list byte) : Z → Z → Prop :=
| blank_here (x : Z) : blank U8_NEXT s x x
| blank_next (x y : Z) :
    0 ≤ x < Z.of_nat (length s) →
    uset_whitespaces (U8_NEXT s x (Z.of_nat (length s))).2 = true →
    blank U8_NEXT s (U8_NEXT s x (Z.of_nat (length s))).1 y →
    blank U8_NEXT s x y.

(** [e] is a tight trimmed end for a word that starts at [p]: the start
    itself, or the offset just behind a code point of the word that is
    not white space. *)
Definition trimmed_end (U8_NEXT : list byte → Z → Z → Z * Z) (s : list byte)
    (p e : Z) : Prop :=
  e = p
  ∨ ∃ x, p ≤ x ∧ 0 ≤ x < Z.of_nat (length s)
         ∧ (U8_NEXT s x (Z.of_nat (length s))).1 = e
         ∧ uset_whitespaces (U8_NEXT s x (Z.of_nat (length s))).2 = false.

(** What the scanning loop keeps true of [cur_end_pos_trim] and of the
    entries of [end_pos_trim] already written. *)
Definition trim_inv (U8_NEXT : list byte → Z → Z → Z * Z) (s : list byte)
    (pos : list Z) (st : scan_state) : Prop :=
  (∃ p, pos !! cur_block st = Some p ∧ trimmed_end U8_NEXT s p (cur_end_pos_trim st))
  ∧ blank U8_NEXT s (cur_end_pos_trim st) (j st)
  ∧ ∀ k, (k < cur_block st)%nat →
      ∃ p q e, pos !! k = Some p ∧ pos !! (k + 1)%nat = Some q
               ∧ end_pos_trim st !! k = Some e
               ∧ trimmed_end U8_NEXT s p e ∧ blank U8_NEXT s e q.

(** The words of a line [(first, last)], in order. *)
Definition words_of (line : nat * nat) : list nat :=
  seq line.1 (line.2 + 1 - line.1).

(** What the search for the best break relies on: [<] is irreflexive, and
    a value that is not below [y] is not below anything below [y].  IEEE
    doubles satisfy both, NaN included (every comparison with a NaN is
    false). *)
Record OrderLaws (D : Type) `{DoubleOps D} : Prop := {
  dltb_irrefl : ∀ x : D, dltb x x = false;
  dltb_below : ∀ x y z : D, dltb x y = true → dltb z y = false → dltb z x = false
}.

(** Column [j] of [f] and [where] holds what the loop over [j] of
    [stri__wrap_dynamic] computes for it from the columns before it: when
    words [0..j] fit, their cost and no break; otherwise the total
    [best_i] that the search over the candidates leaves, a break after
    the word [i] it selects, and before it the breaks of column [i]. *)
Definition column_done {D : Type} `{DoubleOps D} (n : nat) (cost : list D) (j : nat)
    (st : list D * list bool) : Prop :=
  ∃ c0, cost !! IDX n 0 j = Some c0
    ∧ if dleb (dofZ 0) c0
      then st.1 !! j = Some c0 ∧ ∀ k, (k < n)%nat → st.2 !! IDX n k j = Some false
      else ∃ i0 f0 ci best i,
             first_fit n cost j (j + 1) 0 = Some i0
             ∧ st.1 !! 0%nat = Some f0
             ∧ cost !! IDX n (i0 + 1) j = Some ci
             ∧ for_loop (i0 + 1) j (improve n cost st.1 j) (dadd f0 ci, i0)
               = Some (best, i)
             ∧ st.1 !! j = Some best
             ∧ (i0 ≤ i < j)%nat
             ∧ ∀ k, (k < n)%nat →
                 st.2 !! IDX n k j
                 = if decide (k = i) then Some true
                   else if decide (k < i)%nat then st.2 !! IDX n k i
                   else Some false.

(** * Properties *)

(** ** The examples of the specification *)

Example greedy_quick_brown_fox :
  stri__wrap_greedy [] 6 10 [4; 6; 6; 4; 5] [3; 5; 5; 3; 5] = Some [1; 3]%nat.
Proof. reflexivity. Qed.

Example dynamic_quick_brown_fox :
  stri__wrap_dynamic (D:=Z) [] 6 10 2 [4; 6; 6; 4; 5] [3; 5; 5; 3; 5] = Some [1; 2]%nat.
Proof. reflexivity. Qed.

Example stri_wrap_quick_brown_fox_greedy :
  stri_wrap (D:=Z) u8_next space_boundaries
    [Some (bytes "The quick brown fox jumps"); None; Some (bytes "")] 10 0
  = Done (VECSXP [STRSXP [mkChar (bytes "The quick"); mkChar (bytes "brown fox");
                          mkChar (bytes "jumps")];
                  STRSXP [NA_STRING];
                  STRSXP [mkChar []]]).
Proof. vm_compute. reflexivity. Qed.

Example stri_wrap_quick_brown_fox_dynamic :
  stri_wrap (D:=Z) u8_next space_boundaries
    [Some (bytes "The quick brown fox jumps")] 10 2
  = Done (VECSXP [STRSXP [mkChar (bytes "The quick"); mkChar (bytes "brown");
                          mkChar (bytes "fox jumps")]]).
Proof. vm_compute. reflexivity. Qed.

(** ** Counted loops *)

Lemma iterM_app {S : Type} (body : nat → S → option S) (js ks : list nat) (s : S) :
  iterM body (js ++ ks) s = s' ← iterM body js s; iterM body ks s'.
Proof.
  revert s. induction js as [|k js IH]; intros s; simpl; [done|].
  destruct (body k s); simpl; [apply IH | done].
Qed.

Lemma for_loop_empty {S : Type} (lo hi : nat) (body : nat → S → option S) (s : S) :
  (hi ≤ lo)%nat → for_loop lo hi body s = Some s.
Proof.
  intros Hle. unfold for_loop. replace (hi - lo)%nat with 0%nat by lia. done.
Qed.

Lemma for_loop_first {S : Type} (lo hi : nat) (body : nat → S → option S) (s : S) :
  (lo < hi)%nat →
  for_loop lo hi body s = s' ← body lo s; for_loop (Datatypes.S lo) hi body s'.
Proof.
  intros Hlt. unfold for_loop.
  replace (hi - lo)%nat with (Datatypes.S (hi - Datatypes.S lo)) by lia.
  simpl. destruct (body lo s); done.
Qed.

Lemma for_loop_last {S : Type} (lo hi : nat) (body : nat → S → option S) (s : S) :
  (lo ≤ hi)%nat →
  for_loop lo (Datatypes.S hi) body s = s' ← for_loop lo hi body s; body hi s'.
Proof.
  intros Hle. unfold for_loop.
  replace (Datatypes.S hi - lo)%nat with ((hi - lo) + 1)%nat by lia.
  rewrite seq_app, iterM_app. simpl.
  replace (lo + (hi - lo))%nat with hi by lia.
  destruct (iterM body (seq lo (hi - lo)) s) as [s'|]; simpl; [|done].
  destruct (body hi s'); done.
Qed.

(** The loop rule: an invariant that holds on entry and is kept by every
    iteration holds on exit, and the loop has a result. *)
Lemma for_loop_inv {S : Type} (P : nat → S → Prop) (lo hi : nat)
    (body : nat → S → option S) (s : S) :
  (lo ≤ hi)%nat →
  P lo s →
  (∀ k t, (lo ≤ k < hi)%nat → P k t → ∃ t', body k t = Some t' ∧ P (Datatypes.S k) t') →
  ∃ s', for_loop lo hi body s = Some s' ∧ P hi s'.
Proof.
  intros Hle H0 Hstep. induction hi as [|hi IH].
  - assert (lo = 0%nat) as -> by lia. exists s. split; [by apply for_loop_empty|done].
  - destruct (decide (lo = Datatypes.S hi)) as [->|Hne].
    + exists s. split; [by apply for_loop_empty|done].
    + destruct IH as (s1 & Hs1 & HP1); [lia| |].
      { intros k t Hk. apply Hstep. lia. }
      destruct (Hstep hi s1) as (s2 & Hs2 & HP2); [lia|done|].
      exists s2. split; [|done].
      rewrite for_loop_last by lia. rewrite Hs1. simpl. done.
Qed.

Lemma seq_snoc (lo k : nat) :
  (1 ≤ k)%nat → seq lo k = seq lo (k - 1) ++ [(lo + (k - 1))%nat].
Proof.
  intros Hk. replace k with (Datatypes.S (k - 1)) at 1 by lia. apply seq_S.
Qed.

Lemma vec_set_Some {A : Type} (v : list A) (i : nat) (x : A) :
  (i < length v)%nat → vec_set v i x = Some (<[i:=x]> v).
Proof.
  intros Hi. unfold vec_set. destruct (Nat.ltb_spec i (length v)); [done|lia].
Qed.

Lemma vec_set_inv {A : Type} (v v' : list A) (i : nat) (x : A) :
  vec_set v i x = Some v' → (i < length v)%nat ∧ v' = <[i:=x]> v.
Proof.
  unfold vec_set. destruct (Nat.ltb_spec i (length v)); [|done].
  intros [= <-]. done.
Qed.

(** ** [stri__mkStringNA], [stri__mkStringEmpty] *)

Lemma fill_loop (n : nat) (d v : CHARSXP) :
  for_loop 0 n (λ i ret, vec_set ret i v) (replicate n d) = Some (replicate n v).
Proof.
  destruct (for_loop_inv
    (λ i ret, ret = replicate i v ++ replicate (n - i) d) 0 n
    (λ i ret, vec_set ret i v) (replicate n d)) as (ret & Hret & Hinv).
  - lia.
  - simpl. by rewrite Nat.sub_0_r.
  - intros k t Hk ->. eexists. split.
    + apply vec_set_Some. rewrite length_app, !length_replicate. lia.
    + replace (n - k)%nat with (Datatypes.S (n - Datatypes.S k)) by lia.
      rewrite insert_app_r_alt by (rewrite length_replicate; lia).
      rewrite length_replicate, Nat.sub_diag, (replicate_S_end k v), <- app_assoc.
      done.
  - rewrite Hret, Hinv, Nat.sub_diag. simpl. by rewrite app_nil_r.
Qed.

(** ** The driver: argument check and short circuits *)

Lemma wrap_elements_spec {D : Type} `{DoubleOps D} U8_NEXT line_boundaries width_val
    (exponent_val : D) (str : list (option (list byte))) (i : nat) (ret ret' : list SEXP) :
  wrap_elements U8_NEXT line_boundaries width_val exponent_val str i ret = Done ret' →
  length ret' = length ret ∧
  (∀ k, (k < i)%nat → ret' !! k = ret !! k) ∧
  (∀ k str_k, str !! k = Some str_k →
     ∃ elt, wrap_element U8_NEXT line_boundaries width_val exponent_val str_k = Done elt
            ∧ ret' !! (i + k)%nat = Some elt).
Proof.
  revert i ret. induction str as [|s str IH]; intros i ret; simpl.
  - intros [= <-]. split; [done|]. split; [done|]. intros k x Hk. done.
  - destruct (wrap_element _ _ _ _ s) as [elt| | |] eqn:Helt; simpl; try done.
    destruct (vec_set ret i elt) as [ret1|] eqn:Hset; simpl; [|done].
    apply vec_set_inv in Hset as [Hi ->].
    intros Hrest. apply IH in Hrest as (Hlen & Hlow & Hall).
    rewrite length_insert in Hlen. split; [done|]. split.
    + intros k Hk. rewrite Hlow by lia. apply list_lookup_insert_ne. lia.
    + intros [|k] x Hk; simpl in Hk.
      * injection Hk as <-. exists elt. split; [done|].
        rewrite Nat.add_0_r, Hlow by lia. by apply list_lookup_insert_eq.
      * destruct (Hall k x Hk) as (e & He & Hr). exists e. split; [done|].
        by replace (i + Datatypes.S k)%nat with (Datatypes.S i + k)%nat by lia.
Qed.

(** C10. For [howmany <= 0] both [stri__mkStringNA] and
    [stri__mkStringEmpty] return [R_NilValue], which is not a character
    vector of length zero; for [howmany > 0] they return a character
    vector of exactly [howmany] elements, all [NA_STRING], respectively all
    the empty string. *)
Theorem mkString_nil_or_filled (howmany : Z) :
  (howmany ≤ 0 →
     stri__mkStringNA howmany = Some R_NilValue
     ∧ stri__mkStringEmpty howmany = Some R_NilValue
     ∧ R_NilValue ≠ STRSXP [])
  ∧ (0 < howmany →
     (∃ elts, stri__mkStringNA howmany = Some (STRSXP elts)
              ∧ Z.of_nat (length elts) = howmany
              ∧ Forall (λ e, e = NA_STRING) elts)
     ∧ (∃ elts, stri__mkStringEmpty howmany = Some (STRSXP elts)
                ∧ Z.of_nat (length elts) = howmany
                ∧ Forall (λ e, e = mkChar []) elts)).
Proof.
  unfold stri__mkStringNA, stri__mkStringEmpty, allocVector_STRSXP, mkCharLen_empty.
  split; intros Hh.
  - destruct (Z.leb_spec howmany 0); [|lia]. done.
  - destruct (Z.leb_spec howmany 0); [lia|].
    rewrite !fill_loop. simpl.
    split; eexists; (split; [reflexivity|]);
      (split; [rewrite length_replicate; lia | apply Forall_replicate; done]).
Qed.

Lemma mkString_nil_or_filled_witness :
  (stri__mkStringNA 0 = Some R_NilValue
   ∧ stri__mkStringEmpty 0 = Some R_NilValue
   ∧ R_NilValue ≠ STRSXP [])
  ∧ (∃ elts, stri__mkStringNA 3 = Some (STRSXP elts)
             ∧ Z.of_nat (length elts) = 3
             ∧ Forall (λ e, e = NA_STRING) elts)
  ∧ (∃ elts, stri__mkStringEmpty 3 = Some (STRSXP elts)
             ∧ Z.of_nat (length elts) = 3
             ∧ Forall (λ e, e = mkChar []) elts).
Proof.
  split.
  - apply (proj1 (mkString_nil_or_filled 0)). lia.
  - apply (proj2 (mkString_nil_or_filled 3)). lia.
Defined.

(** C7. A call with [width <= 0] ends in the error
    [MSG__EXPECTED_POSITIVE] whatever the strings are: the check precedes
    the loop over the strings, so none is processed and there is no
    result. *)
Theorem stri_wrap_rejects_nonpositive_width {D : Type} `{DoubleOps D}
    (U8_NEXT : list byte → Z → Z → Z * Z)
    (line_boundaries : list byte → option (list Z))
    (str : list (option (list byte))) (width_val : Z) (exponent_val : D) :
  width_val ≤ 0 →
  stri_wrap U8_NEXT line_boundaries str width_val exponent_val
  = Error MSG__EXPECTED_POSITIVE.
Proof.
  intros Hw. unfold stri_wrap. destruct (Z.leb_spec width_val 0); [done|lia].
Qed.

Lemma stri_wrap_rejects_nonpositive_width_witness :
  stri_wrap (D:=Z) u8_next space_boundaries
    [Some (bytes "The quick brown fox jumps"); Some [x61; x0a; x62]] 0 0
  = Error MSG__EXPECTED_POSITIVE.
Proof.
  apply stri_wrap_rejects_nonpositive_width. lia.
Defined.

(** C8. When the segmenter gives fewer than two offsets for a string, the
    iteration for that string ends at once with the original string as its
    single line, whatever the decoder, the width and the exponent are; in
    every result of the whole call that is the string's element. *)
Theorem no_boundaries_single_line {D : Type} `{DoubleOps D}
    (U8_NEXT : list byte → Z → Z → Z * Z)
    (line_boundaries : list byte → option (list Z))
    (width_val : Z) (exponent_val : D)
    (str_cur_s : list byte) (occurences_list : list Z) :
  line_boundaries str_cur_s = Some occurences_list →
  (length occurences_list < 2)%nat →
  wrap_element U8_NEXT line_boundaries width_val exponent_val (Some str_cur_s)
    = Done (STRSXP [mkChar str_cur_s])
  ∧ ∀ str i ret,
      str !! i = Some (Some str_cur_s) →
      stri_wrap U8_NEXT line_boundaries str width_val exponent_val = Done ret →
      ∃ elts, ret = VECSXP elts ∧ elts !! i = Some (STRSXP [mkChar str_cur_s]).
Proof.
  intros Hocc Hlen.
  assert (wrap_element U8_NEXT line_boundaries width_val exponent_val (Some str_cur_s)
          = Done (STRSXP [mkChar str_cur_s])) as Helt.
  { simpl. rewrite Hocc. destruct (Nat.leb_spec (length occurences_list) 1); [done|lia]. }
  split; [done|].
  intros str i ret Hi. unfold stri_wrap.
  destruct (width_val <=? 0); [done|].
  destruct (wrap_elements _ _ _ _ _ _ _) as [elts| | |] eqn:Hloop; simpl; try done.
  intros [= <-]. exists elts. split; [done|].
  apply wrap_elements_spec in Hloop as (_ & _ & Hall).
  destruct (Hall i _ Hi) as (elt & He & Hr).
  rewrite Helt in He. injection He as <-. done.
Qed.

Lemma no_boundaries_single_line_witness :
  wrap_element (D:=Z) u8_next space_boundaries 10 2 (Some [])
    = Done (STRSXP [mkChar []])
  ∧ ∀ str i ret,
      str !! i = Some (Some []) →
      stri_wrap (D:=Z) u8_next space_boundaries str 10 2 = Done ret →
      ∃ elts, ret = VECSXP elts ∧ elts !! i = Some (STRSXP [mkChar []]).
Proof.
  apply (no_boundaries_single_line u8_next space_boundaries 10 2 [] [0]).
  - reflexivity.
  - simpl. lia.
Defined.

(** ** The greedy policy *)

Lemma count_at_lookup (counts : list Z) (k : nat) (x : Z) :
  counts !! k = Some x → count_at counts k = x.
Proof. unfold count_at. by intros ->. Qed.

Lemma lookup_count_at (counts : list Z) (k : nat) :
  (k < length counts)%nat → counts !! k = Some (count_at counts k).
Proof.
  intros Hk. destruct (lookup_lt_is_Some_2 counts k Hk) as [x Hx].
  by rewrite (count_at_lookup _ _ _ Hx).
Qed.

Lemma greedy_step_eq (width_val : Z) (counts_orig counts_trim : list Z) (j : nat)
    (wrap : list nat) :
  (j < length counts_orig)%nat → (j < length counts_trim)%nat → (1 ≤ j)%nat →
  greedy_step width_val counts_orig counts_trim j
    (greedy_cur_len width_val counts_orig counts_trim (j - 1), wrap)
  = Some (greedy_cur_len width_val counts_orig counts_trim j,
          if greedy_breaks_before width_val counts_orig counts_trim j
          then wrap ++ [(j - 1)%nat] else wrap).
Proof.
  intros Ho Ht Hj. unfold greedy_step, greedy_breaks_before.
  rewrite (lookup_count_at counts_trim j Ht), (lookup_count_at counts_orig j Ho).
  simpl. destruct j as [|j]; [lia|]. simpl. rewrite Nat.sub_0_r.
  destruct (_ >? _); done.
Qed.

(** The loop of [stri__wrap_greedy], from [j = 1] up to any [hi]. *)
Lemma greedy_loop (width_val : Z) (counts_orig counts_trim : list Z) (hi : nat)
    (wrap : list nat) :
  (hi ≤ length counts_orig)%nat → (hi ≤ length counts_trim)%nat → (1 ≤ hi)%nat →
  for_loop 1 hi (greedy_step width_val counts_orig counts_trim)
    (count_at counts_orig 0, wrap)
  = Some (greedy_cur_len width_val counts_orig counts_trim (hi - 1),
          wrap ++ map Nat.pred
            (List.filter (greedy_breaks_before width_val counts_orig counts_trim)
               (seq 1 (hi - 1)))).
Proof.
  intros Ho Ht Hhi.
  destruct (for_loop_inv
    (λ k st, st = (greedy_cur_len width_val counts_orig counts_trim (k - 1),
                   wrap ++ map Nat.pred
                     (List.filter (greedy_breaks_before width_val counts_orig counts_trim)
                        (seq 1 (k - 1))))) 1 hi
    (greedy_step width_val counts_orig counts_trim) (count_at counts_orig 0, wrap))
    as (st & Hst & ->); [lia| | |done].
  - simpl. by rewrite app_nil_r.
  - intros k t Hk ->. eexists. split.
    + apply greedy_step_eq; lia.
    + replace (Datatypes.S k - 1)%nat with k by lia. f_equal.
      rewrite (seq_snoc 1 k), List.filter_app, map_app by lia. simpl.
      replace (Datatypes.S (k - 1)) with k by lia.
      destruct (greedy_breaks_before _ _ _ k); simpl.
      * rewrite <- app_assoc. do 3 f_equal. lia.
      * by rewrite app_nil_r.
Qed.

Lemma stri__wrap_greedy_eq (width_val : Z) (counts_orig counts_trim : list Z)
    (wordCount : nat) (wrap : list nat) :
  length counts_orig = wordCount → length counts_trim = wordCount →
  (1 ≤ wordCount)%nat →
  stri__wrap_greedy wrap (wordCount + 1) width_val counts_orig counts_trim
  = Some (wrap ++ map Nat.pred
            (List.filter (greedy_breaks_before width_val counts_orig counts_trim)
               (seq 1 (wordCount - 1)))).
Proof.
  intros Ho Ht Hn. unfold stri__wrap_greedy.
  rewrite (lookup_count_at counts_orig 0) by lia. simpl.
  replace (wordCount + 1 - 1)%nat with wordCount by lia.
  rewrite greedy_loop by lia. done.
Qed.

Lemma greedy_cur_len_nonneg (width_val : Z) (counts_orig counts_trim : list Z) (j : nat) :
  (∀ k, 0 ≤ count_at counts_orig k) →
  0 ≤ greedy_cur_len width_val counts_orig counts_trim j.
Proof.
  intros Hpos. induction j as [|j IH]; simpl; [apply Hpos|].
  destruct (_ >? _); [apply Hpos|]. specialize (Hpos (Datatypes.S j)). lia.
Qed.

Lemma greedy_isolates_overlong (width_val : Z) (counts_orig counts_trim : list Z) (j : nat) :
  (∀ k, 0 ≤ count_at counts_trim k ≤ count_at counts_orig k) →
  width_val < count_at counts_trim j →
  ((1 ≤ j)%nat → greedy_breaks_before width_val counts_orig counts_trim j = true)
  ∧ greedy_breaks_before width_val counts_orig counts_trim (j + 1) = true.
Proof.
  intros Hinv Hlong.
  assert (∀ k, 0 ≤ count_at counts_orig k) as Hpos.
  { intros k. specialize (Hinv k). lia. }
  assert ((1 ≤ j)%nat → greedy_breaks_before width_val counts_orig counts_trim j = true)
    as Hbefore.
  { intros Hj. unfold greedy_breaks_before.
    pose proof (greedy_cur_len_nonneg width_val counts_orig counts_trim (j - 1) Hpos).
    apply Z.gtb_lt. lia. }
  split; [done|].
  unfold greedy_breaks_before. replace (j + 1 - 1)%nat with j by lia.
  apply Z.gtb_lt.
  assert (width_val < greedy_cur_len width_val counts_orig counts_trim j) as Hcur.
  { destruct j as [|j]; simpl.
    - specialize (Hinv 0%nat). lia.
    - specialize (Hbefore ltac:(lia)). unfold greedy_breaks_before in Hbefore.
      simpl in Hbefore. rewrite Nat.sub_0_r in Hbefore. rewrite Hbefore.
      specialize (Hinv (Datatypes.S j)). lia. }
  specialize (Hinv (j + 1)%nat). lia.
Qed.

(** C3 (as amended).  The greedy policy starts from the original width
    of word 0 and visits the words [j = 1 .. wordCount-1], the last word
    included: it emits a break after word [j-1], and restarts the current
    width at the original width of word [j], exactly when the current
    width plus the trimmed width of word [j] exceeds [width]; otherwise it
    adds the original width of word [j].  It always returns a break set,
    and, for counts with [0 <= trimmed <= original], a word whose trimmed
    width alone exceeds [width] gets a line of its own. *)
Theorem greedy_break_rule (width_val : Z) (counts_orig counts_trim : list Z)
    (wordCount : nat) :
  length counts_orig = wordCount → length counts_trim = wordCount →
  (1 ≤ wordCount)%nat →
  ∃ wrap,
    stri__wrap_greedy [] (wordCount + 1) width_val counts_orig counts_trim = Some wrap
    ∧ wrap = map Nat.pred
               (List.filter (greedy_breaks_before width_val counts_orig counts_trim)
                  (seq 1 (wordCount - 1)))
    ∧ ((∀ k, 0 ≤ count_at counts_trim k ≤ count_at counts_orig k) →
       ∀ j, (j < wordCount)%nat → width_val < count_at counts_trim j →
            ((1 ≤ j)%nat → (j - 1)%nat ∈ wrap)
            ∧ ((j + 1 < wordCount)%nat → j ∈ wrap)).
Proof.
  intros Ho Ht Hn. eexists. split; [|split; [reflexivity|]].
  - rewrite (stri__wrap_greedy_eq _ _ _ wordCount) by done. done.
  - intros Hinv j Hj Hlong.
    destruct (greedy_isolates_overlong width_val counts_orig counts_trim j Hinv Hlong)
      as [Hbefore Hafter].
    split; intros Hj'; apply list_elem_of_In, in_map_iff.
    + exists j. split; [lia|]. apply filter_In. split; [apply in_seq; lia|auto].
    + exists (j + 1)%nat. split; [lia|]. apply filter_In. split; [apply in_seq; lia|done].
Qed.

Lemma greedy_break_rule_witness :
  ∃ wrap,
    stri__wrap_greedy [] (3 + 1) 5 [7; 3; 4] [6; 2; 4] = Some wrap
    ∧ wrap = map Nat.pred
               (List.filter (greedy_breaks_before 5 [7; 3; 4] [6; 2; 4]) (seq 1 (3 - 1)))
    ∧ ∀ j, (j < 3)%nat → 5 < count_at [6; 2; 4] j →
           ((1 ≤ j)%nat → (j - 1)%nat ∈ wrap) ∧ ((j + 1 < 3)%nat → j ∈ wrap).
Proof.
  destruct (greedy_break_rule 5 [7; 3; 4] [6; 2; 4] 3) as (wrap & Hwrap & Heq & Hlong);
    [reflexivity|reflexivity|lia|].
  exists wrap. split; [assumption|]. split; [assumption|].
  apply Hlong. intros k.
  do 3 (destruct k as [|k]; [vm_compute; split; discriminate|]).
  vm_compute. split; discriminate.
Defined.

(** C3 as stated fails: with two words, "aaaa " and "bbbbb", and width 7
    the loop bounds of the claim visit no word and give no break, while
    [stri__wrap_greedy] visits the last word and breaks after word 0. *)
Lemma greedy_claimed_bounds_fail :
  stri__wrap_greedy [] 3 7 [5; 5] [4; 5] = Some [0%nat]
  ∧ greedy_as_claimed 7 [5; 5] [4; 5] 2 = Some []
  ∧ stri__wrap_greedy [] 3 7 [5; 5] [4; 5] ≠ greedy_as_claimed 7 [5; 5] [4; 5] 2.
Proof. split; [reflexivity|]. split; [reflexivity|]. discriminate. Qed.

(** ** The cost matrix of the dynamic policy *)

Lemma IDX_lt (n i j : nat) : (i < n)%nat → (j < n)%nat → (IDX n i j < n * n)%nat.
Proof. unfold IDX. nia. Qed.

Lemma IDX_inj (n i j i' j' : nat) :
  (j < n)%nat → (j' < n)%nat → IDX n i j = IDX n i' j' → i = i' ∧ j = j'.
Proof. unfold IDX. intros Hj Hj' Heq. assert (i = i') by nia. subst. split; [done|lia]. Qed.

Lemma zsum_app (l k : list Z) : zsum (l ++ k) = zsum l + zsum k.
Proof. induction l as [|x l IH]; simpl; [done|]. unfold zsum in *. simpl. lia. Qed.

Lemma zsum_take_S (l : list Z) (m : nat) :
  zsum (take (S m) l) = zsum (take m l) + count_at l m.
Proof.
  unfold count_at.
  destruct (l !! m) as [x|] eqn:Hx.
  - rewrite (take_S_r _ _ _ Hx), zsum_app. unfold zsum. simpl. lia.
  - apply lookup_ge_None in Hx. rewrite !take_ge by lia. simpl. lia.
Qed.

Lemma count_at_drop (l : list Z) (i m : nat) :
  count_at (drop i l) m = count_at l (i + m).
Proof. unfold count_at. by rewrite lookup_drop. Qed.

Lemma line_sum_diag (counts_orig counts_trim : list Z) (i : nat) :
  line_sum counts_orig counts_trim i i = count_at counts_trim i.
Proof. unfold line_sum. rewrite Nat.sub_diag. done. Qed.

Lemma line_sum_step (counts_orig counts_trim : list Z) (i j : nat) :
  (i < j)%nat →
  line_sum counts_orig counts_trim i j
  = line_sum counts_orig counts_trim i (j - 1)
    - count_at counts_trim (j - 1) + count_at counts_orig (j - 1) + count_at counts_trim j.
Proof.
  intros Hij. unfold line_sum.
  replace (j - i)%nat with (S (j - 1 - i)) by lia.
  rewrite zsum_take_S, count_at_drop.
  replace (i + (j - 1 - i))%nat with (j - 1)%nat by lia. lia.
Qed.

Lemma blocked_diag (width_val : Z) (counts_orig counts_trim : list Z) (i : nat) :
  blocked width_val counts_orig counts_trim i i = false.
Proof. unfold blocked. rewrite Nat.sub_diag. done. Qed.

Lemma blocked_step (width_val : Z) (counts_orig counts_trim : list Z) (i j : nat) :
  (i < j)%nat →
  blocked width_val counts_orig counts_trim i j
  = blocked width_val counts_orig counts_trim i (j - 1)
    || (line_sum counts_orig counts_trim i j >? width_val).
Proof.
  intros Hij. unfold blocked.
  rewrite (seq_snoc (i + 1) (j - i)) by lia.
  rewrite existsb_app. simpl. rewrite orb_false_r.
  replace (j - i - 1)%nat with (j - 1 - i)%nat by lia.
  replace (i + 1 + (j - 1 - i))%nat with j by lia. done.
Qed.

Section CostMatrix.
Context {D : Type} `{DoubleOps D}.
Variables (width_val : Z) (exponent_val : D) (counts_orig counts_trim : list Z).
Hypothesis laws : SignLaws exponent_val.

Local Abbreviation cell := (cell_value width_val exponent_val counts_orig counts_trim).
Local Abbreviation lsum := (line_sum counts_orig counts_trim).
Local Abbreviation blk := (blocked width_val counts_orig counts_trim).

Lemma cost_of_slack_single_sign (ct : Z) :
  dltb (cost_of_slack exponent_val true ct) (dofZ 0) = false
  ∧ dleb (dofZ 0) (cost_of_slack exponent_val true ct) = true.
Proof.
  destruct laws. unfold cost_of_slack.
  destruct (Z.ltb_spec ct 0); [done|]. split; auto.
Qed.

Lemma cost_of_slack_fit_sign (single : bool) (ct : Z) :
  0 ≤ ct →
  dltb (cost_of_slack exponent_val single ct) (dofZ 0) = false
  ∧ dleb (dofZ 0) (cost_of_slack exponent_val single ct) = true.
Proof.
  intros Hct. destruct laws. unfold cost_of_slack.
  destruct (Z.ltb_spec ct 0); [lia|]. destruct single; split; auto.
Qed.

(** The two sign tests of the source agree on every entry: an entry is
    negative exactly when it is the sentinel of a blocked line. *)
Lemma cell_sign (i j : nat) :
  (i ≤ j)%nat →
  dltb (cell i j) (dofZ 0) = negb (j =? i)%nat && blk i j
  ∧ dleb (dofZ 0) (cell i j) = negb (negb (j =? i)%nat && blk i j).
Proof.
  intros Hij. unfold cell_value, line_cost.
  destruct (Nat.eqb_spec j i) as [->|Hne]; cbn [negb andb].
  - apply cost_of_slack_single_sign.
  - destruct (blk i j) eqn:Hb; cbn [negb].
    + destruct laws. done.
    + apply cost_of_slack_fit_sign.
      rewrite blocked_step in Hb by lia. apply orb_false_elim in Hb as [_ Hb].
      rewrite Z.gtb_ltb in Hb. apply Z.ltb_ge in Hb. lia.
Qed.

Variable n : nat.
Hypothesis len_orig : length counts_orig = n.
Hypothesis len_trim : length counts_trim = n.

Local Abbreviation rinv := (row_inv width_val exponent_val counts_orig counts_trim n).

Lemma row_inv_write (i j : nat) (sum sum' : Z) (cost : list D) :
  (i ≤ j < n)%nat →
  rinv i j (sum, cost) →
  (blk i j = false → sum' = lsum i j) →
  ∃ cost', vec_set cost (IDX n i j) (cell i j) = Some cost'
           ∧ rinv i (S j) (sum', cost').
Proof.
  unfold row_inv. cbn [fst snd].
  intros Hij (Hlen & Hcells & _ & _) Hsum.
  eexists. split.
  { apply vec_set_Some. rewrite Hlen. apply IDX_lt; lia. }
  split; [|split; [|split]].
  - by rewrite length_insert.
  - intros i' j' Hwhich Hrange.
    destruct (decide (i' = i ∧ j' = j)) as [[-> ->]|Hne].
    + apply list_lookup_insert_eq. rewrite Hlen. apply IDX_lt; lia.
    + rewrite list_lookup_insert_ne.
      * apply Hcells; lia.
      * intros Heq. apply IDX_inj in Heq; lia.
  - lia.
  - intros _. replace (S j - 1)%nat with j by lia. done.
Qed.

(** The entry computed from the running sum, once the sum is right. *)
Lemma fill_value (i j : nat) :
  (i ≤ j)%nat →
  ((i < j)%nat → blk i (j - 1) = false) →
  (if (j =? i)%nat
   then (if width_val - lsum i j <? 0 then dofZ 0
         else dpow (dofZ (width_val - lsum i j)) exponent_val)
   else (if width_val - lsum i j <? 0 then dofZ (-1)
         else dpow (dofZ (width_val - lsum i j)) exponent_val))
  = cell i j.
Proof.
  intros Hij Hb. unfold cell_value, line_cost, cost_of_slack.
  destruct (Nat.eqb_spec j i) as [->|Hne]; cbn [negb andb]; [done|].
  rewrite blocked_step, Hb by lia. cbn [orb]. rewrite Z.gtb_ltb.
  destruct (Z.ltb_spec width_val (lsum i j)), (Z.ltb_spec (width_val - lsum i j) 0);
    done || lia.
Qed.

Lemma cost_fill_step (i j : nat) (sum : Z) (cost : list D) :
  (i ≤ j < n)%nat →
  rinv i j (sum, cost) →
  ((i < j)%nat → blk i (j - 1) = false) →
  ∀ sum0, sum0 + count_at counts_trim j = lsum i j →
  ∃ st', cost_fill width_val exponent_val counts_trim n i j sum0 cost = Some st'
         ∧ rinv i (S j) st'.
Proof.
  intros Hij Hinv Hb sum0 Hsum0. unfold cost_fill.
  rewrite lookup_count_at by lia. cbn [mbind option_bind].
  rewrite Hsum0, (fill_value i j) by (done || lia).
  destruct (row_inv_write i j sum (lsum i j) cost Hij Hinv) as (c & -> & Hc); [done|].
  cbn [mbind option_bind]. eauto.
Qed.

Lemma cost_cell_step (i j : nat) (st : Z * list D) :
  (i ≤ j < n)%nat →
  rinv i j st →
  ∃ st', cost_cell width_val exponent_val counts_orig counts_trim n i j st = Some st'
         ∧ rinv i (S j) st'.
Proof.
  intros Hij Hinv. destruct st as [sum cost].
  pose proof Hinv as (Hlen & Hcells & Hsum0 & Hsum). cbn [fst snd] in *.
  unfold cost_cell.
  destruct (Nat.ltb_spec i j) as [Hlt|Hge].
  - (* j > i *)
    rewrite (Hcells i (j - 1)%nat) by lia. cbn [mbind option_bind].
    destruct (cell_sign i (j - 1)) as [Hneg _]; [lia|]. rewrite Hneg.
    destruct (negb (j - 1 =? i)%nat && blk i (j - 1)) eqn:Hprev.
    + (* an earlier line was too wide: the sentinel is copied on *)
      apply andb_prop in Hprev as [_ Hb].
      replace (dofZ (-1)) with (cell i j).
      { destruct (row_inv_write i j sum sum cost Hij Hinv) as (c & -> & Hc).
        - rewrite blocked_step, Hb by done. done.
        - cbn [mbind option_bind]. eauto. }
      unfold cell_value. destruct (Nat.eqb_spec j i); [lia|]. cbn [negb andb].
      rewrite blocked_step, Hb by done. done.
    + assert (blk i (j - 1) = false) as Hb.
      { destruct (Nat.eqb_spec (j - 1) i) as [->|_]; [apply blocked_diag|done]. }
      rewrite !lookup_count_at by lia. cbn [mbind option_bind].
      apply (cost_fill_step i j sum cost Hij Hinv); [done|].
      rewrite (Hsum Hlt Hb), (line_sum_step _ _ i j) by done. lia.
  - (* j = i *)
    assert (j = i) as -> by lia.
    apply (cost_fill_step i i sum cost Hij Hinv); [lia|].
    rewrite (Hsum0 eq_refl), line_sum_diag. lia.
Qed.

Lemma cost_row_step (i : nat) (cost : list D) :
  (i < n)%nat →
  rinv i i (0, cost) →
  ∃ cost', cost_row width_val exponent_val counts_orig counts_trim n i cost = Some cost'
           ∧ rinv (S i) (S i) (0, cost').
Proof.
  intros Hi Hinv. unfold cost_row.
  destruct (for_loop_inv (λ j st, rinv i j st) i n
    (cost_cell width_val exponent_val counts_orig counts_trim n i) (0, cost))
    as (st & -> & Hst); [lia|done| |].
  - intros k t Hk Ht. apply cost_cell_step; [lia|done].
  - cbn [mbind option_bind]. eexists. split; [done|].
    destruct Hst as (Hlen & Hcells & _ & _).
    split; [done|]. split; [|split]; cbn [fst snd]; [|done|lia].
    intros i' j' Hwhich Hrange. apply Hcells; lia.
Qed.

(** The first loop nest of [stri__wrap_dynamic]: it completes and leaves
    [cell i j] in [cost[IDX(i,j)]] for all [i <= j < n]. *)
Lemma cost_matrix_spec :
  ∃ cost, cost_matrix width_val exponent_val counts_orig counts_trim n = Some cost
          ∧ length cost = (n * n)%nat
          ∧ ∀ i j, (i ≤ j < n)%nat → cost !! IDX n i j = Some (cell i j).
Proof.
  unfold cost_matrix.
  destruct (for_loop_inv (λ i cost, rinv i i (0, cost)) 0 n
    (cost_row width_val exponent_val counts_orig counts_trim n)
    (replicate (n * n) (dofZ 0))) as (cost & -> & Hcost); [lia| | |].
  - split; [|split; [|split]]; cbn [fst snd]; [|lia|done|lia].
    by rewrite length_replicate.
  - intros k t Hk Ht. apply cost_row_step; [lia|done].
  - exists cost. destruct Hcost as (Hlen & Hcells & _ & _). cbn [fst snd] in *.
    split; [done|]. split; [done|]. intros i j Hij. apply Hcells; lia.
Qed.
End CostMatrix.

(** Under the invariant of the data model, [0 <= trimmed <= original],
    a line that is too wide stays too wide when words are added. *)
Lemma line_sum_mono (counts_orig counts_trim : list Z) (i j j' : nat) :
  (∀ k, 0 ≤ count_at counts_trim k ≤ count_at counts_orig k) →
  (i ≤ j ≤ j')%nat →
  line_sum counts_orig counts_trim i j ≤ line_sum counts_orig counts_trim i j'.
Proof.
  intros Hinv [Hij Hjj]. induction j' as [|j' IH]; [by replace j with 0%nat by lia|].
  destruct (decide (j = S j')) as [->|Hne]; [lia|].
  rewrite (line_sum_step _ _ i (S j')) by lia.
  replace (S j' - 1)%nat with j' by lia.
  pose proof (Hinv j'). pose proof (Hinv (S j')). lia.
Qed.

Lemma blocked_too_wide (width_val : Z) (counts_orig counts_trim : list Z) (i j : nat) :
  (∀ k, 0 ≤ count_at counts_trim k ≤ count_at counts_orig k) →
  (i < j)%nat →
  blocked width_val counts_orig counts_trim i j
  = (line_sum counts_orig counts_trim i j >? width_val).
Proof.
  intros Hinv Hij. induction j as [|j IH]; [lia|].
  rewrite blocked_step by lia. replace (S j - 1)%nat with j by lia.
  destruct (decide (i = j)) as [->|Hne]; [by rewrite blocked_diag|].
  rewrite IH by lia.
  pose proof (line_sum_mono counts_orig counts_trim i j (S j) Hinv ltac:(lia)).
  destruct (Z.gtb_spec (line_sum counts_orig counts_trim i j) width_val),
           (Z.gtb_spec (line_sum counts_orig counts_trim i (S j)) width_val);
    done || lia.
Qed.

Lemma cell_value_line_cost {D : Type} `{DoubleOps D} (width_val : Z) (exponent_val : D)
    (counts_orig counts_trim : list Z) (i j : nat) :
  (∀ k, 0 ≤ count_at counts_trim k ≤ count_at counts_orig k) →
  (i ≤ j)%nat →
  cell_value width_val exponent_val counts_orig counts_trim i j
  = line_cost width_val exponent_val counts_orig counts_trim i j.
Proof.
  intros Hinv Hij. unfold cell_value.
  destruct (Nat.eqb_spec j i) as [->|Hne]; cbn [negb andb]; [done|].
  rewrite blocked_too_wide by (done || lia).
  unfold line_cost, cost_of_slack.
  destruct (Nat.eqb_spec j i); [lia|]. rewrite Z.gtb_ltb.
  destruct (Z.ltb_spec width_val (line_sum counts_orig counts_trim i j)),
           (Z.ltb_spec (width_val - line_sum counts_orig counts_trim i j) 0);
    done || lia.
Qed.

(** [SignLaws] hold in exact integer arithmetic for any exponent. *)
Lemma ZDouble_laws (exponent_val : Z) : SignLaws (D:=Z) exponent_val.
Proof.
  split; try done.
  - intros ct Hct. apply Z.ltb_ge. simpl. apply Z.pow_nonneg. done.
  - intros ct Hct. apply Z.leb_le. simpl. apply Z.pow_nonneg. done.
Qed.

(** C1 (as amended).  For counts with [0 <= trimmed <= original], the
    first loop nest of [stri__wrap_dynamic] completes, and the cost it
    stores for the line of words [i..j], [i < j], comes from the sum of the
    original widths of words [i..j-1] plus the trimmed width of word [j]:
    the sentinel [-1.0] when that sum exceeds [width], and otherwise
    [pow(width - sum, exponent)].  A single word [i == j] never gets the
    sentinel: its cost is [0.0] when its trimmed width exceeds [width] and
    [pow(width - trimmed width, exponent)] otherwise. *)
Theorem dynamic_cost_entries {D : Type} `{DoubleOps D} (width_val : Z) (exponent_val : D)
    (counts_orig counts_trim : list Z) (n : nat) :
  SignLaws exponent_val →
  length counts_orig = n → length counts_trim = n →
  (∀ k, 0 ≤ count_at counts_trim k ≤ count_at counts_orig k) →
  ∃ cost,
    cost_matrix width_val exponent_val counts_orig counts_trim n = Some cost
    ∧ ∀ i j, (i ≤ j < n)%nat →
        let sum := zsum (take (j - i) (drop i counts_orig)) + count_at counts_trim j in
        cost !! IDX n i j
        = Some (if (j =? i)%nat
                then (if sum >? width_val then dofZ 0
                      else dpow (dofZ (width_val - sum)) exponent_val)
                else (if sum >? width_val then dofZ (-1)
                      else dpow (dofZ (width_val - sum)) exponent_val)).
Proof.
  intros Hlaws Ho Ht Hinv.
  destruct (cost_matrix_spec width_val exponent_val counts_orig counts_trim Hlaws n Ho Ht)
    as (cost & Hcost & _ & Hcells).
  exists cost. split; [done|]. intros i j Hij sum.
  rewrite (Hcells i j Hij), cell_value_line_cost by (done || lia).
  unfold line_cost, cost_of_slack.
  change (line_sum counts_orig counts_trim i j) with sum.
  rewrite Z.gtb_ltb.
  destruct (Z.ltb_spec width_val sum), (Z.ltb_spec (width_val - sum) 0); done || lia.
Qed.

Lemma dynamic_cost_entries_witness :
  ∃ cost,
    cost_matrix (D:=Z) 10 2 [4; 6; 6; 4; 5] [3; 5; 5; 3; 5] 5 = Some cost
    ∧ ∀ i j, (i ≤ j < 5)%nat →
        let sum := zsum (take (j - i) (drop i [4; 6; 6; 4; 5]))
                   + count_at [3; 5; 5; 3; 5] j in
        cost !! IDX 5 i j
        = Some (if (j =? i)%nat
                then (if sum >? 10 then dofZ 0 else dpow (dofZ (10 - sum)) 2)
                else (if sum >? 10 then dofZ (-1) else dpow (dofZ (10 - sum)) 2)).
Proof.
  apply (dynamic_cost_entries (D:=Z) 10 2 [4; 6; 6; 4; 5] [3; 5; 5; 3; 5] 5).
  - apply ZDouble_laws.
  - reflexivity.
  - reflexivity.
  - intros k. do 5 (destruct k as [|k]; [vm_compute; split; discriminate|]).
    vm_compute. split; discriminate.
Defined.

(** C1 as stated fails: for the words "aa" followed by two blanks
    (original width 4, trimmed width 2) and "bb", and width 5, the sum of
    the claim for the line of both words is 2 + 2 = 4, a cost of
    [pow(1, exponent)], while the source adds 4 + 2 = 6 and stores the
    sentinel. *)
Lemma claimed_cost_fails :
  (cost ← cost_matrix (D:=Z) 5 1 [4; 2] [2; 2] 2; cost !! IDX 2 0 1) = Some (-1)
  ∧ claimed_line_cost (D:=Z) 5 1 [4; 2] [2; 2] 0 1 = 1
  ∧ (cost ← cost_matrix (D:=Z) 5 1 [4; 2] [2; 2] 2; cost !! IDX 2 0 1)
    ≠ Some (claimed_line_cost (D:=Z) 5 1 [4; 2] [2; 2] 0 1).
Proof. split; [reflexivity|]. split; [reflexivity|]. discriminate. Qed.

(** ** The second loop nest of the dynamic policy *)

Lemma is_line_ext (brk brk' : nat → Prop) (last a b : nat) :
  (∀ k, (k ≤ last)%nat → brk k ↔ brk' k) →
  is_line brk last a b → is_line brk' last a b.
Proof.
  intros Hext (Hab & Ha & Hb & Hno). split; [done|]. split; [|split].
  - destruct Ha as [->|[Ha1 Ha]]; [by left|]. right. split; [done|]. apply Hext; [lia|done].
  - destruct Hb as [->|Hb]; [by left|]. right. apply Hext; [lia|done].
  - intros k Hk Hbrk. apply (Hno k Hk). apply Hext; [lia|done].
Qed.

(** A column without breaks is the single line [0..j]. *)
Lemma lines_fit_no_break (width_val : Z) (counts_orig counts_trim : list Z)
    (brk : nat → Prop) (j : nat) :
  (∀ k, (k ≤ j)%nat → ¬ brk k) → fits width_val counts_orig counts_trim 0 j →
  lines_fit width_val counts_orig counts_trim brk j.
Proof.
  intros Hno Hfit a b (Hab & Ha & Hb & _).
  destruct Ha as [->|[_ Ha]]; [|by apply Hno in Ha; [|lia]].
  destruct Hb as [->|Hb]; [done|]. by apply Hno in Hb; [|lia].
Qed.

(** A column that takes the breaks of column [i] below [i], breaks after
    [i] and nowhere else lays out [0..i] as column [i] does and adds the
    line [i+1..j]. *)
Lemma lines_fit_extend (width_val : Z) (counts_orig counts_trim : list Z)
    (brk_i brk_j : nat → Prop) (i j : nat) :
  (i < j)%nat →
  lines_fit width_val counts_orig counts_trim brk_i i →
  brk_j i →
  (∀ k, (k < i)%nat → brk_j k ↔ brk_i k) →
  (∀ k, (i < k ≤ j)%nat → ¬ brk_j k) →
  fits width_val counts_orig counts_trim (i + 1) j →
  lines_fit width_val counts_orig counts_trim brk_j j.
Proof.
  intros Hij Hcol Hi Hlow Hhigh Hfit a b (Hab & Ha & Hb & Hno).
  destruct (decide (b ≤ i)%nat) as [Hbi|Hbi].
  - apply Hcol. split; [lia|]. split; [|split].
    + destruct Ha as [->|[Ha1 Ha]]; [by left|]. right. split; [done|].
      apply Hlow; [lia|done].
    + destruct (decide (b = i)) as [->|Hne]; [by left|]. right.
      destruct Hb as [->|Hb]; [lia|]. apply Hlow; [lia|done].
    + intros k Hk Hbrk. apply (Hno k Hk). apply Hlow; [lia|done].
  - assert (i < a)%nat as Hia.
    { destruct (decide (i < a)%nat); [done|]. exfalso. apply (Hno i); [lia|done]. }
    assert (a = i + 1)%nat as ->.
    { destruct Ha as [->|[_ Ha]]; [lia|].
      destruct (decide (a - 1 = i)%nat); [lia|]. exfalso.
      apply (Hhigh (a - 1)%nat); [lia|done]. }
    assert (b = j) as ->.
    { destruct Hb as [->|Hb]; [done|]. exfalso. apply (Hhigh b); [lia|done]. }
    done.
Qed.

(** The last line of a layout has one possible first word. *)
Lemma is_line_last_unique (brk : nat → Prop) (last a a' : nat) :
  is_line brk last a last → is_line brk last a' last → a = a'.
Proof.
  intros (Hab & Ha & _ & Hno) (Hab' & Ha' & _ & Hno').
  destruct (Nat.lt_trichotomy a a') as [Hlt|[->|Hlt]]; [|done|]; exfalso.
  - destruct Ha' as [->|[_ Ha']]; [lia|]. apply (Hno (a' - 1)%nat); [lia|done].
  - destruct Ha as [->|[_ Ha]]; [lia|]. apply (Hno' (a - 1)%nat); [lia|done].
Qed.

Section PlanColumns.
Context {D : Type} `{DoubleOps D}.
Variables (width_val : Z) (exponent_val : D) (counts_orig counts_trim : list Z).
Variable n : nat.
Variable cost : list D.
Hypothesis laws : SignLaws exponent_val.
Hypothesis cost_cells : ∀ i j, (i ≤ j < n)%nat →
  cost !! IDX n i j = Some (cell_value width_val exponent_val counts_orig counts_trim i j).

Local Abbreviation cell := (cell_value width_val exponent_val counts_orig counts_trim).
Local Abbreviation pinv := (plan_inv (D:=D) width_val counts_orig counts_trim n).
Local Abbreviation fit := (fits width_val counts_orig counts_trim).

Lemma cell_nonneg_fits (i j : nat) :
  (i ≤ j)%nat → dleb (dofZ 0) (cell i j) = true → fit i j.
Proof.
  intros Hij Hc.
  destruct (cell_sign width_val exponent_val counts_orig counts_trim laws i j Hij)
    as [_ Hge].
  rewrite Hge in Hc. apply negb_true_iff, andb_false_iff in Hc as [Hc|Hc].
  - left. apply negb_false_iff, Nat.eqb_eq in Hc. done.
  - destruct (decide (i = j)) as [->|Hne]; [by left|]. right.
    rewrite blocked_step in Hc by lia. apply orb_false_elim in Hc as [_ Hc].
    rewrite Z.gtb_ltb in Hc. apply Z.ltb_ge in Hc. done.
Qed.

Lemma cell_diag_nonneg (j : nat) : dleb (dofZ 0) (cell j j) = true.
Proof.
  destruct (cell_sign width_val exponent_val counts_orig counts_trim laws j j) as [_ ->];
    [lia|].
  by rewrite Nat.eqb_refl.
Qed.

Lemma cell_not_neg_nonneg (i j : nat) :
  (i ≤ j)%nat → dltb (cell i j) (dofZ 0) = false → dleb (dofZ 0) (cell i j) = true.
Proof.
  intros Hij Hc.
  destruct (cell_sign width_val exponent_val counts_orig counts_trim laws i j Hij)
    as [Hlt ->].
  rewrite Hlt in Hc. by rewrite Hc.
Qed.

(** The [while] loop stops at some [i < j] with a line [i+1..j] that is
    not the sentinel, because the single word [j] never is. *)
Lemma first_fit_spec (j rem i : nat) :
  (j < n)%nat → (i + rem = j + 1)%nat → (i < j)%nat →
  ∃ i', first_fit n cost j rem i = Some i'
        ∧ (i ≤ i' < j)%nat ∧ dleb (dofZ 0) (cell (i' + 1) j) = true.
Proof.
  intros Hj. revert i. induction rem as [|rem IH]; intros i Hrem Hi; [lia|].
  simpl. rewrite cost_cells by lia. cbn [mbind option_bind].
  destruct (dleb (dofZ 0) (cell (i + 1) j)) eqn:Hc.
  - exists i. split; [done|]. split; [lia|done].
  - assert (i + 1 ≠ j)%nat as Hne.
    { intros Heq. rewrite Heq, cell_diag_nonneg in Hc. done. }
    destruct (IH (S i)) as (i' & Hi' & Hrange & Hfit); [lia|lia|].
    exists i'. split; [done|]. split; [lia|done].
Qed.

Lemma improve_loop_spec (f : list D) (j i0 : nat) (best0 : D) :
  length f = n → (j < n)%nat → (i0 < j)%nat →
  dleb (dofZ 0) (cell (i0 + 1) j) = true →
  ∃ bi, for_loop (i0 + 1) j (improve n cost f j) (best0, i0) = Some bi
        ∧ (i0 ≤ bi.2 < j)%nat ∧ dleb (dofZ 0) (cell (bi.2 + 1) j) = true.
Proof.
  intros Hf Hj Hi0 Hc0.
  destruct (for_loop_inv
    (λ (k : nat) (bi : D * nat),
       (i0 ≤ bi.2 < j)%nat ∧ dleb (dofZ 0) (cell (bi.2 + 1) j) = true)
    (i0 + 1) j (improve n cost f j) (best0, i0)) as (bi & Hbi & Hinv); [lia| | |eauto].
  - cbn [snd]. split; [lia|done].
  - intros k [best i] Hk [Hi Hc]. cbn [snd] in *. unfold improve.
    rewrite cost_cells by lia. cbn [mbind option_bind].
    destruct (dltb (cell (k + 1) j) (dofZ 0)) eqn:Hneg; [eauto|].
    destruct (lookup_lt_is_Some_2 f k) as [fk ->]; [lia|]. cbn [mbind option_bind].
    destruct (dltb _ best); eexists; (split; [done|]); cbn [snd]; [|done].
    split; [lia|]. apply cell_not_neg_nonneg; [lia|done].
Qed.

Lemma copy_loop_spec (where_ : list bool) (i j : nat) :
  length where_ = (n * n)%nat → (i < j < n)%nat →
  ∃ w, for_loop 0 i (copy_where n i j) where_ = Some w
       ∧ length w = (n * n)%nat
       ∧ ∀ k j', (k < n)%nat → (j' < n)%nat →
           w !! IDX n k j'
           = if decide (j' = j ∧ k < i)%nat then where_ !! IDX n k i
             else where_ !! IDX n k j'.
Proof.
  intros Hlen Hij.
  destruct (for_loop_inv
    (λ (m : nat) (w : list bool),
       length w = (n * n)%nat
       ∧ ∀ k j', (k < n)%nat → (j' < n)%nat →
           w !! IDX n k j'
           = if decide (j' = j ∧ k < m)%nat then where_ !! IDX n k i
             else where_ !! IDX n k j')
    0 i (copy_where n i j) where_) as (w & Hw & Hinv); [lia| | |eauto].
  - split; [done|]. intros k j' Hk Hj'. destruct (decide _); [lia|done].
  - intros m w Hm [Hwlen Hw]. unfold copy_where.
    rewrite Hw by lia. destruct (decide _) as [?|_]; [lia|].
    destruct (lookup_lt_is_Some_2 where_ (IDX n m i)) as [b Hb].
    { rewrite Hlen. apply IDX_lt; lia. }
    rewrite Hb. cbn [mbind option_bind].
    rewrite vec_set_Some by (rewrite Hwlen; apply IDX_lt; lia).
    eexists. split; [done|]. split; [by rewrite length_insert|].
    intros k j' Hk Hj'.
    destruct (decide (k = m ∧ j' = j)) as [[-> ->]|Hne].
    + rewrite list_lookup_insert_eq by (rewrite Hwlen; apply IDX_lt; lia).
      destruct (decide _); [done|lia].
    + rewrite list_lookup_insert_ne by (intros Heq; apply IDX_inj in Heq; lia).
      rewrite Hw by done.
      destruct (decide (j' = j ∧ k < m)%nat), (decide (j' = j ∧ k < S m)%nat);
        done || lia.
Qed.
Lemma plan_column_step (j : nat) (st : list D * list bool) :
  (j < n)%nat → pinv j st →
  ∃ st', plan_column n cost j st = Some st' ∧ pinv (S j) st'.
Proof.
  intros Hj Hinv. destruct st as [f where_].
  pose proof Hinv as (Hf & Hw & Hcells & Hfit). cbn [fst snd] in *.
  assert (∀ k, (k < n)%nat → ¬ breaks_at n where_ j k) as Hcolj.
  { intros k Hk Hbrk. destruct (Hcells k j Hk Hj) as (b & Hb & Hrange).
    unfold breaks_at in Hbrk. rewrite Hb in Hbrk. injection Hbrk as ->.
    specialize (Hrange eq_refl). lia. }
  unfold plan_column. rewrite cost_cells by lia. cbn [mbind option_bind].
  destruct (dleb (dofZ 0) (cell 0 j)) eqn:Hc0.
  - (* words 0..j on one line *)
    rewrite vec_set_Some by lia. cbn [mbind option_bind].
    eexists. split; [done|]. split; [|split; [|split]]; cbn [fst snd].
    + by rewrite length_insert.
    + done.
    + intros k j' Hk Hj'. destruct (Hcells k j' Hk Hj') as (b & Hb & Hrange).
      exists b. split; [done|]. intros Hbt. specialize (Hrange Hbt). lia.
    + intros j' Hj'. destruct (decide (j' = j)) as [->|Hne]; [|apply Hfit; lia].
      apply lines_fit_no_break.
      * intros k Hk. apply Hcolj. lia.
      * apply cell_nonneg_fits; [lia|done].
  - (* a break is needed *)
    assert (0 < j)%nat as Hj0.
    { destruct j; [|lia]. rewrite cell_diag_nonneg in Hc0. done. }
    destruct (first_fit_spec j (j + 1) 0) as (i0 & -> & Hi0 & Hci0); [lia|lia|lia|].
    cbn [mbind option_bind].
    destruct (lookup_lt_is_Some_2 f 0) as [f0 ->]; [lia|]. cbn [mbind option_bind].
    rewrite cost_cells by lia. cbn [mbind option_bind].
    destruct (improve_loop_spec f j i0 (dadd f0 (cell (i0 + 1) j)))
      as ([best i] & -> & Hi & Hci); [done|lia|lia|done|].
    cbn [fst snd mbind option_bind] in *.
    destruct (copy_loop_spec where_ i j) as (w1 & -> & Hw1 & Hcopy); [done|lia|].
    cbn [mbind option_bind].
    rewrite (vec_set_Some w1) by (rewrite Hw1; apply IDX_lt; lia).
    cbn [mbind option_bind].
    rewrite (vec_set_Some f) by lia. cbn [mbind option_bind].
    (* the entries of the new [where] *)
    assert (∀ k j', (k < n)%nat → (j' < n)%nat →
              <[IDX n i j:=true]> w1 !! IDX n k j'
              = if decide (k = i ∧ j' = j) then Some true
                else if decide (j' = j ∧ k < i)%nat then where_ !! IDX n k i
                else where_ !! IDX n k j') as Hnew.
    { intros k j' Hk Hj'. destruct (decide (k = i ∧ j' = j)) as [[-> ->]|Hne].
      - apply list_lookup_insert_eq. rewrite Hw1. apply IDX_lt; lia.
      - rewrite list_lookup_insert_ne by (intros Heq; apply IDX_inj in Heq; lia).
        by apply Hcopy. }
    eexists. split; [done|]. split; [|split; [|split]]; cbn [fst snd].
    + by rewrite length_insert.
    + by rewrite length_insert.
    + intros k j' Hk Hj'. rewrite Hnew by done.
      destruct (decide (k = i ∧ j' = j)) as [[-> ->]|_].
      { exists true. split; [done|]. lia. }
      destruct (decide (j' = j ∧ k < i)%nat) as [[-> Hki]|_].
      { destruct (Hcells k i Hk) as (b & Hb & Hrange); [lia|].
        exists b. split; [done|]. intros Hbt. specialize (Hrange Hbt). lia. }
      destruct (Hcells k j' Hk Hj') as (b & Hb & Hrange).
      exists b. split; [done|]. intros Hbt. specialize (Hrange Hbt). lia.
    + intros j' Hj'. destruct (decide (j' = j)) as [->|Hne].
      * apply (lines_fit_extend _ _ _ (breaks_at n where_ i) _ i j).
        -- lia.
        -- apply Hfit. lia.
        -- unfold breaks_at. rewrite Hnew by lia. destruct (decide _); [done|lia].
        -- intros k Hk. unfold breaks_at. rewrite Hnew by lia.
           destruct (decide (k = i ∧ j = j)); [lia|].
           destruct (decide (j = j ∧ k < i)%nat); [done|lia].
        -- intros k Hk. unfold breaks_at. rewrite Hnew by lia.
           destruct (decide (k = i ∧ j = j)); [lia|].
           destruct (decide (j = j ∧ k < i)%nat); [lia|].
           apply Hcolj. lia.
        -- apply cell_nonneg_fits; [lia|done].
      * intros a b Hline. apply (Hfit j'); [lia|].
        apply (is_line_ext (breaks_at n (<[IDX n i j:=true]> w1) j')); [|done].
        intros k Hk. unfold breaks_at. rewrite Hnew by lia.
        destruct (decide (k = i ∧ j' = j)); [lia|].
        destruct (decide (j' = j ∧ k < i)%nat); [lia|done].
Qed.

(** The second loop nest completes; in the last column of [where] every
    break lies before the last word and every line fits. *)
Lemma plan_columns_spec :
  ∃ st, plan_columns n cost = Some st ∧ pinv n st.
Proof.
  unfold plan_columns.
  destruct (for_loop_inv (λ j st, pinv j st) 0 n (plan_column n cost)
    (replicate n (dofZ 0), replicate (n * n) false)) as (st & Hst & Hinv);
    [lia| | |eauto].
  - split; [|split; [|split]]; cbn [fst snd].
    + by rewrite length_replicate.
    + by rewrite length_replicate.
    + intros k j' Hk Hj'. exists false. split; [|done].
      apply lookup_replicate_2. apply IDX_lt; lia.
    + intros j' Hj'. lia.
  - intros k t Hk Ht. apply plan_column_step; [lia|done].
Qed.
End PlanColumns.

(** ** Break sets *)

Lemma strictly_increasing_nil : strictly_increasing [].
Proof. intros a b x y _ Hx. done. Qed.

Lemma strictly_increasing_snoc (l : list nat) (x : nat) :
  strictly_increasing l → (∀ y, y ∈ l → (y < x)%nat) →
  strictly_increasing (l ++ [x]).
Proof.
  intros Hl Hx a b u v Hab Hu Hv.
  assert (b < length (l ++ [x]))%nat as Hb by (by apply lookup_lt_Some in Hv).
  rewrite length_app in Hb. simpl in Hb.
  rewrite lookup_app_l in Hu by lia.
  destruct (decide (b < length l)%nat) as [Hbl|Hbl].
  - rewrite lookup_app_l in Hv by lia. by apply (Hl a b).
  - rewrite lookup_app_r in Hv by lia.
    replace (b - length l)%nat with 0%nat in Hv by lia. injection Hv as <-.
    apply Hx. by apply list_elem_of_lookup_2 in Hu.
Qed.

Lemma strictly_increasing_cons_inv (w : nat) (l : list nat) :
  strictly_increasing (w :: l) →
  strictly_increasing l ∧ ∀ y, y ∈ l → (w < y)%nat.
Proof.
  intros Hwl. split.
  - intros a b x y Hab Hx Hy. apply (Hwl (S a) (S b)); [lia|done|done].
  - intros y Hy. apply list_elem_of_lookup_1 in Hy as [i Hi].
    apply (Hwl 0%nat (S i)); [lia|done|done].
Qed.

(** The lines the driver walks are the lines of the layout. *)
Lemma line_ranges_is_line (last first : nat) (l : list nat) (a b : nat) :
  strictly_increasing l →
  (∀ k, k ∈ l → (first ≤ k < last)%nat) → (first ≤ last)%nat →
  (a, b) ∈ line_ranges first (l ++ [last]) →
  (first ≤ a ≤ b)%nat ∧ (b ≤ last)%nat
  ∧ (a = first ∨ ((1 ≤ a)%nat ∧ (a - 1)%nat ∈ l))
  ∧ (b = last ∨ b ∈ l)
  ∧ ∀ k, (a ≤ k < b)%nat → k ∉ l.
Proof.
  revert first. induction l as [|w l IH]; intros first Hsi Hrange Hfl Hin; simpl in Hin.
  - apply list_elem_of_singleton in Hin. injection Hin as -> ->.
    split; [lia|]. split; [lia|]. split; [by left|]. split; [by left|].
    intros k _ Hk. by apply not_elem_of_nil in Hk.
  - apply strictly_increasing_cons_inv in Hsi as [Hsi Hw].
    assert (first ≤ w < last)%nat as Hwr by (apply Hrange; left).
    apply elem_of_cons in Hin as [Hin|Hin].
    + injection Hin as -> ->.
      split; [lia|]. split; [lia|]. split; [by left|]. split; [right; left|].
      intros k Hk Hkl. apply elem_of_cons in Hkl as [->|Hkl]; [lia|].
      apply Hw in Hkl. lia.
    + destruct (IH (S w) Hsi) as (Hab & Hbl & Ha & Hb & Hno); [|lia|done|].
      { intros k Hk. pose proof (Hw k Hk). pose proof (Hrange k ltac:(by right)). lia. }
      split; [lia|]. split; [done|]. split; [|split].
      * right. split; [lia|]. destruct Ha as [->|[_ Ha]].
        -- replace (S w - 1)%nat with w by lia. left.
        -- by right.
      * destruct Hb as [->|Hb]; [by left|]. right. by right.
      * intros k Hk Hkl. apply elem_of_cons in Hkl as [->|Hkl]; [lia|].
        by apply (Hno k).
Qed.

Lemma line_ranges_fit (width_val : Z) (counts_orig counts_trim : list Z)
    (last : nat) (wrap : list nat) (a b : nat) :
  strictly_increasing wrap →
  (∀ k, k ∈ wrap → (k < last)%nat) →
  lines_fit width_val counts_orig counts_trim (λ k, k ∈ wrap) last →
  (a, b) ∈ line_ranges 0 (wrap ++ [last]) →
  (a ≤ b ≤ last)%nat ∧ fits width_val counts_orig counts_trim a b.
Proof.
  intros Hsi Hrange Hfit Hin.
  destruct (line_ranges_is_line last 0 wrap a b) as (Hab & Hbl & Ha & Hb & Hno);
    [done| |lia|done|].
  { intros k Hk. apply Hrange in Hk. lia. }
  split; [lia|]. apply Hfit. split; [lia|]. done.
Qed.

(** ** The layouts of the two policies *)

Lemma zsum_take_1 (l : list Z) (k : nat) :
  zsum (take 1 (drop k l)) = count_at l k.
Proof. rewrite zsum_take_S, count_at_drop, Nat.add_0_r. simpl. lia. Qed.

Lemma greedy_step_inv (width_val : Z) (counts_orig counts_trim : list Z)
    (k : nat) (st : Z * list nat) :
  (1 ≤ k)%nat → (k < length counts_orig)%nat → (k < length counts_trim)%nat →
  greedy_inv width_val counts_orig counts_trim k st →
  ∃ st', greedy_step width_val counts_orig counts_trim k st = Some st'
         ∧ greedy_inv width_val counts_orig counts_trim (S k) st'.
Proof.
  intros Hk Ho Ht. destruct st as [cur_len wrap].
  intros (Hsi & Hbound & Hfit & a & Hlast & Hcur). cbn [fst snd] in *.
  unfold greedy_step.
  rewrite (lookup_count_at counts_trim k Ht), (lookup_count_at counts_orig k Ho).
  cbn [mbind option_bind].
  destruct (Z.gtb_spec (cur_len + count_at counts_trim k) width_val) as [Hwide|Hok];
    eexists; (split; [done|]); unfold greedy_inv; cbn [fst snd];
    replace (S k - 1)%nat with k by lia; (split; [|split; [|split]]).
  - apply strictly_increasing_snoc; [done|]. intros y Hy. apply Hbound in Hy. lia.
  - intros x Hx. apply elem_of_app in Hx as [Hx|Hx]; [apply Hbound in Hx; lia|].
    apply list_elem_of_singleton in Hx. lia.
  - apply (lines_fit_extend _ _ _ (λ x, x ∈ wrap) _ (k - 1) k).
    + lia.
    + done.
    + apply elem_of_app. right. by apply list_elem_of_singleton.
    + intros x Hx. rewrite elem_of_app, list_elem_of_singleton. split; [|by left].
      intros [Hin | ->]; [done|lia].
    + intros x Hx Hin. apply elem_of_app in Hin as [Hin|Hin].
      * apply Hbound in Hin. lia.
      * apply list_elem_of_singleton in Hin. lia.
    + left. lia.
  - exists k. split.
    + split; [lia|]. split; [|split; [by left|intros x Hx; lia]].
      right. split; [done|]. apply elem_of_app. right. by apply list_elem_of_singleton.
    + replace (S k - k)%nat with 1%nat by lia. by rewrite zsum_take_1.
  - done.
  - intros x Hx. apply Hbound in Hx. lia.
  - intros a' b' (Hab & Ha & Hb & Hno).
    assert (a' ≤ k - 1)%nat as Ha'k.
    { destruct Ha as [->|[_ Ha]]; [lia|]. apply Hbound in Ha. lia. }
    destruct (decide (b' = k)) as [->|Hne].
    + assert (a' = a) as ->.
      { apply (is_line_last_unique (λ x, x ∈ wrap) (k - 1)); [|done].
        split; [lia|]. split; [done|]. split; [by left|].
        intros x Hx. apply Hno. lia. }
      right. unfold line_sum. rewrite <- Hcur. lia.
    + apply Hfit. destruct Hb as [->|Hb]; [done|].
      pose proof (Hbound b' Hb).
      split; [lia|]. split; [done|]. split; [by right|done].
  - exists a. destruct Hlast as (Hab & Ha & _ & Hno). split.
    + split; [lia|]. split; [done|]. split; [by left|].
      intros x Hx Hin. destruct (decide (x = k - 1)%nat) as [->|Hne].
      * apply Hbound in Hin. lia.
      * apply (Hno x); [lia|done].
    + replace (S k - a)%nat with (S (k - a)) by lia.
      rewrite zsum_take_S, count_at_drop, <- Hcur.
      replace (a + (k - a))%nat with k by lia. done.
Qed.

(** [stri__wrap_greedy] returns a break set that is strictly increasing,
    stays before the last word, and lays the words out in lines that fit. *)
Lemma greedy_layout (width_val : Z) (counts_orig counts_trim : list Z) (n : nat) :
  length counts_orig = n → length counts_trim = n → (1 ≤ n)%nat →
  ∃ wrap,
    stri__wrap_greedy [] (n + 1) width_val counts_orig counts_trim = Some wrap
    ∧ strictly_increasing wrap
    ∧ (∀ k, k ∈ wrap → (k + 1 < n)%nat)
    ∧ lines_fit width_val counts_orig counts_trim (λ k, k ∈ wrap) (n - 1).
Proof.
  intros Ho Ht Hn. unfold stri__wrap_greedy.
  rewrite (lookup_count_at counts_orig 0) by lia. cbn [mbind option_bind].
  replace (n + 1 - 1)%nat with n by lia.
  destruct (for_loop_inv (greedy_inv width_val counts_orig counts_trim) 1 n
    (greedy_step width_val counts_orig counts_trim) (count_at counts_orig 0, []))
    as ([cur_len wrap] & -> & Hsi & Hbound & Hfit & _); [lia| | |].
  - split; [apply strictly_increasing_nil|]. split; [|split]; cbn [fst snd].
    + intros x Hx. by apply not_elem_of_nil in Hx.
    + intros a b (Hab & _). left. lia.
    + exists 0%nat. split.
      * split; [lia|]. split; [by left|]. split; [by left|]. intros k Hk. lia.
      * by rewrite zsum_take_1.
  - intros k t Hk Hinv. apply greedy_step_inv; [lia|lia|lia|done].
  - cbn [mbind option_bind fst snd] in *. eauto.
Qed.

Lemma collect_loop_spec (n : nat) (where_ : list bool) :
  length where_ = (n * n)%nat →
  ∃ wrap, for_loop 0 n (collect n where_) [] = Some wrap
          ∧ strictly_increasing wrap
          ∧ ∀ k, k ∈ wrap ↔ (k < n)%nat ∧ breaks_at n where_ (n - 1) k.
Proof.
  intros Hlen.
  destruct (for_loop_inv
    (λ (m : nat) (wrap : list nat),
       strictly_increasing wrap
       ∧ ∀ k, k ∈ wrap ↔ (k < m)%nat ∧ breaks_at n where_ (n - 1) k)
    0 n (collect n where_) []) as (wrap & Hwrap & Hinv); [lia| | |eauto].
  - split; [apply strictly_increasing_nil|]. intros k. split; [|lia].
    intros Hk. by apply not_elem_of_nil in Hk.
  - intros m wrap Hm [Hsi Hmem]. unfold collect.
    destruct (lookup_lt_is_Some_2 where_ (IDX n m (n - 1))) as [b Hb].
    { rewrite Hlen. apply IDX_lt; lia. }
    rewrite Hb. cbn [mbind option_bind].
    destruct b; eexists; (split; [done|]); split.
    + apply strictly_increasing_snoc; [done|]. intros y Hy. apply Hmem in Hy. lia.
    + intros k. rewrite elem_of_app, list_elem_of_singleton, Hmem. split.
      * intros [[Hk Hbrk] | ->]; (split; [lia|done]).
      * intros [Hk Hbrk]. destruct (decide (k = m)) as [->|Hne]; [by right|left].
        split; [lia|done].
    + done.
    + intros k. rewrite Hmem. split; intros [Hk Hbrk]; (split; [|done]); [lia|].
      destruct (decide (k = m)) as [->|Hne]; [|lia].
      unfold breaks_at in Hbrk. rewrite Hb in Hbrk. done.
Qed.

(** [stri__wrap_dynamic] returns a break set with the same properties. *)
Lemma dynamic_layout {D : Type} `{DoubleOps D} (width_val : Z) (exponent_val : D)
    (counts_orig counts_trim : list Z) (n : nat) :
  SignLaws exponent_val →
  length counts_orig = n → length counts_trim = n → (1 ≤ n)%nat →
  ∃ wrap,
    stri__wrap_dynamic [] (n + 1) width_val exponent_val counts_orig counts_trim
    = Some wrap
    ∧ strictly_increasing wrap
    ∧ (∀ k, k ∈ wrap → (k + 1 < n)%nat)
    ∧ lines_fit width_val counts_orig counts_trim (λ k, k ∈ wrap) (n - 1).
Proof.
  intros Hlaws Ho Ht Hn. unfold stri__wrap_dynamic.
  replace (n + 1 - 1)%nat with n by lia.
  destruct (cost_matrix_spec width_val exponent_val counts_orig counts_trim Hlaws n Ho Ht)
    as (cost & -> & _ & Hcells).
  cbn [mbind option_bind].
  destruct (plan_columns_spec width_val exponent_val counts_orig counts_trim n cost
              Hlaws Hcells) as ([f where_] & -> & _ & Hw & Hwhere & Hfit).
  cbn [mbind option_bind fst snd] in *.
  destruct (collect_loop_spec n where_ Hw) as (wrap & -> & Hsi & Hmem).
  exists wrap. split; [done|]. split; [done|]. split.
  - intros k Hk. apply Hmem in Hk as [Hk Hbrk].
    destruct (Hwhere k (n - 1)%nat) as (b & Hb & Hrange); [lia|lia|].
    unfold breaks_at in Hbrk. rewrite Hb in Hbrk. injection Hbrk as ->.
    specialize (Hrange eq_refl). lia.
  - intros a b Hline. apply (Hfit (n - 1)%nat); [lia|].
    apply (is_line_ext (λ k, k ∈ wrap)); [|done].
    intros k Hk. rewrite Hmem. split; [by intros [_ ?]|]. intros Hbrk. split; [lia|done].
Qed.

(** The planner the driver selects returns a break set that is strictly
    increasing, stays before the last word, and gives lines that fit. *)
Lemma plan_layout {D : Type} `{DoubleOps D} (width_val : Z) (exponent_val : D)
    (counts_orig counts_trim : list Z) (n : nat) :
  SignLaws exponent_val →
  length counts_orig = n → length counts_trim = n → (1 ≤ n)%nat →
  ∃ wrap,
    plan width_val exponent_val (n + 1) counts_orig counts_trim = Some wrap
    ∧ strictly_increasing wrap
    ∧ (∀ k, k ∈ wrap → (k + 1 < n)%nat)
    ∧ lines_fit width_val counts_orig counts_trim (λ k, k ∈ wrap) (n - 1).
Proof.
  intros Hlaws Ho Ht Hn. unfold plan.
  destruct (dleb exponent_val (dofZ 0)).
  - apply greedy_layout; done.
  - apply dynamic_layout; done.
Qed.

(** C9 (as amended).  For [wordCount >= 1] words and any width, each
    planner returns a strictly increasing sequence of word indices, all
    in the range [[0, wordCount-2]], so neither emits a break after the
    final word; the index the driver then appends is [noccurences - 2],
    which is the final word [wordCount-1], and the extended sequence is
    still strictly increasing. *)
Theorem planner_breaks_increasing {D : Type} `{DoubleOps D} (width_val : Z)
    (exponent_val : D) (counts_orig counts_trim : list Z) (wordCount : nat) :
  SignLaws exponent_val →
  length counts_orig = wordCount → length counts_trim = wordCount →
  (1 ≤ wordCount)%nat →
  (∃ wrap,
     stri__wrap_greedy [] (wordCount + 1) width_val counts_orig counts_trim = Some wrap
     ∧ strictly_increasing wrap ∧ ∀ k, k ∈ wrap → (k + 2 ≤ wordCount)%nat)
  ∧ (∃ wrap,
       stri__wrap_dynamic [] (wordCount + 1) width_val exponent_val
         counts_orig counts_trim = Some wrap
       ∧ strictly_increasing wrap ∧ ∀ k, k ∈ wrap → (k + 2 ≤ wordCount)%nat)
  ∧ (∃ wrap,
       plan width_val exponent_val (wordCount + 1) counts_orig counts_trim = Some wrap
       ∧ push_back_last (wordCount + 1) wrap = wrap ++ [(wordCount - 1)%nat]
       ∧ strictly_increasing (push_back_last (wordCount + 1) wrap)).
Proof.
  intros Hlaws Ho Ht Hn. split; [|split].
  - destruct (greedy_layout width_val counts_orig counts_trim wordCount Ho Ht Hn)
      as (wrap & Hw & Hsi & Hbound & _).
    exists wrap. split; [done|]. split; [done|]. intros k Hk. apply Hbound in Hk. lia.
  - destruct (dynamic_layout width_val exponent_val counts_orig counts_trim wordCount
                Hlaws Ho Ht Hn) as (wrap & Hw & Hsi & Hbound & _).
    exists wrap. split; [done|]. split; [done|]. intros k Hk. apply Hbound in Hk. lia.
  - destruct (plan_layout width_val exponent_val counts_orig counts_trim wordCount
                Hlaws Ho Ht Hn) as (wrap & Hw & Hsi & Hbound & _).
    exists wrap. split; [done|]. unfold push_back_last.
    replace (wordCount + 1 - 2)%nat with (wordCount - 1)%nat by lia. split; [done|].
    apply strictly_increasing_snoc; [done|].
    intros k Hk. apply Hbound in Hk. lia.
Qed.

Lemma planner_breaks_increasing_witness :
  (∃ wrap,
     stri__wrap_greedy [] (5 + 1) 10 [4; 6; 6; 4; 5] [3; 5; 5; 3; 5] = Some wrap
     ∧ strictly_increasing wrap ∧ ∀ k, k ∈ wrap → (k + 2 ≤ 5)%nat)
  ∧ (∃ wrap,
       stri__wrap_dynamic (D:=Z) [] (5 + 1) 10 2 [4; 6; 6; 4; 5] [3; 5; 5; 3; 5]
       = Some wrap
       ∧ strictly_increasing wrap ∧ ∀ k, k ∈ wrap → (k + 2 ≤ 5)%nat)
  ∧ (∃ wrap,
       plan (D:=Z) 10 2 (5 + 1) [4; 6; 6; 4; 5] [3; 5; 5; 3; 5] = Some wrap
       ∧ push_back_last (5 + 1) wrap = wrap ++ [(5 - 1)%nat]
       ∧ strictly_increasing (push_back_last (5 + 1) wrap)).
Proof.
  apply (planner_breaks_increasing (D:=Z) 10 2 [4; 6; 6; 4; 5] [3; 5; 5; 3; 5] 5).
  - apply ZDouble_laws.
  - reflexivity.
  - reflexivity.
  - lia.
Defined.

(** C9 as stated fails in its last clause: for the two words "aaaa " and
    "bbbbb" with width 7 the planner breaks after word 0 [= wordCount-2],
    and the driver appends word 1 [= wordCount-1], not [wordCount-2];
    appending [wordCount-2] would repeat the break. *)
Lemma driver_does_not_append_wordCount_minus_2 :
  plan (D:=Z) 7 0 3 [5; 5] [4; 5] = Some [0%nat]
  ∧ push_back_last 3 [0%nat] = [0; 1]%nat
  ∧ push_back_last 3 [0%nat] ≠ [0%nat] ++ [(2 - 2)%nat]
  ∧ ¬ strictly_increasing ([0%nat] ++ [(2 - 2)%nat]).
Proof.
  split; [reflexivity|]. split; [reflexivity|]. split; [discriminate|].
  intros Hsi. specialize (Hsi 0%nat 1%nat 0%nat 0%nat). simpl in Hsi.
  specialize (Hsi ltac:(lia) eq_refl eq_refl). lia.
Qed.

(** ** The scanning loop *)

Lemma forbidden_break_in_set (c : Z) : forbidden_break c → uset_linebreaks c = true.
Proof.
  unfold forbidden_break. rewrite !elem_of_cons, elem_of_nil.
  intros [->|[->|[->|[->|[->|[->|[->|[]]]]]]]]; reflexivity.
Qed.

Section Scan.
Variable U8_NEXT : list byte → Z → Z → Z * Z.
Variables (str_cur_s : list byte) (pos : list Z).
Hypothesis pos_last : last pos = Some (Z.of_nat (length str_cur_s)).

Local Abbreviation n := (Z.of_nat (length str_cur_s)).

Lemma scan_ok_next_block (st : scan_state) (p j' : Z) :
  scan_ok pos n st → j st < n →
  pos !! (cur_block st + 1)%nat = Some p → p ≤ j' → j' < n →
  (cur_block st + 2 < length pos)%nat.
Proof.
  intros (_ & _ & _ & Hblock) Hj Hp Hle Hj'. specialize (Hblock Hj).
  rewrite last_lookup in pos_last.
  destruct (decide (cur_block st + 1 = pred (length pos))%nat) as [Heq|Hne]; [|lia].
  rewrite Heq, pos_last in Hp. injection Hp as <-. lia.
Qed.

(** A forbidden line break ahead of the scan makes it throw: no
    out-of-range access and no other exit comes first. *)
Lemma measure_loop_break (fuel : nat) (st : scan_state) :
  scan_ok pos n st →
  (∃ c, c ∈ code_points U8_NEXT str_cur_s fuel (j st) ∧ uset_linebreaks c = true) →
  measure_loop U8_NEXT str_cur_s pos fuel st = Error MSG__NEWLINE_FOUND.
Proof.
  revert st. induction fuel as [|fuel IH]; intros st Hok (c & Hc & Hbreak).
  - simpl in Hc. destruct (j st <? n); by apply not_elem_of_nil in Hc.
  - simpl in Hc |- *.
    destruct (Z.ltb_spec (j st) n) as [Hj|Hj]; [|by apply not_elem_of_nil in Hc].
    destruct (U8_NEXT str_cur_s (j st) n) as [j' c'] eqn:Hnext.
    pose proof Hok as (Hco & Hct & Hep & Hblock). specialize (Hblock Hj).
    apply elem_of_cons in Hc as [->|Hc].
    { destruct (Z.ltb_spec c' 0) as [Hneg|_]; [|by rewrite Hbreak].
      exfalso. unfold uset_linebreaks in Hbreak. lia. }
    destruct (c' <? 0).
    { apply IH; [|eauto]. split; [done|]. split; [done|]. split; [done|]. done. }
    destruct (uset_linebreaks c'); [done|].
    destruct (Z.leb_spec n j') as [Hend|Hin].
    + (* the scan is over: nothing is left to meet *)
      exfalso. destruct fuel; simpl in Hc;
        (destruct (Z.ltb_spec j' n); [lia|by apply not_elem_of_nil in Hc]).
    + destruct (lookup_lt_is_Some_2 pos (cur_block st + 1)) as [p Hp]; [lia|].
      rewrite Hp. cbn [defined mbind outcome_bind mret outcome_ret].
      destruct (Z.leb_spec p j') as [Hclose|Hopen].
      * rewrite !vec_set_Some by lia. cbn [defined mbind outcome_bind].
        apply IH; [|eauto]. unfold scan_ok. cbn [counts_orig counts_trim end_pos_trim
          cur_block j]. rewrite !length_insert.
        split; [done|]. split; [done|]. split; [done|]. intros _.
        pose proof (scan_ok_next_block st p j' Hok Hj Hp Hclose Hin). lia.
      * apply IH; [|eauto]. split; [done|]. split; [done|]. split; [done|]. done.
Qed.
End Scan.

(** The three writes that close a block, each defined or not. *)
Ltac close_block st :=
  destruct (vec_set (counts_orig st) _ _); cbn [defined mbind outcome_bind]; [|done];
  destruct (vec_set (counts_trim st) _ _); cbn [defined mbind outcome_bind]; [|done];
  destruct (vec_set (end_pos_trim st) _ _); cbn [defined mbind outcome_bind]; [|done].

(** With a decoder that advances, as [U8_NEXT] does, the scan from offset
    0 ends within as many steps as the string has bytes. *)
Lemma measure_loop_enough_fuel (U8_NEXT : list byte → Z → Z → Z * Z)
    (str_cur_s : list byte) (pos : list Z) (fuel : nat) (st : scan_state) :
  (∀ i, 0 ≤ i < Z.of_nat (length str_cur_s) →
        i < (U8_NEXT str_cur_s i (Z.of_nat (length str_cur_s))).1) →
  0 ≤ j st → Z.of_nat (length str_cur_s) - j st ≤ Z.of_nat fuel →
  measure_loop U8_NEXT str_cur_s pos fuel st ≠ OutOfFuel.
Proof.
  intros Hadv. revert st. induction fuel as [|fuel IH]; intros st Hj Hfuel; simpl.
  - destruct (Z.ltb_spec (j st) (Z.of_nat (length str_cur_s))); [lia|done].
  - destruct (Z.ltb_spec (j st) (Z.of_nat (length str_cur_s))) as [Hlt|_]; [|done].
    specialize (Hadv (j st) ltac:(lia)).
    destruct (U8_NEXT str_cur_s (j st) _) as [j' c]. cbn [fst] in Hadv.
    destruct (c <? 0); [apply IH; cbn [j]; lia|].
    destruct (uset_linebreaks c); [done|].
    destruct (Z.of_nat (length str_cur_s) <=? j').
    + cbn [mbind outcome_bind]. close_block st.
      apply IH; cbn [j]; lia.
    + destruct (pos !! _) as [p|]; cbn [defined mbind outcome_bind mret outcome_ret];
        [|done].
      destruct (p <=? j').
      * close_block st. apply IH; cbn [j]; lia.
      * apply IH; cbn [j]; lia.
Qed.

Lemma wrap_elements_error {D : Type} `{DoubleOps D} U8_NEXT line_boundaries width_val
    (exponent_val : D) (m : message) (pre post : list (option (list byte)))
    (str_i : option (list byte)) (i : nat) (ret : list SEXP) :
  (∀ x, x ∈ pre →
        ∃ elt, wrap_element U8_NEXT line_boundaries width_val exponent_val x = Done elt) →
  wrap_element U8_NEXT line_boundaries width_val exponent_val str_i = Error m →
  (i + length pre ≤ length ret)%nat →
  wrap_elements U8_NEXT line_boundaries width_val exponent_val (pre ++ str_i :: post) i ret
  = Error m.
Proof.
  revert i ret. induction pre as [|x pre IH]; intros i ret Hpre Herr Hlen; simpl.
  - by rewrite Herr.
  - destruct (Hpre x) as [elt ->]; [left|]. cbn [mbind outcome_bind].
    simpl in Hlen. rewrite vec_set_Some by lia. cbn [defined mbind outcome_bind].
    apply IH; [|done|rewrite length_insert; lia].
    intros y Hy. apply Hpre. by right.
Qed.

(** C6. If the scan of a string meets a code point of the forbidden set
    (LF, CR, NEL, U+2028, U+2029, and also VT and FF), the iteration for
    that string throws [MSG__NEWLINE_FOUND]: it does not fall back to the
    original string.  The error ends the whole call: no call whose
    strings include this one returns a result, and the call fails with
    this very error when the strings before it are processed normally. *)
Theorem hard_break_raises {D : Type} `{DoubleOps D}
    (U8_NEXT : list byte → Z → Z → Z * Z)
    (line_boundaries : list byte → option (list Z))
    (width_val : Z) (exponent_val : D) (str_cur_s : list byte) (pos : list Z) :
  line_boundaries str_cur_s = Some pos →
  (2 ≤ length pos)%nat →
  last pos = Some (Z.of_nat (length str_cur_s)) →
  (∃ c, c ∈ code_points U8_NEXT str_cur_s (length str_cur_s) 0 ∧ forbidden_break c) →
  wrap_element U8_NEXT line_boundaries width_val exponent_val (Some str_cur_s)
    = Error MSG__NEWLINE_FOUND
  ∧ (∀ str ret, Some str_cur_s ∈ str →
       stri_wrap U8_NEXT line_boundaries str width_val exponent_val ≠ Done ret)
  ∧ (∀ pre post, 0 < width_val →
       (∀ x, x ∈ pre →
          ∃ elt, wrap_element U8_NEXT line_boundaries width_val exponent_val x = Done elt) →
       stri_wrap U8_NEXT line_boundaries (pre ++ Some str_cur_s :: post)
         width_val exponent_val = Error MSG__NEWLINE_FOUND).
Proof.
  intros Hpos Hlen Hlast (c & Hc & Hforbidden).
  assert (wrap_element U8_NEXT line_boundaries width_val exponent_val (Some str_cur_s)
          = Error MSG__NEWLINE_FOUND) as Helt.
  { simpl. rewrite Hpos. destruct (Nat.leb_spec (length pos) 1); [lia|].
    unfold measure. rewrite (measure_loop_break U8_NEXT str_cur_s pos Hlast); [done| |].
    - unfold scan_ok. cbn [counts_orig counts_trim end_pos_trim cur_block j].
      rewrite !length_replicate. split; [done|]. split; [done|]. split; [done|]. lia.
    - exists c. split; [done|]. by apply forbidden_break_in_set. }
  split; [done|]. split.
  - intros str ret Hin. unfold stri_wrap. destruct (width_val <=? 0); [done|].
    destruct (wrap_elements _ _ _ _ _ _ _) as [elts| | |] eqn:Hloop; try done.
    apply wrap_elements_spec in Hloop as (_ & _ & Hall).
    apply list_elem_of_lookup_1 in Hin as [i Hi].
    destruct (Hall i _ Hi) as (elt & He & _). rewrite Helt in He. done.
  - intros pre post Hw Hpre. unfold stri_wrap.
    destruct (Z.leb_spec width_val 0); [lia|].
    rewrite (wrap_elements_error _ _ _ _ MSG__NEWLINE_FOUND); [done|done|done|].
    unfold allocVector_VECSXP. rewrite length_replicate, length_app. lia.
Qed.

Lemma hard_break_raises_witness :
  wrap_element (D:=Z) u8_next space_boundaries 10 2 (Some [x61; x0a; x62])
    = Error MSG__NEWLINE_FOUND
  ∧ (∀ str ret, Some [x61; x0a; x62] ∈ str →
       stri_wrap (D:=Z) u8_next space_boundaries str 10 2 ≠ Done ret)
  ∧ (∀ pre post, 0 < 10 →
       (∀ x, x ∈ pre →
          ∃ elt, wrap_element (D:=Z) u8_next space_boundaries 10 2 x = Done elt) →
       stri_wrap (D:=Z) u8_next space_boundaries (pre ++ Some [x61; x0a; x62] :: post)
         10 2 = Error MSG__NEWLINE_FOUND).
Proof.
  apply (hard_break_raises (D:=Z) u8_next space_boundaries 10 2 [x61; x0a; x62] [0; 3]).
  - reflexivity.
  - simpl. lia.
  - reflexivity.
  - exists 0x0A. split.
    + vm_compute. right. left.
    + unfold forbidden_break. left.
Defined.

(** C4 at the string "aaaa ", 0xFF, " bbbb" with width 5 (greedy policy,
    boundaries 0, 5, 7, 11).  The scan meets the invalid byte and stores
    the original string in the result, but it goes on, and the lines
    built afterwards replace it: the result is the two lines "aaaa " and
    "bbbb", not the original string. *)
Theorem invalid_byte_result_is_overwritten :
  let s := bytes "aaaa " ++ [xff] ++ bytes " bbbb" in
  space_boundaries s = Some [0; 5; 7; 11]
  ∧ (∃ st, measure u8_next s [0; 5; 7; 11] 4 = Done st
           ∧ ret_i st = STRSXP [mkChar s]
           ∧ counts_orig st = [5; 1; 4] ∧ counts_trim st = [4; 0; 4]
           ∧ end_pos_trim st = [4; 5; 11])
  ∧ wrap_element (D:=Z) u8_next space_boundaries 5 0 (Some s)
    = Done (STRSXP [mkChar (bytes "aaaa "); mkChar (bytes "bbbb")])
  ∧ stri_wrap (D:=Z) u8_next space_boundaries [Some s] 5 0
    = Done (VECSXP [STRSXP [mkChar (bytes "aaaa "); mkChar (bytes "bbbb")]])
  ∧ stri_wrap (D:=Z) u8_next space_boundaries [Some s] 5 0
    ≠ Done (VECSXP [STRSXP [mkChar s]]).
Proof.
  cbv zeta. split; [reflexivity|]. split.
  - eexists. split; [vm_compute; reflexivity|]. repeat split.
  - split; [vm_compute; reflexivity|]. split; [vm_compute; reflexivity|].
    vm_compute. discriminate.
Qed.

(** C5 at the words "aa ", "aa ", "aa ", "bbbbbb" with width 10 and
    exponent 1.  For the line ending at word 3 the starts 2 and 3 are the
    feasible ones and both have the minimal total 6
    ([f[1] + cost[2][3] = 5 + 1] and [f[2] + cost[3][3] = 2 + 4]); the
    smallest start is 2, a break after word 1.  The source charges the
    first candidate [f[0] + cost[2][3] = 9], so it records start 3, a break
    after word 2. *)
Theorem dynamic_tie_records_later_start :
  let counts_orig := [3; 3; 3; 6] in
  let counts_trim := [2; 2; 2; 6] in
  (∃ cost f where_,
     cost_matrix (D:=Z) 10 1 counts_orig counts_trim 4 = Some cost
     ∧ plan_columns 4 cost = Some (f, where_)
     ∧ cost !! IDX 4 0 3 = Some (-1) ∧ cost !! IDX 4 1 3 = Some (-1)
     ∧ cost !! IDX 4 2 3 = Some 1 ∧ cost !! IDX 4 3 3 = Some 4
     ∧ f !! 0%nat = Some 8 ∧ f !! 1%nat = Some 5 ∧ f !! 2%nat = Some 2)
  ∧ stri__wrap_dynamic (D:=Z) [] 5 10 1 counts_orig counts_trim = Some [2%nat]
  ∧ claimed_dynamic (D:=Z) 5 10 1 counts_orig counts_trim = Some [1%nat].
Proof.
  cbv zeta. split.
  - do 3 eexists. split; [vm_compute; reflexivity|].
    split; [vm_compute; reflexivity|]. repeat split.
  - split; reflexivity.
Qed.

(** ** The lines the driver builds *)

(** A property of the scan state that the three ways through the loop
    body keep is kept by the whole scan.  The ways are: an invalid
    sequence is skipped; a code point is counted and the block goes on; a
    code point is counted and the block is closed. *)
Lemma measure_loop_keeps (P : scan_state → Prop)
    (U8_NEXT : list byte → Z → Z → Z * Z) (str_cur_s : list byte) (pos : list Z) :
  (∀ st j' c r, P st →
     j st < Z.of_nat (length str_cur_s) →
     U8_NEXT str_cur_s (j st) (Z.of_nat (length str_cur_s)) = (j', c) → c < 0 →
     P (ScanState j' (cur_block st) (cur_count_orig st) (cur_count_trim st)
          (cur_end_pos_trim st) (counts_orig st) (counts_trim st) (end_pos_trim st) r)) →
  (∀ st j' c, P st →
     j st < Z.of_nat (length str_cur_s) →
     U8_NEXT str_cur_s (j st) (Z.of_nat (length str_cur_s)) = (j', c) → 0 ≤ c →
     j' < Z.of_nat (length str_cur_s) →
     (∃ q, pos !! (cur_block st + 1)%nat = Some q ∧ j' < q) →
     P (ScanState j' (cur_block st) (cur_count_orig st + 1)
          (if uset_whitespaces c then cur_count_trim st + 1 else 0)
          (if uset_whitespaces c then cur_end_pos_trim st else j')
          (counts_orig st) (counts_trim st) (end_pos_trim st) (ret_i st))) →
  (∀ st j' c, P st →
     j st < Z.of_nat (length str_cur_s) →
     U8_NEXT str_cur_s (j st) (Z.of_nat (length str_cur_s)) = (j', c) → 0 ≤ c →
     (Z.of_nat (length str_cur_s) ≤ j'
      ∨ ∃ q, pos !! (cur_block st + 1)%nat = Some q ∧ q ≤ j') →
     (cur_block st < length (counts_orig st))%nat →
     (cur_block st < length (counts_trim st))%nat →
     (cur_block st < length (end_pos_trim st))%nat →
     P (ScanState j' (S (cur_block st)) 0 0 j'
          (<[cur_block st := cur_count_orig st + 1]> (counts_orig st))
          (<[cur_block st := cur_count_orig st + 1
               - (if uset_whitespaces c then cur_count_trim st + 1 else 0)]>
             (counts_trim st))
          (<[cur_block st := if uset_whitespaces c then cur_end_pos_trim st else j']>
             (end_pos_trim st))
          (ret_i st))) →
  ∀ fuel st st',
    P st → measure_loop U8_NEXT str_cur_s pos fuel st = Done st' →
    P st' ∧ Z.of_nat (length str_cur_s) ≤ j st'.
Proof.
  intros Hskip Hstay Hclose.
  induction fuel as [|fuel IH]; intros st st' HP; simpl.
  - destruct (Z.ltb_spec (j st) (Z.of_nat (length str_cur_s))); [done|].
    by intros [= <-].
  - destruct (Z.ltb_spec (j st) (Z.of_nat (length str_cur_s))) as [Hj|Hj];
      [|by intros [= <-]].
    destruct (U8_NEXT str_cur_s (j st) _) as [j' c] eqn:Hnext.
    destruct (Z.ltb_spec c 0) as [Hc|Hc]; [by apply IH, (Hskip st j' c)|].
    destruct (uset_linebreaks c); [done|].
    assert ((Z.of_nat (length str_cur_s) ≤ j'
             ∨ ∃ q, pos !! (cur_block st + 1)%nat = Some q ∧ q ≤ j') →
      (co ← defined (vec_set (counts_orig st) (cur_block st) (cur_count_orig st + 1));
       ct ← defined (vec_set (counts_trim st) (cur_block st)
              (cur_count_orig st + 1
               - (if uset_whitespaces c then cur_count_trim st + 1 else 0)));
       ep ← defined (vec_set (end_pos_trim st) (cur_block st)
              (if uset_whitespaces c then cur_end_pos_trim st else j'));
       measure_loop U8_NEXT str_cur_s pos fuel
         (ScanState j' (S (cur_block st)) 0 0 j' co ct ep (ret_i st)))
      = Done st' → P st' ∧ Z.of_nat (length str_cur_s) ≤ j st') as Hbody.
    { intros Hwhy.
      destruct (vec_set (counts_orig st) _ _) as [co|] eqn:Hco;
        cbn [defined mbind outcome_bind]; [|done].
      destruct (vec_set (counts_trim st) _ _) as [ct|] eqn:Hct;
        cbn [defined mbind outcome_bind]; [|done].
      destruct (vec_set (end_pos_trim st) _ _) as [ep|] eqn:Hep;
        cbn [defined mbind outcome_bind]; [|done].
      apply vec_set_inv in Hco as [? ->]. apply vec_set_inv in Hct as [? ->].
      apply vec_set_inv in Hep as [? ->].
      by apply IH, (Hclose st j' c). }
    destruct (Z.leb_spec (Z.of_nat (length str_cur_s)) j') as [Hend|Hin];
      cbn [mbind outcome_bind]; [apply Hbody; by left|].
    destruct (pos !! _) as [q|] eqn:Hq;
      cbn [defined mbind outcome_bind mret outcome_ret]; [|done].
    destruct (Z.leb_spec q j') as [Hle|Hgt].
    + apply Hbody. right. eauto.
    + apply IH, (Hstay st j' c); eauto.
Qed.

Lemma measure_loop_lengths (U8_NEXT : list byte → Z → Z → Z * Z)
    (str_cur_s : list byte) (pos : list Z) (fuel : nat) (st st' : scan_state) :
  measure_loop U8_NEXT str_cur_s pos fuel st = Done st' →
  length (counts_orig st') = length (counts_orig st)
  ∧ length (counts_trim st') = length (counts_trim st)
  ∧ length (end_pos_trim st') = length (end_pos_trim st).
Proof.
  intros Hst.
  apply (measure_loop_keeps
    (λ t, length (counts_orig t) = length (counts_orig st)
          ∧ length (counts_trim t) = length (counts_trim st)
          ∧ length (end_pos_trim t) = length (end_pos_trim st))) in Hst
    as [Hlen _]; [done|done|done| |done].
  intros t j' c Ht _ _ _ _ _ _ _. cbn [counts_orig counts_trim end_pos_trim].
  by rewrite !length_insert.
Qed.

Lemma count_at_insert (l : list Z) (b k : nat) (x : Z) :
  (b < length l)%nat →
  count_at (<[b:=x]> l) k = if decide (k = b) then x else count_at l k.
Proof.
  intros Hb. unfold count_at. destruct (decide (k = b)) as [->|Hne].
  - by rewrite list_lookup_insert_eq.
  - by rewrite list_lookup_insert_ne.
Qed.

(** The scan measures counts that satisfy the invariant of the data
    model, [0 <= trimmed width <= original width]. *)
Lemma measured_counts_ok (U8_NEXT : list byte → Z → Z → Z * Z)
    (str_cur_s : list byte) (pos : list Z) (noccurences : nat) (st : scan_state) :
  measure U8_NEXT str_cur_s pos noccurences = Done st →
  ∀ k, 0 ≤ count_at (counts_trim st) k ≤ count_at (counts_orig st) k.
Proof.
  intros Hst.
  assert (counts_ok st) as (_ & _ & Hall); [|done].
  unfold measure in Hst. apply (measure_loop_keeps counts_ok) in Hst as [Hok _];
    [done| | | |].
  - intros t j' c r Ht _ _ _. exact Ht.
  - intros t j' c (Hcur & Hlen & Hall) _ _ _ _ _. split; [|done].
    cbn [cur_count_orig cur_count_trim]. destruct (uset_whitespaces c); lia.
  - intros t j' c (Hcur & Hlen & Hall) _ _ _ _ Hb _ _.
    split; [cbn [cur_count_orig cur_count_trim]; lia|].
    cbn [counts_orig counts_trim]. split; [by rewrite !length_insert|].
    intros k. rewrite !count_at_insert by lia.
    destruct (decide (k = cur_block t)); [|apply Hall].
    destruct (uset_whitespaces c); lia.
  - split; [cbn [cur_count_orig cur_count_trim]; lia|]. split; [done|].
    intros k. cbn [counts_orig counts_trim]. unfold count_at.
    destruct (replicate _ _ !! k) as [x|] eqn:Hx; simpl; [|lia].
    apply lookup_replicate in Hx as [-> _]. lia.
Qed.

Lemma line_ranges_length (first : nat) (ends : list nat) :
  length (line_ranges first ends) = length ends.
Proof. revert first. induction ends as [|w ends IH]; intros first; simpl; [done|]. by rewrite IH. Qed.

(** The loop over [iter_wrap]: line [i] of the result is the bytes from
    the start of its first word to the trimmed end of its last word. *)
Lemma build_spec (str_cur_s : list byte) (pos e_trim : list Z) (wrap : list nat)
    (first jj : nat) (last_pos : Z) (ans ans' : list CHARSXP) :
  line_start pos first = Some last_pos →
  build str_cur_s pos e_trim wrap (jj, last_pos, ans) = Done ans' →
  length ans' = length ans
  ∧ (∀ i, (i < jj)%nat → ans' !! i = ans !! i)
  ∧ ∀ i a b, line_ranges first wrap !! i = Some (a, b) →
      ∃ start stop,
        line_start pos a = Some start ∧ e_trim !! b = Some stop
        ∧ ans' !! (jj + i)%nat
          = Some (mkChar (take (Z.to_nat (stop - start)) (drop (Z.to_nat start) str_cur_s))).
Proof.
  revert first jj last_pos ans.
  induction wrap as [|w wrap IH]; intros first jj last_pos ans Hstart; simpl.
  - intros [= <-]. split; [done|]. split; [done|]. intros i a b Hi. done.
  - destruct (e_trim !! w) as [cur_pos|] eqn:Hcur; cbn [defined mbind outcome_bind];
      [|done].
    unfold Rf_mkCharLenCE. destruct (_ && _); cbn [mbind outcome_bind]; [|done].
    destruct (vec_set ans jj _) as [ans1|] eqn:Hset; cbn [defined mbind outcome_bind];
      [|done].
    apply vec_set_inv in Hset as [Hjj ->].
    destruct (pos !! (w + 1)%nat) as [last_pos'|] eqn:Hnext;
      cbn [defined mbind outcome_bind]; [|done].
    intros Hrest. apply (IH (S w)) in Hrest as (Hlen & Hlow & Hlines).
    2:{ unfold line_start. simpl. by rewrite <- Nat.add_1_r. }
    rewrite length_insert in Hlen. split; [done|]. split.
    + intros i Hi. rewrite Hlow by lia. apply list_lookup_insert_ne. lia.
    + intros [|i] a b Hi; simpl in Hi.
      * injection Hi as <- <-. exists last_pos, cur_pos. split; [done|]. split; [done|].
        rewrite Nat.add_0_r, Hlow by lia. by apply list_lookup_insert_eq.
      * destruct (Hlines i a b Hi) as (start & stop & Hs & He & Hline).
        exists start, stop. split; [done|]. split; [done|].
        by replace (jj + S i)%nat with (S jj + i)%nat by lia.
Qed.

(** ** What the scan measures *)

Section Spans.
Variable U8_NEXT : list byte → Z → Z → Z * Z.
Variable s : list byte.

Local Abbreviation n := (Z.of_nat (length s)).
Local Abbreviation sp := (span U8_NEXT s).

Lemma span_snoc (x y m : Z) : sp x y m → 0 ≤ y < n → sp x (U8_NEXT s y n).1 (m + 1).
Proof.
  intros Hspan Hy. induction Hspan as [x|x y m Hx Hspan IH].
  - apply span_next; [done|]. apply span_here.
  - apply span_next; [done|]. by apply IH.
Qed.

Lemma span_trans (x y z m m' : Z) : sp x y m → sp y z m' → sp x z (m + m').
Proof.
  intros Hxy Hyz. induction Hxy as [x|x y m Hx Hspan IH]; [done|].
  replace (m + 1 + m') with (m + m' + 1) by lia.
  apply span_next; [done|]. by apply IH.
Qed.

Hypothesis advance : ∀ x, 0 ≤ x < n → x < (U8_NEXT s x n).1.

Lemma span_le (x y m : Z) : sp x y m → x ≤ y ∧ 0 ≤ m.
Proof.
  intros Hspan. induction Hspan as [x|x y m Hx Hspan IH]; [lia|].
  pose proof (advance x Hx). lia.
Qed.

Lemma span_step (x y m : Z) :
  sp x y m → x < y → 0 ≤ x < n ∧ sp (U8_NEXT s x n).1 y (m - 1).
Proof.
  intros Hspan Hxy. destruct Hspan as [x|x y m Hx Hspan]; [lia|].
  split; [done|]. by replace (m + 1 - 1) with m by lia.
Qed.
End Spans.

Lemma block_ok_insert (U8_NEXT : list byte → Z → Z → Z * Z) (s : list byte)
    (pos : list Z) (st : scan_state) (k b : nat) (jj' : Z) (cb : nat) (co ct ce : Z)
    (x y z : Z) (r : SEXP) :
  k ≠ b →
  block_ok U8_NEXT s pos st k →
  block_ok U8_NEXT s pos
    (ScanState jj' cb co ct ce (<[b:=x]> (counts_orig st)) (<[b:=y]> (counts_trim st))
       (<[b:=z]> (end_pos_trim st)) r) k.
Proof.
  intros Hne (p & q & e & Hp & Hq & He & Hle & Ho & Ht).
  exists p, q, e. cbn [counts_orig counts_trim end_pos_trim]. unfold count_at in *.
  rewrite !list_lookup_insert_ne by done. done.
Qed.

Section ScanSpans.
Variable U8_NEXT : list byte → Z → Z → Z * Z.
Variables (s : list byte) (pos : list Z).
Hypothesis decoded : well_decoded U8_NEXT s.
Hypothesis segmented : well_segmented U8_NEXT s pos.
Hypothesis two_boundaries : (2 ≤ length pos)%nat.

Local Abbreviation n := (Z.of_nat (length s)).
Local Abbreviation sinv := (scan_inv U8_NEXT s pos).

Lemma pos_not_last (k : nat) (p : Z) :
  pos !! k = Some p → p < n → (k + 1 < length pos)%nat.
Proof.
  destruct segmented as (_ & Hlast & _). intros Hp Hlt.
  rewrite last_lookup in Hlast. pose proof (lookup_lt_Some _ _ _ Hp).
  destruct (decide (k = pred (length pos))) as [->|Hne]; [|lia].
  rewrite Hlast in Hp. injection Hp as <-. lia.
Qed.

Lemma scan_inv_init :
  sinv (ScanState 0 0 0 0 0 (replicate (length pos - 1) 0) (replicate (length pos - 1) 0)
          (replicate (length pos - 1) 0) R_NilValue).
Proof.
  destruct segmented as (Hpos0 & _ & Hrange & Hnext). unfold scan_inv.
  cbn [cur_block j cur_count_orig cur_count_trim cur_end_pos_trim
       counts_orig counts_trim end_pos_trim].
  rewrite !length_replicate.
  destruct (lookup_lt_is_Some_2 pos 1) as [q Hq]; [lia|].
  destruct (Hnext 0%nat _ _ Hpos0 Hq) as [Hlt [m Hm]].
  split; [done|]. split; [done|]. split; [done|]. split; [|split; [|split]].
  - exists 0, 0. split; [done|]. split; [apply span_here|].
    split; [apply span_here|]. split; [apply span_here|lia].
  - intros _. exists q, m. done.
  - intros Hn0. pose proof (Hrange _ _ Hq). lia.
  - intros k Hk. lia.
Qed.

(** Inside the string the scan meets a well-formed code point, and the
    next offset does not pass the boundary that ends the current word. *)
Lemma scan_inv_next (st : scan_state) (j' c : Z) :
  sinv st → j st < n → U8_NEXT s (j st) n = (j', c) →
  0 ≤ c ∧ 0 ≤ j st < j'
  ∧ ∃ q, pos !! (cur_block st + 1)%nat = Some q ∧ j' ≤ q ∧ q ≤ n.
Proof.
  destruct decoded as [Hadv Hvalid]. destruct segmented as (_ & _ & Hrange & _).
  intros (_ & _ & _ & (p & m0 & Hp & H0p & Hpj & _) & Hin & _) Hj Hnx.
  destruct (Hin Hj) as (q & m & Hq & Hjq & Hspan).
  apply (span_step U8_NEXT s) in Hspan as [Hjr Hspan]; [|done].
  rewrite Hnx in Hspan. simpl in Hspan.
  pose proof (span_le U8_NEXT s Hadv _ _ _ Hspan) as [Hle _].
  pose proof (span_le U8_NEXT s Hadv _ _ _ Hpj) as [Hpj' _].
  pose proof (span_le U8_NEXT s Hadv _ _ _ H0p) as [H0p' _].
  pose proof (Hvalid (j st) _ (span_trans _ _ _ _ _ _ _ H0p Hpj) Hj) as Hv.
  pose proof (Hadv (j st) ltac:(lia)) as Ha.
  rewrite Hnx in Hv, Ha. simpl in Hv, Ha.
  split; [done|]. split; [lia|]. exists q. split; [done|]. split; [done|].
  by apply (Hrange _ _ Hq).
Qed.

Lemma scan_inv_stay (st : scan_state) (j' c : Z) :
  sinv st → j st < n → U8_NEXT s (j st) n = (j', c) →
  j' < n → (∃ q, pos !! (cur_block st + 1)%nat = Some q ∧ j' < q) →
  sinv (ScanState j' (cur_block st) (cur_count_orig st + 1)
          (if uset_whitespaces c then cur_count_trim st + 1 else 0)
          (if uset_whitespaces c then cur_end_pos_trim st else j')
          (counts_orig st) (counts_trim st) (end_pos_trim st) (ret_i st)).
Proof.
  destruct decoded as [Hadv _].
  intros Hinv Hj Hnx Hj' (q & Hq & Hlt).
  destruct (scan_inv_next st j' c Hinv Hj Hnx) as (_ & Hjj' & _).
  destruct Hinv as (Ho & Ht & He & (p & m0 & Hp & H0p & Hpj & Hpe & Hej) & Hin & _ & Hblocks).
  destruct (Hin Hj) as (q' & m & Hq' & Hjq & Hspan). rewrite Hq in Hq'.
  injection Hq' as <-.
  apply (span_step U8_NEXT s) in Hspan as [Hjr Hspan]; [|done].
  rewrite Hnx in Hspan. simpl in Hspan.
  assert (span U8_NEXT s p j' (cur_count_orig st + 1)) as Hpj'.
  { pose proof (span_snoc U8_NEXT s p (j st) _ Hpj Hjr) as Hs. by rewrite Hnx in Hs. }
  split; [done|]. split; [done|]. split; [done|].
  cbn [cur_block j cur_count_orig cur_count_trim cur_end_pos_trim].
  split; [|split; [|split]].
  - exists p, m0. split; [done|]. split; [done|]. split; [done|].
    destruct (uset_whitespaces c).
    + split; [|lia].
      by replace (cur_count_orig st + 1 - (cur_count_trim st + 1))
        with (cur_count_orig st - cur_count_trim st) by lia.
    + split; [by rewrite Z.sub_0_r|lia].
  - intros _. eauto.
  - lia.
  - intros k Hk. destruct (Hblocks k Hk) as (p1 & q1 & e1 & ?). exists p1, q1, e1. done.
Qed.

Lemma scan_inv_close (st : scan_state) (j' c : Z) :
  sinv st → j st < n → U8_NEXT s (j st) n = (j', c) →
  (n ≤ j' ∨ ∃ q, pos !! (cur_block st + 1)%nat = Some q ∧ q ≤ j') →
  sinv (ScanState j' (S (cur_block st)) 0 0 j'
          (<[cur_block st := cur_count_orig st + 1]> (counts_orig st))
          (<[cur_block st := cur_count_orig st + 1
               - (if uset_whitespaces c then cur_count_trim st + 1 else 0)]>
             (counts_trim st))
          (<[cur_block st := if uset_whitespaces c then cur_end_pos_trim st else j']>
             (end_pos_trim st))
          (ret_i st)).
Proof.
  destruct segmented as (_ & _ & Hrange & Hnext).
  intros Hinv Hj Hnx Hwhy.
  destruct (scan_inv_next st j' c Hinv Hj Hnx) as (_ & Hjj' & q & Hq & Hle & Hqn).
  assert (j' = q) as ->.
  { destruct Hwhy as [Hend|(q' & Hq' & Hle')]; [lia|].
    rewrite Hq in Hq'. injection Hq' as <-. lia. }
  destruct Hinv as (Ho & Ht & He & (p & m0 & Hp & H0p & Hpj & Hpe & Hej) & Hin & _ & Hblocks).
  pose proof (lookup_lt_Some _ _ _ Hq) as Hk.
  assert (span U8_NEXT s p q (cur_count_orig st + 1)) as Hpq.
  { pose proof (span_snoc U8_NEXT s p (j st) _ Hpj) as Hs. rewrite Hnx in Hs.
    apply Hs. lia. }
  unfold scan_inv.
  cbn [cur_block j cur_count_orig cur_count_trim cur_end_pos_trim
       counts_orig counts_trim end_pos_trim].
  rewrite !length_insert.
  split; [done|]. split; [done|]. split; [done|]. split; [|split; [|split]].
  - exists q, (m0 + (cur_count_orig st + 1)).
    replace (S (cur_block st)) with (cur_block st + 1)%nat by lia.
    split; [done|]. split; [by apply (span_trans _ _ _ p)|].
    split; [apply span_here|]. split; [apply span_here|lia].
  - intros Hlt. pose proof (pos_not_last _ _ Hq Hlt).
    destruct (lookup_lt_is_Some_2 pos (cur_block st + 1 + 1)) as [q2 Hq2]; [lia|].
    destruct (Hnext _ _ _ Hq Hq2) as [Hlt2 [m2 Hm2]].
    exists q2, m2. replace (S (cur_block st) + 1)%nat with (cur_block st + 1 + 1)%nat by lia.
    done.
  - intros Hend.
    destruct (decide (cur_block st + 1 + 1 < length pos)%nat) as [Hmore|]; [|lia].
    destruct (lookup_lt_is_Some_2 pos (cur_block st + 1 + 1)) as [q2 Hq2]; [lia|].
    destruct (Hnext _ _ _ Hq Hq2) as [Hlt _]. pose proof (Hrange _ _ Hq2). lia.
  - intros k Hk'. destruct (decide (k = cur_block st)) as [->|Hne].
    + exists p, q, (if uset_whitespaces c then cur_end_pos_trim st else q).
      cbn [counts_orig counts_trim end_pos_trim]. unfold count_at.
      rewrite !list_lookup_insert_eq by lia. simpl.
      split; [done|]. split; [done|]. split; [done|].
      destruct (uset_whitespaces c).
      * split; [lia|]. split; [done|].
        by replace (cur_count_orig st + 1 - (cur_count_trim st + 1))
          with (cur_count_orig st - cur_count_trim st) by lia.
      * split; [lia|]. split; [done|]. by rewrite Z.sub_0_r.
    + apply block_ok_insert; [done|]. apply Hblocks. lia.
Qed.

(** On a well-formed string with boundaries on code points, the scan
    measures every word: counts and trimmed ends are those of the text. *)
Lemma measure_spans (st : scan_state) :
  measure U8_NEXT s pos (length pos) = Done st →
  ∀ k, (k + 1 < length pos)%nat → block_ok U8_NEXT s pos st k.
Proof.
  intros Hst. unfold measure in Hst.
  apply (measure_loop_keeps sinv) in Hst as [Hinv Hend].
  - destruct Hinv as (_ & _ & _ & _ & _ & Hdone & Hblocks).
    intros k Hk. apply Hblocks. specialize (Hdone Hend). lia.
  - intros t j' c r Hinv Hj Hnx Hc. exfalso.
    destruct (scan_inv_next t j' c Hinv Hj Hnx) as (Hv & _). lia.
  - intros t j' c Hinv Hj Hnx _ Hj' Hq. by apply scan_inv_stay.
  - intros t j' c Hinv Hj Hnx _ Hwhy _ _ _. by apply scan_inv_close.
  - apply scan_inv_init.
Qed.

End ScanSpans.

(** Consecutive measured words add up. *)
Lemma blocks_span (U8_NEXT : list byte → Z → Z → Z * Z) (s : list byte)
    (pos : list Z) (st : scan_state) (a d : nat) :
  (∀ k, (k + 1 < length pos)%nat → block_ok U8_NEXT s pos st k) →
  (a + d < length pos)%nat →
  ∃ p q, pos !! a = Some p ∧ pos !! (a + d)%nat = Some q
         ∧ span U8_NEXT s p q (zsum (take d (drop a (counts_orig st)))).
Proof.
  intros Hblocks. induction d as [|d IH]; intros Hd.
  - destruct (lookup_lt_is_Some_2 pos a) as [p Hp]; [lia|].
    exists p, p. rewrite Nat.add_0_r. split; [done|]. split; [done|]. apply span_here.
  - destruct IH as (p & q & Hp & Hq & Hspan); [lia|].
    destruct (Hblocks (a + d)%nat) as (q' & r & e & Hq' & Hr & _ & _ & Ho & _); [lia|].
    rewrite Hq in Hq'. injection Hq' as <-.
    exists p, r. split; [done|]. split; [by replace (a + S d)%nat with (a + d + 1)%nat by lia|].
    rewrite zsum_take_S, count_at_drop. by apply (span_trans _ _ _ q).
Qed.

(** The bytes of the line of words [a..b] hold [line_sum a b] code points. *)
Lemma line_span (U8_NEXT : list byte → Z → Z → Z * Z) (s : list byte)
    (pos : list Z) (st : scan_state) (a b : nat) (start stop : Z) :
  well_segmented U8_NEXT s pos →
  (∀ k, (k + 1 < length pos)%nat → block_ok U8_NEXT s pos st k) →
  (a ≤ b)%nat → (b + 1 < length pos)%nat →
  line_start pos a = Some start → end_pos_trim st !! b = Some stop →
  span U8_NEXT s start stop (line_sum (counts_orig st) (counts_trim st) a b).
Proof.
  intros (Hpos0 & _) Hblocks Hab Hb Hstart Hstop.
  assert (pos !! a = Some start) as Ha.
  { unfold line_start in Hstart. destruct (Nat.eqb_spec a 0) as [->|_]; [|done].
    by rewrite Hpos0. }
  destruct (blocks_span U8_NEXT s pos st a (b - a) Hblocks) as (p & q & Hp & Hq & Hspan);
    [lia|].
  replace (a + (b - a))%nat with b in Hq by lia.
  rewrite Ha in Hp. injection Hp as <-.
  destruct (Hblocks b Hb) as (q' & r & e & Hq' & _ & He & _ & _ & Ht).
  rewrite Hq in Hq'. injection Hq' as <-. rewrite Hstop in He. injection He as <-.
  unfold line_sum. by apply (span_trans _ _ _ q).
Qed.

(** ** The driver completes on well-formed input *)



(** ** The stand-in decoder *)

Lemma u8_next_advances (s : list byte) (i n : Z) : i < (u8_next s i n).1.
Proof.
  unfold u8_next.
  repeat match goal with |- context [if ?b then _ else _] => destruct b end;
    simpl; lia.
Qed.

Lemma byte_at_nonneg (s : list byte) (i : Z) : 0 ≤ byte_at s i.
Proof. unfold byte_at. destruct (s !! Z.to_nat i); lia. Qed.

(** On text without bytes above 0x7F every byte is one code point. *)
Lemma u8_next_ascii (s : list byte) (i : Z) :
  Forall (λ b, (Byte.to_N b < 128)%N) s →
  u8_next s i (Z.of_nat (length s)) = (i + 1, byte_at s i).
Proof.
  intros Hs. unfold u8_next.
  assert (byte_at s i < 0x80) as Hb.
  { unfold byte_at. destruct (s !! Z.to_nat i) as [b|] eqn:Hi; [|lia].
    apply list_elem_of_lookup_2 in Hi. rewrite Forall_forall in Hs.
    specialize (Hs b Hi). lia. }
  destruct (Z.ltb_spec (byte_at s i) 0x80); [done|lia].
Qed.

Lemma ascii_span (s : list byte) (d : nat) (x : Z) :
  Forall (λ b, (Byte.to_N b < 128)%N) s →
  0 ≤ x → x + Z.of_nat d ≤ Z.of_nat (length s) →
  span u8_next s x (x + Z.of_nat d) (Z.of_nat d).
Proof.
  intros Hs. revert x. induction d as [|d IH]; intros x Hx Hd.
  - rewrite Z.add_0_r. apply span_here.
  - replace (Z.of_nat (S d)) with (Z.of_nat d + 1) by lia.
    apply span_next; [lia|]. rewrite u8_next_ascii by done. simpl.
    replace (x + (Z.of_nat d + 1)) with (x + 1 + Z.of_nat d) by lia.
    apply IH; lia.
Qed.

Lemma ascii_span_between (s : list byte) (x y : Z) :
  Forall (λ b, (Byte.to_N b < 128)%N) s →
  0 ≤ x ≤ y → y ≤ Z.of_nat (length s) →
  span u8_next s x y (y - x).
Proof.
  intros Hs Hxy Hy.
  replace y with (x + Z.of_nat (Z.to_nat (y - x))) at 1 by lia.
  replace (y - x) with (Z.of_nat (Z.to_nat (y - x))) at 2 by lia.
  apply ascii_span; [done|lia|lia].
Qed.

Lemma ascii_well_decoded (s : list byte) :
  Forall (λ b, (Byte.to_N b < 128)%N) s → well_decoded u8_next s.
Proof.
  intros Hs. split.
  - intros x _. apply u8_next_advances.
  - intros x m _ _. rewrite u8_next_ascii by done. simpl. apply byte_at_nonneg.
Qed.

(** The sample text of the specification meets both conditions under
    which the measured widths are code-point counts. *)
Example quick_brown_fox_well_formed :
  well_decoded u8_next (bytes "The quick brown fox jumps")
  ∧ well_segmented u8_next (bytes "The quick brown fox jumps") [0; 4; 10; 16; 20; 25].
Proof.
  assert (Forall (λ b, (Byte.to_N b < 128)%N) (bytes "The quick brown fox jumps")) as Hs.
  { repeat constructor. }
  split; [by apply ascii_well_decoded|].
  split; [done|]. split; [done|]. split.
  - intros k p Hp. do 6 (destruct k as [|k]; [injection Hp as <-; simpl; lia|]). done.
  - intros k p q Hp Hq.
    do 5 (destruct k as [|k];
      [injection Hp as <-; injection Hq as <-; split; [lia|];
       eexists; apply (ascii_span_between _ _ _ Hs); simpl; lia|]).
    destruct k; done.
Qed.

(** C2. When the iteration for a string with at least two boundaries
    completes, under either policy, its result is the lines that the
    break list of the selected planner cuts out of the string: line [i]
    is made of the words [a..b] of the [i]-th range and holds the bytes
    from the start of word [a] to the trimmed end of word [b].  The width
    of such a line, the original widths of the words [a..b-1] plus the
    trimmed width of word [b], is at most [width], unless the line is the
    single word [a = b] whose trimmed width alone exceeds [width].  On a
    well-formed string whose boundaries lie on code points, that width is
    the number of code points in the bytes of the line. *)
Theorem output_lines_fit {D : Type} `{DoubleOps D}
    (U8_NEXT : list byte → Z → Z → Z * Z)
    (line_boundaries : list byte → option (list Z))
    (width_val : Z) (exponent_val : D) (str_cur_s : list byte) (pos : list Z)
    (res : SEXP) :
  SignLaws exponent_val →
  line_boundaries str_cur_s = Some pos →
  (2 ≤ length pos)%nat →
  wrap_element U8_NEXT line_boundaries width_val exponent_val (Some str_cur_s) = Done res →
  ∃ st wrap lines,
    measure U8_NEXT str_cur_s pos (length pos) = Done st
    ∧ plan width_val exponent_val (length pos) (counts_orig st) (counts_trim st) = Some wrap
    ∧ res = STRSXP lines
    ∧ length lines = (length wrap + 1)%nat
    ∧ ∀ i a b,
        line_ranges 0 (push_back_last (length pos) wrap) !! i = Some (a, b) →
        (a ≤ b < length pos - 1)%nat
        ∧ (∃ start stop,
             line_start pos a = Some start ∧ end_pos_trim st !! b = Some stop
             ∧ lines !! i
               = Some (mkChar (take (Z.to_nat (stop - start))
                                 (drop (Z.to_nat start) str_cur_s)))
             ∧ (well_decoded U8_NEXT str_cur_s → well_segmented U8_NEXT str_cur_s pos →
                span U8_NEXT str_cur_s start stop
                  (line_sum (counts_orig st) (counts_trim st) a b)))
        ∧ (line_sum (counts_orig st) (counts_trim st) a b ≤ width_val
           ∨ (a = b ∧ width_val < count_at (counts_trim st) a)).
Proof.
  intros Hlaws Hpos Hlen. simpl. rewrite Hpos.
  destruct (Nat.leb_spec (length pos) 1); [lia|].
  destruct (measure U8_NEXT str_cur_s pos (length pos)) as [st| | |] eqn:Hst;
    cbn [mbind outcome_bind]; try done.
  destruct (plan _ _ _ _ _) as [wrap|] eqn:Hplan; cbn [defined mbind outcome_bind];
    [|done].
  destruct (build _ _ _ _ _) as [lines| | |] eqn:Hbuild; cbn [mbind outcome_bind];
    try done.
  intros [= <-]. exists st, wrap, lines.
  split; [done|]. split; [done|]. split; [done|].
  pose proof (measure_loop_lengths _ _ _ _ _ _ Hst) as (Ho & Ht & _).
  cbn [counts_orig counts_trim] in Ho, Ht. rewrite length_replicate in Ho, Ht.
  destruct (plan_layout width_val exponent_val (counts_orig st) (counts_trim st)
              (length pos - 1) Hlaws Ho Ht) as (wrap' & Hplan' & Hsi & Hbound & Hfit);
    [lia|].
  replace (length pos - 1 + 1)%nat with (length pos) in Hplan' by lia.
  rewrite Hplan in Hplan'. injection Hplan' as <-.
  apply (build_spec _ _ _ _ 0%nat) in Hbuild as (Hlines & _ & Hbytes); [|done].
  unfold allocVector_STRSXP in Hlines. rewrite length_replicate in Hlines.
  split; [done|]. intros i a b Hi.
  destruct (Hbytes i a b Hi) as (start & stop & Hstart & Hstop & Hline).
  unfold push_back_last in Hi.
  replace (length pos - 2)%nat with (length pos - 1 - 1)%nat in Hi by lia.
  apply list_elem_of_lookup_2 in Hi.
  apply (line_ranges_fit width_val (counts_orig st) (counts_trim st)) in Hi
    as [Hab Hfits]; [|done| |done].
  2:{ intros k Hk. apply Hbound in Hk. lia. }
  split; [lia|]. split.
  { exists start, stop. split; [done|]. split; [done|]. split; [done|].
    intros Hdec Hseg. apply (line_span U8_NEXT str_cur_s pos); [done| |lia|lia|done|done].
    by apply (measure_spans U8_NEXT str_cur_s pos). }
  destruct Hfits as [<-|Hle]; [|by left].
  rewrite line_sum_diag.
  destruct (Z.le_gt_cases (count_at (counts_trim st) a) width_val); [by left|right].
  split; [done|lia].
Qed.

Lemma output_lines_fit_witness :
  ∃ st wrap lines,
    measure u8_next (bytes "The quick brown fox jumps") [0; 4; 10; 16; 20; 25] 6 = Done st
    ∧ plan (D:=Z) 10 2 6 (counts_orig st) (counts_trim st) = Some wrap
    ∧ STRSXP [mkChar (bytes "The quick"); mkChar (bytes "brown");
              mkChar (bytes "fox jumps")] = STRSXP lines
    ∧ length lines = (length wrap + 1)%nat
    ∧ ∀ i a b,
        line_ranges 0 (push_back_last 6 wrap) !! i = Some (a, b) →
        (a ≤ b < 6 - 1)%nat
        ∧ (∃ start stop,
             line_start [0; 4; 10; 16; 20; 25] a = Some start
             ∧ end_pos_trim st !! b = Some stop
             ∧ lines !! i
               = Some (mkChar (take (Z.to_nat (stop - start))
                                 (drop (Z.to_nat start) (bytes "The quick brown fox jumps"))))
             ∧ span u8_next (bytes "The quick brown fox jumps") start stop
                 (line_sum (counts_orig st) (counts_trim st) a b))
        ∧ (line_sum (counts_orig st) (counts_trim st) a b ≤ 10
           ∨ (a = b ∧ 10 < count_at (counts_trim st) a)).
Proof.
  destruct (output_lines_fit (D:=Z) u8_next space_boundaries 10 2
              (bytes "The quick brown fox jumps") [0; 4; 10; 16; 20; 25]
              (STRSXP [mkChar (bytes "The quick"); mkChar (bytes "brown");
                       mkChar (bytes "fox jumps")]))
    as (st & wrap & lines & Hst & Hplan & Hres & Hlen & Hall).
  - apply ZDouble_laws.
  - reflexivity.
  - simpl. lia.
  - vm_compute. reflexivity.
  - exists st, wrap, lines. repeat (split; [assumption|]).
    intros i a b Hi.
    destruct (Hall i a b Hi) as (Hab & (start & stop & Hs & He & Hl & Hspan) & Hfit).
    split; [assumption|]. split; [|assumption].
    exists start, stop. repeat (split; [assumption|]).
    apply Hspan; apply quick_brown_fox_well_formed.
Defined.

(** * Further properties of the code *)

(** ** The scan of [stri_wrap] *)

(** X1. Whatever the decoder and the boundaries are, a scan that completes
    leaves three vectors of [noccurences-1] entries, and for every word a
    trimmed width between 0 and the original width. *)
Theorem scan_counts_bounded (U8_NEXT : list byte → Z → Z → Z * Z)
    (str_cur_s : list byte) (pos : list Z) (noccurences : nat) (st : scan_state) :
  measure U8_NEXT str_cur_s pos noccurences = Done st →
  length (counts_orig st) = (noccurences - 1)%nat
  ∧ length (counts_trim st) = (noccurences - 1)%nat
  ∧ length (end_pos_trim st) = (noccurences - 1)%nat
  ∧ ∀ k o t, counts_orig st !! k = Some o → counts_trim st !! k = Some t → 0 ≤ t ≤ o.
Proof.
  intros Hst.
  pose proof (measure_loop_lengths _ _ _ _ _ _ Hst) as (Ho & Ht & He).
  cbn [counts_orig counts_trim end_pos_trim] in Ho, Ht, He.
  rewrite length_replicate in Ho, Ht, He.
  repeat (split; [done|]). intros k o t Hko Hkt.
  pose proof (measured_counts_ok _ _ _ _ _ Hst k) as Hk.
  unfold count_at in Hk. rewrite Hko, Hkt in Hk. done.
Qed.

Lemma scan_counts_bounded_witness :
  ∃ st,
    measure u8_next (bytes "The quick  brown fox ") [0; 4; 11; 17; 21] 5 = Done st
    ∧ length (counts_orig st) = (5 - 1)%nat
    ∧ length (counts_trim st) = (5 - 1)%nat
    ∧ length (end_pos_trim st) = (5 - 1)%nat
    ∧ ∀ k o t, counts_orig st !! k = Some o → counts_trim st !! k = Some t → 0 ≤ t ≤ o.
Proof.
  eexists. split; [vm_compute; reflexivity|].
  apply (scan_counts_bounded u8_next (bytes "The quick  brown fox ") [0; 4; 11; 17; 21] 5).
  vm_compute. reflexivity.
Defined.

Lemma build_fuel (str_cur_s : list byte) (pos e_trim : list Z) (wrap : list nat)
    (st : nat * Z * list CHARSXP) :
  build str_cur_s pos e_trim wrap st ≠ OutOfFuel.
Proof.
  revert st. induction wrap as [|w wrap IH]; intros [[jj last_pos] ans]; simpl; [done|].
  destruct (e_trim !! w) as [cur_pos|]; cbn [defined mbind outcome_bind]; [|done].
  unfold Rf_mkCharLenCE. destruct (_ && _); cbn [mbind outcome_bind]; [|done].
  destruct (vec_set ans jj _); cbn [defined mbind outcome_bind]; [|done].
  destruct (pos !! (w + 1)%nat); cbn [defined mbind outcome_bind]; [|done].
  apply IH.
Qed.

Lemma wrap_element_fuel {D : Type} `{DoubleOps D}
    (U8_NEXT : list byte → Z → Z → Z * Z)
    (line_boundaries : list byte → option (list Z))
    (width_val : Z) (exponent_val : D) (str_i : option (list byte)) :
  (∀ s i, 0 ≤ i < Z.of_nat (length s) → i < (U8_NEXT s i (Z.of_nat (length s))).1) →
  wrap_element U8_NEXT line_boundaries width_val exponent_val str_i ≠ OutOfFuel.
Proof.
  intros Hadv. destruct str_i as [s|]; simpl; [|done].
  destruct (line_boundaries s) as [pos|]; [|done].
  destruct (length pos <=? 1)%nat; [done|].
  pose proof (measure_loop_enough_fuel U8_NEXT s pos (length s)
                (ScanState 0 0 0 0 0 (replicate (length pos - 1) 0)
                   (replicate (length pos - 1) 0) (replicate (length pos - 1) 0)
                   R_NilValue) (Hadv s)) as Hfuel.
  fold (measure U8_NEXT s pos (length pos)) in Hfuel.
  destruct (measure U8_NEXT s pos (length pos)) as [st| | |];
    cbn [mbind outcome_bind]; try done.
  2:{ exfalso. apply Hfuel; simpl; [lia|lia|done]. }
  destruct (plan _ _ _ _ _) as [wrap|]; cbn [defined mbind outcome_bind]; [|done].
  pose proof (build_fuel s pos (end_pos_trim st) (push_back_last (length pos) wrap)
                (0%nat, 0, allocVector_STRSXP (length wrap + 1))) as Hb.
  destruct (build _ _ _ _ _); cbn [mbind outcome_bind]; done.
Qed.

(** X2. The scanning loop terminates: with a decoder that advances on
    every call, as [U8_NEXT] does, no string of the argument makes the
    scan run beyond as many steps as the string has bytes. *)
Theorem scan_terminates {D : Type} `{DoubleOps D}
    (U8_NEXT : list byte → Z → Z → Z * Z)
    (line_boundaries : list byte → option (list Z))
    (str : list (option (list byte))) (width_val : Z) (exponent_val : D) :
  (∀ s i, 0 ≤ i < Z.of_nat (length s) → i < (U8_NEXT s i (Z.of_nat (length s))).1) →
  stri_wrap U8_NEXT line_boundaries str width_val exponent_val ≠ OutOfFuel.
Proof.
  intros Hadv. unfold stri_wrap. destruct (width_val <=? 0); [done|].
  assert (∀ i ret, wrap_elements U8_NEXT line_boundaries width_val exponent_val str i ret
                   ≠ OutOfFuel) as Hall.
  { induction str as [|str_i str IH]; intros i ret; simpl; [done|].
    pose proof (wrap_element_fuel U8_NEXT line_boundaries width_val exponent_val str_i Hadv).
    destruct (wrap_element _ _ _ _ str_i); cbn [mbind outcome_bind]; try done.
    destruct (vec_set ret i a); cbn [defined mbind outcome_bind]; [apply IH|done]. }
  specialize (Hall 0%nat (allocVector_VECSXP (length str))).
  destruct (wrap_elements _ _ _ _ _ _ _); cbn [mbind outcome_bind]; done.
Qed.

Lemma scan_terminates_witness :
  stri_wrap (D:=Z) u8_next space_boundaries
    [Some (bytes "The quick brown fox jumps"); Some [xff; x20; xc3]] 10 2 ≠ OutOfFuel.
Proof.
  apply (scan_terminates (D:=Z) u8_next space_boundaries).
  intros s i _. apply u8_next_advances.
Defined.

(** ** The loop of [stri_wrap] over the strings *)

Lemma wrap_elements_completes {D : Type} `{DoubleOps D} U8_NEXT line_boundaries width_val
    (exponent_val : D) (str : list (option (list byte))) (i : nat) (ret : list SEXP) :
  Forall (λ x, ∃ elt,
            wrap_element U8_NEXT line_boundaries width_val exponent_val x = Done elt) str →
  (i + length str ≤ length ret)%nat →
  ∃ ret', wrap_elements U8_NEXT line_boundaries width_val exponent_val str i ret = Done ret'.
Proof.
  intros Hall. revert i ret.
  induction Hall as [|str_i str [elt Helt] _ IH]; intros i ret Hlen; simpl; [eauto|].
  rewrite Helt. cbn [mbind outcome_bind]. simpl in Hlen.
  rewrite vec_set_Some by lia. cbn [defined mbind outcome_bind].
  apply IH. rewrite length_insert. lia.
Qed.

(** X3. [stri_wrap] works element by element: the call returns a list
    exactly when the width is positive and every string of the argument
    is processed to the end, and then the list has one element per
    string, in order, each element being what the loop body computes for
    that string alone (one NA line for an NA string). *)
Theorem stri_wrap_elementwise {D : Type} `{DoubleOps D}
    (U8_NEXT : list byte → Z → Z → Z * Z)
    (line_boundaries : list byte → option (list Z))
    (str : list (option (list byte))) (width_val : Z) (exponent_val : D) (res : SEXP) :
  stri_wrap U8_NEXT line_boundaries str width_val exponent_val = Done res
  ↔ 0 < width_val
    ∧ ∃ ret, res = VECSXP ret
        ∧ Forall2 (λ str_i elt,
                     wrap_element U8_NEXT line_boundaries width_val exponent_val str_i
                     = Done elt
                     ∧ (str_i = None → elt = STRSXP [NA_STRING])) str ret.
Proof.
  unfold stri_wrap. destruct (Z.leb_spec width_val 0) as [Hw|Hw].
  { split; [done|]. intros [? _]. lia. }
  assert (∀ ret,
    wrap_elements U8_NEXT line_boundaries width_val exponent_val str 0
      (allocVector_VECSXP (length str)) = Done ret →
    Forall2 (λ str_i elt,
               wrap_element U8_NEXT line_boundaries width_val exponent_val str_i = Done elt
               ∧ (str_i = None → elt = STRSXP [NA_STRING])) str ret) as Hfwd.
  { intros ret Hret. apply wrap_elements_spec in Hret as (Hlen & _ & Helts).
    unfold allocVector_VECSXP in Hlen. rewrite length_replicate in Hlen.
    apply Forall2_same_length_lookup_2; [done|].
    intros k str_k elt Hk Helt. destruct (Helts k str_k Hk) as (elt' & Hdone & Hk').
    simpl in Hk'. rewrite Helt in Hk'. injection Hk' as <-. split; [done|].
    intros ->. simpl in Hdone. by injection Hdone as <-. }
  split.
  - destruct (wrap_elements _ _ _ _ _ _ _) as [ret| | |] eqn:Hret;
      cbn [mbind outcome_bind]; try done.
    intros [= <-]. split; [done|]. exists ret. split; [done|]. by apply Hfwd.
  - intros (_ & ret & -> & Hall).
    destruct (wrap_elements_completes U8_NEXT line_boundaries width_val exponent_val str 0
                (allocVector_VECSXP (length str))) as (ret' & Hret').
    { eapply Forall2_Forall_l; [apply Hall|]. apply Forall_forall.
      intros elt _ str_i [Hdone _]. eauto. }
    { unfold allocVector_VECSXP. rewrite length_replicate. lia. }
    rewrite Hret'. cbn [mbind outcome_bind]. do 2 f_equal.
    apply Hfwd in Hret'.
    apply list_eq_same_length with (length str).
    + by apply Forall2_length in Hall.
    + by apply Forall2_length in Hret'.
    + intros k x y Hk Hx Hy.
      destruct (lookup_lt_is_Some_2 str k Hk) as [str_k Hstr].
      destruct (Forall2_lookup_lr _ _ _ _ _ _ Hret' Hstr Hx) as [Hdx _].
      destruct (Forall2_lookup_lr _ _ _ _ _ _ Hall Hstr Hy) as [Hdy _].
      rewrite Hdx in Hdy. by injection Hdy.
Qed.

Lemma wrap_elements_stops {D : Type} `{DoubleOps D} U8_NEXT line_boundaries width_val
    (exponent_val : D) (pre post : list (option (list byte)))
    (str_i : option (list byte)) (i : nat) (ret : list SEXP) :
  Forall (λ x, ∃ elt,
            wrap_element U8_NEXT line_boundaries width_val exponent_val x = Done elt) pre →
  (i + length pre ≤ length ret)%nat →
  (∀ elt, wrap_element U8_NEXT line_boundaries width_val exponent_val str_i ≠ Done elt) →
  (ret' ← wrap_elements U8_NEXT line_boundaries width_val exponent_val
            (pre ++ str_i :: post) i ret;
   Done (VECSXP ret'))
  = wrap_element U8_NEXT line_boundaries width_val exponent_val str_i.
Proof.
  intros Hall Hlen Hfail. revert i ret Hlen.
  induction Hall as [|x pre [elt Helt] _ IH]; intros i ret Hlen; simpl.
  - destruct (wrap_element _ _ _ _ str_i) as [e| | |]; cbn [mbind outcome_bind];
      try done.
    by destruct (Hfail e).
  - rewrite Helt. cbn [mbind outcome_bind]. simpl in Hlen.
    rewrite vec_set_Some by lia. cbn [defined mbind outcome_bind].
    apply IH. rewrite length_insert. lia.
Qed.

(** X4. The first string whose processing does not complete decides the
    call: when the strings before it are processed normally, the call ends
    exactly as the processing of that string does (an ICU failure of the
    segmenter, a forbidden line break, an out-of-range access), whatever
    strings follow, and no partial list is returned. *)
Theorem stri_wrap_first_failure {D : Type} `{DoubleOps D}
    (U8_NEXT : list byte → Z → Z → Z * Z)
    (line_boundaries : list byte → option (list Z))
    (width_val : Z) (exponent_val : D)
    (pre post : list (option (list byte))) (str_i : option (list byte)) :
  0 < width_val →
  Forall (λ x, ∃ elt,
            wrap_element U8_NEXT line_boundaries width_val exponent_val x = Done elt) pre →
  (∀ elt, wrap_element U8_NEXT line_boundaries width_val exponent_val str_i ≠ Done elt) →
  stri_wrap U8_NEXT line_boundaries (pre ++ str_i :: post) width_val exponent_val
  = wrap_element U8_NEXT line_boundaries width_val exponent_val str_i
  ∧ (∀ s, str_i = Some s → line_boundaries s = None →
       stri_wrap U8_NEXT line_boundaries (pre ++ str_i :: post) width_val exponent_val
       = Error ICU_FAILURE).
Proof.
  intros Hw Hpre Hfail.
  assert (stri_wrap U8_NEXT line_boundaries (pre ++ str_i :: post) width_val exponent_val
          = wrap_element U8_NEXT line_boundaries width_val exponent_val str_i) as Heq.
  { unfold stri_wrap. destruct (Z.leb_spec width_val 0); [lia|].
    apply wrap_elements_stops; [done| |done].
    unfold allocVector_VECSXP. rewrite length_replicate, length_app. lia. }
  split; [done|]. intros s -> Hs. rewrite Heq. simpl. by rewrite Hs.
Qed.

Lemma stri_wrap_first_failure_witness :
  stri_wrap (D:=Z) u8_next failing_boundaries
    ([Some (bytes "a a"); None] ++ Some [] :: [Some (bytes "c")]) 10 0
  = wrap_element (D:=Z) u8_next failing_boundaries 10 0 (Some [])
  ∧ (∀ s, Some [] = Some s → failing_boundaries s = None →
       stri_wrap (D:=Z) u8_next failing_boundaries
         ([Some (bytes "a a"); None] ++ Some [] :: [Some (bytes "c")]) 10 0
       = Error ICU_FAILURE).
Proof.
  apply (stri_wrap_first_failure (D:=Z) u8_next failing_boundaries 10 0
           [Some (bytes "a a"); None] [Some (bytes "c")] (Some [])).
  - lia.
  - repeat constructor; eexists; vm_compute; reflexivity.
  - intros elt. vm_compute. discriminate.
Defined.

(** ** The planners *)

Lemma greedy_iter_prefix (width_val : Z) (counts_orig counts_trim : list Z)
    (js : list nat) (cur_len : Z) (wrap0 wrap : list nat) :
  iterM (greedy_step width_val counts_orig counts_trim) js (cur_len, wrap0 ++ wrap)
  = (λ st : Z * list nat, (st.1, wrap0 ++ st.2))
      <$> iterM (greedy_step width_val counts_orig counts_trim) js (cur_len, wrap).
Proof.
  revert cur_len wrap. induction js as [|j js IH]; intros cur_len wrap; simpl; [done|].
  destruct (counts_trim !! j) as [t|]; cbn [mbind option_bind]; [|done].
  destruct (counts_orig !! j) as [o|]; cbn [mbind option_bind]; [|done].
  destruct (cur_len + t >? width_val); [|apply IH].
  rewrite <- app_assoc. apply IH.
Qed.

Lemma collect_iter_prefix (n : nat) (where_ : list bool) (js : list nat)
    (wrap0 wrap : list nat) :
  iterM (collect n where_) js (wrap0 ++ wrap)
  = (λ r, wrap0 ++ r) <$> iterM (collect n where_) js wrap.
Proof.
  revert wrap. induction js as [|j js IH]; intros wrap; simpl; [done|].
  unfold collect at 1 3.
  destruct (where_ !! IDX n j (n - 1)) as [[|]|]; cbn [mbind option_bind];
    [|apply IH|done].
  rewrite <- app_assoc. apply IH.
Qed.

(** X5. Both planners only append to the deque [wrap] they are given:
    the result is the deque as it was, followed by the breaks computed for
    an empty deque; they fail on the same inputs. *)
Theorem planners_append {D : Type} `{DoubleOps D} (wrap : list nat) (noccurences : nat)
    (width_val : Z) (exponent_val : D) (counts_orig counts_trim : list Z) :
  stri__wrap_greedy wrap noccurences width_val counts_orig counts_trim
  = (λ r, wrap ++ r)
      <$> stri__wrap_greedy [] noccurences width_val counts_orig counts_trim
  ∧ stri__wrap_dynamic wrap noccurences width_val exponent_val counts_orig counts_trim
    = (λ r, wrap ++ r)
        <$> stri__wrap_dynamic [] noccurences width_val exponent_val counts_orig counts_trim.
Proof.
  split.
  - unfold stri__wrap_greedy.
    destruct (counts_orig !! 0%nat) as [cur_len|]; cbn [mbind option_bind]; [|done].
    unfold for_loop.
    pose proof (greedy_iter_prefix width_val counts_orig counts_trim
                  (seq 1 (noccurences - 1 - 1)) cur_len wrap []) as Hpre.
    rewrite app_nil_r in Hpre. rewrite Hpre.
    by destruct (iterM _ _ (cur_len, [])) as [[c r]|].
  - unfold stri__wrap_dynamic.
    destruct (cost_matrix _ _ _ _ _) as [cost|]; cbn [mbind option_bind]; [|done].
    destruct (plan_columns _ _) as [fw|]; cbn [mbind option_bind]; [|done].
    unfold for_loop.
    pose proof (collect_iter_prefix (noccurences - 1) fw.2
                  (seq 0 (noccurences - 1 - 0)) wrap []) as Hpre.
    rewrite app_nil_r in Hpre. done.
Qed.

Lemma blocked_mono (width_val : Z) (counts_orig counts_trim : list Z) (i j j' : nat) :
  (j ≤ j')%nat →
  blocked width_val counts_orig counts_trim i j = true →
  blocked width_val counts_orig counts_trim i j' = true.
Proof.
  intros Hle Hb. induction Hle as [|j' Hle IH]; [done|].
  destruct (decide (i < S j')%nat) as [Hi|Hi].
  - rewrite blocked_step by done. replace (S j' - 1)%nat with j' by lia.
    by rewrite IH.
  - unfold blocked in Hb. replace (j - i)%nat with 0%nat in Hb by lia. done.
Qed.

(** X6. Every row of the cost matrix is a run of feasible entries followed
    by sentinels, for any counts: the diagonal entry is never negative,
    and once an entry of row [i] is negative, every later entry of the row
    is the sentinel [-1.0]. *)
Theorem cost_rows_stay_infeasible {D : Type} `{DoubleOps D} (width_val : Z)
    (exponent_val : D) (counts_orig counts_trim : list Z) (n : nat) :
  SignLaws exponent_val →
  length counts_orig = n → length counts_trim = n →
  ∃ cost,
    cost_matrix width_val exponent_val counts_orig counts_trim n = Some cost
    ∧ (∀ i, (i < n)%nat →
         ∃ c, cost !! IDX n i i = Some c ∧ dltb c (dofZ 0) = false)
    ∧ (∀ i j j' c, (i ≤ j ≤ j')%nat → (j' < n)%nat →
         cost !! IDX n i j = Some c → dltb c (dofZ 0) = true →
         cost !! IDX n i j' = Some (dofZ (-1))).
Proof.
  intros Hlaws Ho Ht.
  destruct (cost_matrix_spec width_val exponent_val counts_orig counts_trim Hlaws n Ho Ht)
    as (cost & Hcost & _ & Hcells).
  exists cost. split; [done|]. split.
  - intros i Hi. eexists. split; [apply Hcells; lia|].
    destruct (cell_sign width_val exponent_val counts_orig counts_trim Hlaws i i)
      as [-> _]; [lia|].
    by rewrite Nat.eqb_refl.
  - intros i j j' c Hij Hj' Hc Hneg.
    rewrite Hcells in Hc by lia. injection Hc as <-.
    destruct (cell_sign width_val exponent_val counts_orig counts_trim Hlaws i j)
      as [Hlt _]; [lia|].
    rewrite Hlt in Hneg. apply andb_true_iff in Hneg as [Hne Hblk].
    apply negb_true_iff, Nat.eqb_neq in Hne.
    rewrite Hcells by lia. unfold cell_value.
    rewrite (blocked_mono width_val counts_orig counts_trim i j j') by (done || lia).
    destruct (Nat.eqb_spec j' i); [lia|done].
Qed.

Lemma cost_rows_stay_infeasible_witness :
  ∃ cost,
    cost_matrix (D:=Z) 10 2 [4; 9; -30; 4] [3; 8; -30; 3] 4 = Some cost
    ∧ (∀ i, (i < 4)%nat →
         ∃ c, cost !! IDX 4 i i = Some c ∧ dltb c (dofZ 0) = false)
    ∧ (∀ i j j' c, (i ≤ j ≤ j')%nat → (j' < 4)%nat →
         cost !! IDX 4 i j = Some c → dltb c (dofZ 0) = true →
         cost !! IDX 4 i j' = Some (dofZ (-1))).
Proof.
  apply (cost_rows_stay_infeasible (D:=Z) 10 2 [4; 9; -30; 4] [3; 8; -30; 3] 4).
  - apply ZDouble_laws.
  - reflexivity.
  - reflexivity.
Defined.

Lemma prefix_not_blocked (width_val : Z) (counts_orig counts_trim : list Z) (n j : nat) :
  (∀ k, 0 ≤ count_at counts_trim k ≤ count_at counts_orig k) →
  line_sum counts_orig counts_trim 0 (n - 1) ≤ width_val →
  (j < n)%nat →
  line_sum counts_orig counts_trim 0 j ≤ width_val
  ∧ blocked width_val counts_orig counts_trim 0 j = false.
Proof.
  intros Hcounts Hfit Hj.
  pose proof (line_sum_mono counts_orig counts_trim 0 j (n - 1) Hcounts) as Hmono.
  split; [lia|]. destruct j as [|j]; [apply blocked_diag|].
  rewrite blocked_too_wide by (done || lia).
  destruct (Z.gtb_spec (line_sum counts_orig counts_trim 0 (S j)) width_val); [lia|done].
Qed.

(** X7. When all the words fit on one line (counts with
    [0 <= trimmed <= original], the original widths of all words but the
    last plus the trimmed width of the last at most [width_val]), neither
    policy places a break. *)
Theorem one_line_when_all_fits {D : Type} `{DoubleOps D} (width_val : Z)
    (exponent_val : D) (counts_orig counts_trim : list Z) (n : nat) :
  SignLaws exponent_val →
  length counts_orig = n → length counts_trim = n → (1 ≤ n)%nat →
  (∀ k, 0 ≤ count_at counts_trim k ≤ count_at counts_orig k) →
  line_sum counts_orig counts_trim 0 (n - 1) ≤ width_val →
  stri__wrap_greedy [] (n + 1) width_val counts_orig counts_trim = Some []
  ∧ stri__wrap_dynamic [] (n + 1) width_val exponent_val counts_orig counts_trim = Some [].
Proof.
  intros Hlaws Ho Ht Hn Hcounts Hfit. split.
  - unfold stri__wrap_greedy.
    rewrite (lookup_count_at counts_orig 0) by lia. cbn [mbind option_bind].
    replace (n + 1 - 1)%nat with n by lia.
    destruct (for_loop_inv
      (λ (k : nat) (st : Z * list nat), st = (zsum (take k counts_orig), []))
      1 n (greedy_step width_val counts_orig counts_trim) (count_at counts_orig 0, []))
      as (st & -> & ->); [lia| | |done].
    + by rewrite <- (zsum_take_1 counts_orig 0), drop_0.
    + intros k st Hk ->. unfold greedy_step.
      rewrite (lookup_count_at counts_trim k), (lookup_count_at counts_orig k) by lia.
      cbn [mbind option_bind].
      destruct (prefix_not_blocked width_val counts_orig counts_trim n k Hcounts Hfit)
        as [Hle _]; [lia|].
      unfold line_sum in Hle. rewrite Nat.sub_0_r, drop_0 in Hle.
      destruct (Z.gtb_spec (zsum (take k counts_orig) + count_at counts_trim k) width_val);
        [lia|].
      eexists. split; [done|]. by rewrite zsum_take_S.
  - unfold stri__wrap_dynamic. replace (n + 1 - 1)%nat with n by lia.
    destruct (cost_matrix_spec width_val exponent_val counts_orig counts_trim Hlaws n Ho Ht)
      as (cost & -> & _ & Hcells).
    cbn [mbind option_bind]. unfold plan_columns.
    destruct (for_loop_inv
      (λ (j : nat) (st : list D * list bool),
         length st.1 = n ∧ st.2 = replicate (n * n) false)
      0 n (plan_column n cost) (replicate n (dofZ 0), replicate (n * n) false))
      as ([f where_] & -> & _ & Hwhere); [lia| | |].
    + split; [apply length_replicate|done].
    + intros j [f where_] Hj [Hf Hw]. cbn [fst snd] in Hf, Hw. unfold plan_column.
      rewrite Hcells by lia. cbn [mbind option_bind].
      destruct (cell_sign width_val exponent_val counts_orig counts_trim Hlaws 0 j)
        as [_ ->]; [lia|].
      destruct (prefix_not_blocked width_val counts_orig counts_trim n j Hcounts Hfit)
        as [_ ->]; [lia|].
      rewrite andb_false_r. cbn [negb].
      rewrite vec_set_Some by lia. cbn [mbind option_bind].
      eexists. split; [done|]. cbn [fst snd]. by rewrite length_insert.
    + cbn [mbind option_bind fst snd] in *. subst where_.
      destruct (collect_loop_spec n (replicate (n * n) false)) as (wrap & -> & _ & Hmem).
      { apply length_replicate. }
      destruct wrap as [|k wrap]; [done|].
      destruct (Hmem k) as [Hk _]. destruct Hk as [Hk Hbrk]; [left|].
      unfold breaks_at in Hbrk. rewrite lookup_replicate_2 in Hbrk; [done|].
      apply IDX_lt; lia.
Qed.

Lemma one_line_when_all_fits_witness :
  stri__wrap_greedy [] (3 + 1) 14 [4; 6; 8] [3; 5; 4] = Some []
  ∧ stri__wrap_dynamic (D:=Z) [] (3 + 1) 14 2 [4; 6; 8] [3; 5; 4] = Some [].
Proof.
  apply (one_line_when_all_fits (D:=Z) 14 2 [4; 6; 8] [3; 5; 4] 3).
  - apply ZDouble_laws.
  - reflexivity.
  - reflexivity.
  - lia.
  - intros [|[|[|k]]]; vm_compute; split; discriminate.
  - vm_compute. discriminate.
Defined.

Lemma greedy_step_forced (width_val : Z) (counts_orig counts_trim : list Z)
    (k : nat) (st : Z * list nat) :
  (1 ≤ k)%nat → (k < length counts_orig)%nat → (k < length counts_trim)%nat →
  greedy_inv width_val counts_orig counts_trim k st →
  (∀ a b, is_line (λ x, x ∈ st.2) (k - 1) a b → (b < k - 1)%nat →
          width_val < line_sum counts_orig counts_trim a (b + 1)) →
  ∃ st', greedy_step width_val counts_orig counts_trim k st = Some st'
         ∧ greedy_inv width_val counts_orig counts_trim (S k) st'
         ∧ ∀ a b, is_line (λ x, x ∈ st'.2) (S k - 1) a b → (b < S k - 1)%nat →
                  width_val < line_sum counts_orig counts_trim a (b + 1).
Proof.
  intros Hk Ho Ht Hinv Hforced.
  destruct (greedy_step_inv width_val counts_orig counts_trim k st Hk Ho Ht Hinv)
    as (st' & Hstep & Hinv').
  exists st'. split; [done|]. split; [done|].
  destruct st as [cur_len wrap].
  destruct Hinv as (_ & Hbound & _ & a0 & Hlast & Hcur). cbn [fst snd] in *.
  unfold greedy_step in Hstep.
  rewrite (lookup_count_at counts_trim k Ht), (lookup_count_at counts_orig k Ho) in Hstep.
  cbn [mbind option_bind] in Hstep.
  replace (S k - 1)%nat with k by lia.
  destruct (Z.gtb_spec (cur_len + count_at counts_trim k) width_val) as [Hwide|Hok];
    injection Hstep as <-; cbn [snd]; intros a b (Hab & Ha & Hb & Hno) Hbk.
  - destruct (decide (b = k - 1)%nat) as [->|Hne].
    + assert (a = a0) as ->.
      { apply (is_line_last_unique (λ x, x ∈ wrap) (k - 1)); [|done].
        split; [lia|]. split; [|split; [by left|]].
        - destruct Ha as [->|[Ha1 Ha]]; [by left|right]. split; [done|].
          apply elem_of_app in Ha as [Ha|Ha]; [done|].
          apply list_elem_of_singleton in Ha. lia.
        - intros x Hx Hin. apply (Hno x Hx). apply elem_of_app. by left. }
      replace (k - 1 + 1)%nat with k by lia. unfold line_sum. rewrite <- Hcur. lia.
    + apply Hforced; [|lia]. split; [lia|]. split; [|split].
      * destruct Ha as [->|[Ha1 Ha]]; [by left|right]. split; [done|].
        apply elem_of_app in Ha as [Ha|Ha]; [done|].
        apply list_elem_of_singleton in Ha. lia.
      * right. destruct Hb as [->|Hb]; [lia|].
        apply elem_of_app in Hb as [Hb|Hb]; [done|].
        apply list_elem_of_singleton in Hb. lia.
      * intros x Hx Hin. apply (Hno x Hx). apply elem_of_app. by left.
  - destruct Hb as [->|Hb]; [lia|]. pose proof (Hbound b Hb).
    apply Hforced; [|lia]. split; [lia|]. split; [done|]. split; [by right|done].
Qed.

(** The greedy layout with all it guarantees: increasing breaks before the
    last word, lines that fit, and no line that could take one more word. *)
Lemma greedy_layout_forced (width_val : Z) (counts_orig counts_trim : list Z) (n : nat) :
  length counts_orig = n → length counts_trim = n → (1 ≤ n)%nat →
  ∃ wrap,
    stri__wrap_greedy [] (n + 1) width_val counts_orig counts_trim = Some wrap
    ∧ strictly_increasing wrap
    ∧ (∀ k, k ∈ wrap → (k + 1 < n)%nat)
    ∧ ∀ a b, is_line (λ k, k ∈ wrap) (n - 1) a b → (b < n - 1)%nat →
             width_val < line_sum counts_orig counts_trim a (b + 1).
Proof.
  intros Ho Ht Hn. unfold stri__wrap_greedy.
  rewrite (lookup_count_at counts_orig 0) by lia. cbn [mbind option_bind].
  replace (n + 1 - 1)%nat with n by lia.
  destruct (for_loop_inv
    (λ (k : nat) (st : Z * list nat),
       greedy_inv width_val counts_orig counts_trim k st
       ∧ ∀ a b, is_line (λ x, x ∈ st.2) (k - 1) a b → (b < k - 1)%nat →
                width_val < line_sum counts_orig counts_trim a (b + 1))
    1 n (greedy_step width_val counts_orig counts_trim) (count_at counts_orig 0, []))
    as ([cur_len wrap] & -> & (Hsi & Hbound & _) & Hforced); [lia| | |].
  - split.
    + split; [apply strictly_increasing_nil|]. split; [|split]; cbn [fst snd].
      * intros x Hx. by apply not_elem_of_nil in Hx.
      * intros a b (Hab & _). left. lia.
      * exists 0%nat. split.
        -- split; [lia|]. split; [by left|]. split; [by left|]. intros k Hk. lia.
        -- by rewrite zsum_take_1.
    + intros a b _ Hb. lia.
  - intros k t Hk [Hinv Hforced].
    destruct (greedy_step_forced width_val counts_orig counts_trim k t) as (t' & ? & ? & ?);
      [lia|lia|lia|done|done|eauto].
  - cbn [mbind option_bind fst snd] in *. eauto 10.
Qed.

(** X8. The greedy policy breaks only where it must: in its layout every
    line but the last could not take the word that follows it, since the
    line extended by that word (trimmed) is wider than [width_val]. *)
Theorem greedy_breaks_are_forced (width_val : Z) (counts_orig counts_trim : list Z)
    (n : nat) :
  length counts_orig = n → length counts_trim = n → (1 ≤ n)%nat →
  ∃ wrap,
    stri__wrap_greedy [] (n + 1) width_val counts_orig counts_trim = Some wrap
    ∧ ∀ a b, is_line (λ k, k ∈ wrap) (n - 1) a b → (b < n - 1)%nat →
             width_val < line_sum counts_orig counts_trim a (b + 1).
Proof.
  intros Ho Ht Hn.
  destruct (greedy_layout_forced width_val counts_orig counts_trim n Ho Ht Hn)
    as (wrap & Hwrap & _ & _ & Hforced).
  exists wrap. split; [done|]. intros a b Hline Hb. by apply Hforced.
Qed.

Lemma greedy_breaks_are_forced_witness :
  ∃ wrap,
    stri__wrap_greedy [] (5 + 1) 10 [4; 6; 6; 4; 5] [3; 5; 5; 3; 5] = Some wrap
    ∧ ∀ a b, is_line (λ k, k ∈ wrap) (5 - 1) a b → (b < 5 - 1)%nat →
             10 < line_sum [4; 6; 6; 4; 5] [3; 5; 5; 3; 5] a (b + 1).
Proof.
  apply (greedy_breaks_are_forced 10 [4; 6; 6; 4; 5] [3; 5; 5; 3; 5] 5).
  - reflexivity.
  - reflexivity.
  - lia.
Defined.

(** ** What the scan measures *)

Lemma span_bytes (U8_NEXT : list byte → Z → Z → Z * Z) (s : list byte) (x y m : Z) :
  (∀ x, 0 ≤ x < Z.of_nat (length s) → x < (U8_NEXT s x (Z.of_nat (length s))).1) →
  span U8_NEXT s x y m → 0 ≤ m ≤ y - x.
Proof.
  intros Hadv Hspan. induction Hspan as [x|x y m Hx Hspan IH]; [lia|].
  pose proof (Hadv x Hx). lia.
Qed.

(** X9. On a well-formed string whose boundaries lie on code points, the
    scan measures every word in code points: the original width is the
    number of code points between the two boundaries of the word, the
    trimmed width the number of code points up to the trimmed end, which
    lies inside the word; no width exceeds the byte length of the word. *)
Theorem words_measured_in_code_points (U8_NEXT : list byte → Z → Z → Z * Z)
    (s : list byte) (pos : list Z) (st : scan_state) :
  well_decoded U8_NEXT s → well_segmented U8_NEXT s pos → (2 ≤ length pos)%nat →
  measure U8_NEXT s pos (length pos) = Done st →
  ∀ k, (k + 1 < length pos)%nat →
    ∃ p q e o t,
      pos !! k = Some p ∧ pos !! (k + 1)%nat = Some q
      ∧ end_pos_trim st !! k = Some e
      ∧ counts_orig st !! k = Some o ∧ counts_trim st !! k = Some t
      ∧ span U8_NEXT s p q o ∧ span U8_NEXT s p e t
      ∧ p ≤ e ≤ q ∧ 0 ≤ t ≤ o ∧ o ≤ q - p.
Proof.
  intros Hdec Hseg Hlen Hst k Hk.
  destruct (measure_spans U8_NEXT s pos Hdec Hseg Hlen st Hst k Hk)
    as (p & q & e & Hp & Hq & He & Heq & Ho & Ht).
  pose proof (measure_loop_lengths _ _ _ _ _ _ Hst) as (Hlo & Hlt & _).
  cbn [counts_orig counts_trim] in Hlo, Hlt. rewrite length_replicate in Hlo, Hlt.
  pose proof (measured_counts_ok _ _ _ _ _ Hst k) as Hcounts.
  destruct Hdec as [Hadv _].
  pose proof (span_bytes U8_NEXT s _ _ _ Hadv Ho).
  pose proof (span_bytes U8_NEXT s _ _ _ Hadv Ht).
  exists p, q, e, (count_at (counts_orig st) k), (count_at (counts_trim st) k).
  repeat (split; [done || (apply lookup_count_at; lia) || lia|]). lia.
Qed.

Lemma words_measured_in_code_points_witness :
  ∃ st,
    measure u8_next (bytes "The quick brown fox jumps") [0; 4; 10; 16; 20; 25] 6 = Done st
    ∧ ∀ k, (k + 1 < 6)%nat →
        ∃ p q e o t,
          [0; 4; 10; 16; 20; 25] !! k = Some p
          ∧ [0; 4; 10; 16; 20; 25] !! (k + 1)%nat = Some q
          ∧ end_pos_trim st !! k = Some e
          ∧ counts_orig st !! k = Some o ∧ counts_trim st !! k = Some t
          ∧ span u8_next (bytes "The quick brown fox jumps") p q o
          ∧ span u8_next (bytes "The quick brown fox jumps") p e t
          ∧ p ≤ e ≤ q ∧ 0 ≤ t ≤ o ∧ o ≤ q - p.
Proof.
  eexists. split; [vm_compute; reflexivity|].
  apply (words_measured_in_code_points u8_next (bytes "The quick brown fox jumps")
           [0; 4; 10; 16; 20; 25]).
  - apply quick_brown_fox_well_formed.
  - apply quick_brown_fox_well_formed.
  - simpl. lia.
  - vm_compute. reflexivity.
Defined.

Lemma blank_snoc (U8_NEXT : list byte → Z → Z → Z * Z) (s : list byte) (x y : Z) :
  blank U8_NEXT s x y →
  0 ≤ y < Z.of_nat (length s) →
  uset_whitespaces (U8_NEXT s y (Z.of_nat (length s))).2 = true →
  blank U8_NEXT s x (U8_NEXT s y (Z.of_nat (length s))).1.
Proof.
  intros Hb Hy Hws. induction Hb as [x|x y Hx Hwx Hb IH].
  - apply blank_next; [done|done|apply blank_here].
  - apply blank_next; [done|done|by apply IH].
Qed.

(** One decoded code point: the new trimmed end of the current word is
    tight, and only white space lies between it and the new offset. *)
Lemma trim_step (U8_NEXT : list byte → Z → Z → Z * Z) (s : list byte) (pos : list Z)
    (st : scan_state) (j' c p : Z) :
  well_decoded U8_NEXT s → well_segmented U8_NEXT s pos → (2 ≤ length pos)%nat →
  scan_inv U8_NEXT s pos st → trim_inv U8_NEXT s pos st →
  j st < Z.of_nat (length s) →
  U8_NEXT s (j st) (Z.of_nat (length s)) = (j', c) →
  pos !! cur_block st = Some p →
  trimmed_end U8_NEXT s p (if uset_whitespaces c then cur_end_pos_trim st else j')
  ∧ blank U8_NEXT s (if uset_whitespaces c then cur_end_pos_trim st else j') j'.
Proof.
  intros Hdec Hseg Hlen Hinv ((p' & Hp' & Htight) & Hblank & _) Hj Hnx Hp.
  rewrite Hp in Hp'. injection Hp' as <-.
  destruct (scan_inv_next U8_NEXT s pos Hdec Hseg Hlen st j' c Hinv Hj Hnx)
    as (_ & Hjj' & _).
  destruct (uset_whitespaces c) eqn:Hws.
  - split; [done|].
    pose proof (blank_snoc U8_NEXT s _ _ Hblank) as Hsnoc.
    rewrite Hnx in Hsnoc. apply Hsnoc; [lia|done].
  - split; [|apply blank_here]. right. exists (j st).
    destruct Hinv as (_ & _ & _ & (p0 & m0 & Hp0 & _ & Hpj & _) & _).
    rewrite Hp in Hp0. injection Hp0 as <-.
    destruct Hdec as [Hadv _].
    pose proof (span_le U8_NEXT s Hadv _ _ _ Hpj) as [Hle _].
    rewrite Hnx. cbn [fst snd]. repeat (split; [lia || done|]). done.
Qed.

(** X10. On a well-formed string whose boundaries lie on code points, the
    trimmed end of every word is tight: it is the start of the word or
    lies just behind a code point of the word that is not white space,
    and only white space lies between it and the next boundary.  So a
    line cut at [end_pos_trim] and resumed at [pos[w+1]] drops white
    space only. *)
Theorem trimmed_ends_are_tight (U8_NEXT : list byte → Z → Z → Z * Z)
    (s : list byte) (pos : list Z) (st : scan_state) :
  well_decoded U8_NEXT s → well_segmented U8_NEXT s pos → (2 ≤ length pos)%nat →
  measure U8_NEXT s pos (length pos) = Done st →
  ∀ k, (k + 1 < length pos)%nat →
    ∃ p q e,
      pos !! k = Some p ∧ pos !! (k + 1)%nat = Some q ∧ end_pos_trim st !! k = Some e
      ∧ trimmed_end U8_NEXT s p e ∧ blank U8_NEXT s e q.
Proof.
  intros Hdec Hseg Hlen Hst. unfold measure in Hst.
  apply (measure_loop_keeps (λ t, scan_inv U8_NEXT s pos t ∧ trim_inv U8_NEXT s pos t))
    in Hst as [[Hinv Htrim] Hend].
  - destruct Hinv as (_ & _ & _ & _ & _ & Hdone & _). destruct Htrim as (_ & _ & Hblocks).
    intros k Hk. apply Hblocks. specialize (Hdone Hend). lia.
  - intros t j' c r [Hinv _] Hj Hnx Hc. exfalso.
    destruct (scan_inv_next U8_NEXT s pos Hdec Hseg Hlen t j' c Hinv Hj Hnx) as (Hv & _).
    lia.
  - intros t j' c [Hinv Htrim] Hj Hnx _ Hj' Hq.
    split; [by apply scan_inv_stay|].
    pose proof Htrim as ((p & Hp & _) & _ & Hblocks).
    destruct (trim_step U8_NEXT s pos t j' c p Hdec Hseg Hlen Hinv Htrim Hj Hnx Hp)
      as [Htight Hblank].
    split; [|split]; cbn [cur_block cur_end_pos_trim j end_pos_trim]; eauto.
  - intros t j' c [Hinv Htrim] Hj Hnx _ Hwhy _ _ He.
    split; [by apply scan_inv_close|].
    pose proof Htrim as ((p & Hp & _) & _ & Hblocks).
    destruct (trim_step U8_NEXT s pos t j' c p Hdec Hseg Hlen Hinv Htrim Hj Hnx Hp)
      as [Htight Hblank].
    destruct (scan_inv_next U8_NEXT s pos Hdec Hseg Hlen t j' c Hinv Hj Hnx)
      as (_ & _ & q & Hq & Hjq & Hqn).
    assert (j' = q) as ->.
    { destruct Hwhy as [Hn|(q' & Hq' & Hle)]; [lia|].
      rewrite Hq in Hq'. injection Hq' as <-. lia. }
    split; [|split]; cbn [cur_block cur_end_pos_trim j end_pos_trim].
    + exists q. split; [by rewrite <- Nat.add_1_r|by left].
    + apply blank_here.
    + intros k Hk. destruct (decide (k = cur_block t)) as [->|Hne].
      * exists p, q. eexists. split; [done|]. split; [done|].
        split; [by apply list_lookup_insert_eq|done].
      * destruct (Hblocks k) as (p' & q' & e' & ? & ? & ? & ? & ?); [lia|].
        exists p', q', e'. rewrite list_lookup_insert_ne by done. done.
  - split; [by apply scan_inv_init|]. destruct Hseg as (H0 & _).
    split; [|split]; cbn [cur_block cur_end_pos_trim j end_pos_trim].
    + exists 0. split; [done|by left].
    + apply blank_here.
    + intros k Hk. lia.
Qed.

Example spaced_words_well_formed :
  well_decoded u8_next (bytes "The quick  brown   ")
  ∧ well_segmented u8_next (bytes "The quick  brown   ") [0; 4; 11; 19].
Proof.
  assert (Forall (λ b, (Byte.to_N b < 128)%N) (bytes "The quick  brown   ")) as Hs.
  { repeat constructor. }
  split; [by apply ascii_well_decoded|].
  split; [done|]. split; [done|]. split.
  - intros k p Hp. do 4 (destruct k as [|k]; [injection Hp as <-; simpl; lia|]). done.
  - intros k p q Hp Hq.
    do 3 (destruct k as [|k];
      [injection Hp as <-; injection Hq as <-; split; [lia|];
       eexists; apply (ascii_span_between _ _ _ Hs); simpl; lia|]).
    destruct k; done.
Qed.

Lemma trimmed_ends_are_tight_witness :
  ∃ st,
    measure u8_next (bytes "The quick  brown   ") [0; 4; 11; 19] 4 = Done st
    ∧ ∀ k, (k + 1 < 4)%nat →
        ∃ p q e,
          [0; 4; 11; 19] !! k = Some p ∧ [0; 4; 11; 19] !! (k + 1)%nat = Some q
          ∧ end_pos_trim st !! k = Some e
          ∧ trimmed_end u8_next (bytes "The quick  brown   ") p e
          ∧ blank u8_next (bytes "The quick  brown   ") e q.
Proof.
  eexists. split; [vm_compute; reflexivity|].
  apply (trimmed_ends_are_tight u8_next (bytes "The quick  brown   ") [0; 4; 11; 19]).
  - apply spaced_words_well_formed.
  - apply spaced_words_well_formed.
  - simpl. lia.
  - vm_compute. reflexivity.
Defined.

(** ** The lines of one string *)

(** What a completed iteration went through: the scan, the planner and
    the loop over [iter_wrap]. *)
Lemma wrap_element_inv {D : Type} `{DoubleOps D}
    (U8_NEXT : list byte → Z → Z → Z * Z)
    (line_boundaries : list byte → option (list Z))
    (width_val : Z) (exponent_val : D) (str_cur_s : list byte) (pos : list Z)
    (res : SEXP) :
  SignLaws exponent_val →
  line_boundaries str_cur_s = Some pos → (2 ≤ length pos)%nat →
  wrap_element U8_NEXT line_boundaries width_val exponent_val (Some str_cur_s) = Done res →
  ∃ st wrap lines,
    measure U8_NEXT str_cur_s pos (length pos) = Done st
    ∧ plan width_val exponent_val (length pos) (counts_orig st) (counts_trim st) = Some wrap
    ∧ strictly_increasing wrap
    ∧ (∀ k, k ∈ wrap → (k + 2 < length pos)%nat)
    ∧ build str_cur_s pos (end_pos_trim st) (push_back_last (length pos) wrap)
        (0%nat, 0, allocVector_STRSXP (length wrap + 1)) = Done lines
    ∧ res = STRSXP lines.
Proof.
  intros Hlaws Hpos Hlen. simpl. rewrite Hpos.
  destruct (Nat.leb_spec (length pos) 1); [lia|].
  destruct (measure U8_NEXT str_cur_s pos (length pos)) as [st| | |] eqn:Hst;
    cbn [mbind outcome_bind]; try done.
  destruct (plan _ _ _ _ _) as [wrap|] eqn:Hplan; cbn [defined mbind outcome_bind];
    [|done].
  destruct (build _ _ _ _ _) as [lines| | |] eqn:Hbuild; cbn [mbind outcome_bind];
    try done.
  intros [= <-]. exists st, wrap, lines.
  pose proof (measure_loop_lengths _ _ _ _ _ _ Hst) as (Ho & Ht & _).
  cbn [counts_orig counts_trim] in Ho, Ht. rewrite length_replicate in Ho, Ht.
  destruct (plan_layout width_val exponent_val (counts_orig st) (counts_trim st)
              (length pos - 1) Hlaws Ho Ht) as (wrap' & Hplan' & Hsi & Hbound & _);
    [lia|].
  replace (length pos - 1 + 1)%nat with (length pos) in Hplan' by lia.
  rewrite Hplan in Hplan'. injection Hplan' as <-.
  repeat (split; [done|]). split; [|done].
  intros k Hk. apply Hbound in Hk. lia.
Qed.

Lemma strictly_increasing_lookup_ge (l : list nat) (i x : nat) :
  strictly_increasing l → l !! i = Some x → (i ≤ x)%nat.
Proof.
  intros Hsi. revert x. induction i as [|i IH]; intros x Hx; [lia|].
  destruct (lookup_lt_is_Some_2 l i) as [y Hy].
  { apply lookup_lt_Some in Hx. lia. }
  pose proof (Hsi i (S i) y x ltac:(lia) Hy Hx). pose proof (IH y Hy). lia.
Qed.

Lemma strictly_increasing_length (l : list nat) (m : nat) :
  strictly_increasing l → (∀ x, x ∈ l → (x < m)%nat) → (length l ≤ m)%nat.
Proof.
  intros Hsi Hbound. destruct (decide (length l = 0)%nat) as [->|Hne]; [lia|].
  destruct (lookup_lt_is_Some_2 l (length l - 1)) as [x Hx]; [lia|].
  pose proof (strictly_increasing_lookup_ge l _ x Hsi Hx).
  pose proof (Hbound x (list_elem_of_lookup_2 _ _ _ Hx)). lia.
Qed.

(** X11. A string with at least one break opportunity gives at least one
    line and at most as many lines as it has words; every line is a run
    of bytes of the string, never NA. *)
Theorem lines_between_one_and_words {D : Type} `{DoubleOps D}
    (U8_NEXT : list byte → Z → Z → Z * Z)
    (line_boundaries : list byte → option (list Z))
    (width_val : Z) (exponent_val : D) (str_cur_s : list byte) (pos : list Z)
    (res : SEXP) :
  SignLaws exponent_val →
  line_boundaries str_cur_s = Some pos → (2 ≤ length pos)%nat →
  wrap_element U8_NEXT line_boundaries width_val exponent_val (Some str_cur_s) = Done res →
  ∃ lines,
    res = STRSXP lines
    ∧ (1 ≤ length lines ≤ length pos - 1)%nat
    ∧ ∀ i line, lines !! i = Some line →
        ∃ start len, line = mkChar (take len (drop start str_cur_s)).
Proof.
  intros Hlaws Hpos Hlen Hres.
  destruct (wrap_element_inv U8_NEXT line_boundaries width_val exponent_val str_cur_s pos
              res Hlaws Hpos Hlen Hres)
    as (st & wrap & lines & _ & _ & Hsi & Hbound & Hbuild & ->).
  exists lines. split; [done|].
  apply (build_spec _ _ _ _ 0%nat) in Hbuild as (Hlines & _ & Hbytes); [|done].
  unfold allocVector_STRSXP in Hlines. rewrite length_replicate in Hlines.
  split.
  - pose proof (strictly_increasing_length wrap (length pos - 2) Hsi) as Hle.
    rewrite Hlines. split; [lia|].
    assert (length wrap ≤ length pos - 2)%nat; [|lia].
    apply Hle. intros x Hx. apply Hbound in Hx. lia.
  - intros i line Hi.
    destruct (lookup_lt_is_Some_2 (line_ranges 0 (push_back_last (length pos) wrap)) i)
      as [[a b] Hab].
    { rewrite line_ranges_length. unfold push_back_last. rewrite length_app. simpl.
      apply lookup_lt_Some in Hi. lia. }
    destruct (Hbytes i a b Hab) as (start & stop & _ & _ & Hline).
    simpl in Hline. rewrite Hi in Hline. injection Hline as ->. eauto.
Qed.

Lemma lines_between_one_and_words_witness :
  ∃ lines,
    STRSXP [mkChar (bytes "The quick"); mkChar (bytes "brown"); mkChar (bytes "fox jumps")]
    = STRSXP lines
    ∧ (1 ≤ length lines ≤ length [0; 4; 10; 16; 20; 25] - 1)%nat
    ∧ ∀ i line, lines !! i = Some line →
        ∃ start len,
          line = mkChar (take len (drop start (bytes "The quick brown fox jumps"))).
Proof.
  apply (lines_between_one_and_words (D:=Z) u8_next space_boundaries 10 2
           (bytes "The quick brown fox jumps") [0; 4; 10; 16; 20; 25]).
  - apply ZDouble_laws.
  - reflexivity.
  - simpl. lia.
  - vm_compute. reflexivity.
Defined.

(** X12. A string with a single word (two boundaries) always comes back
    as one line, whatever the width and the policy: the bytes of the
    string up to the trimmed end of the word. *)
Theorem single_word_is_one_line {D : Type} `{DoubleOps D}
    (U8_NEXT : list byte → Z → Z → Z * Z)
    (line_boundaries : list byte → option (list Z))
    (width_val : Z) (exponent_val : D) (str_cur_s : list byte) (pos : list Z)
    (res : SEXP) :
  SignLaws exponent_val →
  line_boundaries str_cur_s = Some pos → length pos = 2%nat →
  wrap_element U8_NEXT line_boundaries width_val exponent_val (Some str_cur_s) = Done res →
  ∃ st stop,
    measure U8_NEXT str_cur_s pos 2 = Done st
    ∧ end_pos_trim st !! 0%nat = Some stop
    ∧ res = STRSXP [mkChar (take (Z.to_nat stop) str_cur_s)].
Proof.
  intros Hlaws Hpos Hlen Hres.
  destruct (wrap_element_inv U8_NEXT line_boundaries width_val exponent_val str_cur_s pos
              res Hlaws Hpos ltac:(lia) Hres)
    as (st & wrap & lines & Hst & _ & _ & Hbound & Hbuild & ->).
  rewrite Hlen in Hst, Hbuild.
  assert (wrap = []) as ->.
  { destruct wrap as [|k wrap]; [done|]. pose proof (Hbound k ltac:(left)). lia. }
  apply (build_spec _ _ _ _ 0%nat) in Hbuild as (Hlines & _ & Hbytes); [|done].
  destruct (Hbytes 0%nat 0%nat 0%nat eq_refl) as (start & stop & Hstart & Hstop & Hline).
  injection Hstart as <-. rewrite Z.sub_0_r in Hline. simpl in Hline, Hlines.
  exists st, stop. split; [done|]. split; [done|].
  destruct lines as [|line [|line' lines]]; try done.
  simpl in Hline. by injection Hline as ->.
Qed.

Lemma single_word_is_one_line_witness :
  ∃ st stop,
    measure u8_next (bytes "incomprehensibilities  ") [0; 23] 2 = Done st
    ∧ end_pos_trim st !! 0%nat = Some stop
    ∧ STRSXP [mkChar (bytes "incomprehensibilities")]
      = STRSXP [mkChar (take (Z.to_nat stop) (bytes "incomprehensibilities  "))].
Proof.
  apply (single_word_is_one_line (D:=Z) u8_next space_boundaries 5 2
           (bytes "incomprehensibilities  ") [0; 23]).
  - apply ZDouble_laws.
  - reflexivity.
  - reflexivity.
  - vm_compute. reflexivity.
Defined.



(** ** [StriContainerListUTF8::isNA], [StriContainerListUTF8::get] *)

Lemma data_at_mod {A : Type} (c : StriContainerListUTF8.t A) (i : Z) :
  0 < StriContainerListUTF8.n c → 0 ≤ i →
  StriContainerListUTF8.data_at c i
  = StriContainerListUTF8.data c !! Z.to_nat (i mod StriContainerListUTF8.n c).
Proof.
  intros Hn Hi. unfold StriContainerListUTF8.data_at.
  destruct (Z.eqb_spec (StriContainerListUTF8.n c) 0); [lia|].
  destruct (Z.eqb_spec (StriContainerListUTF8.n c) (-1)); [lia|].
  rewrite andb_false_r. cbn [orb].
  rewrite Z.rem_mod_nonneg by lia.
  pose proof (Z.mod_pos_bound i (StriContainerListUTF8.n c) Hn).
  destruct (Z.ltb_spec (i mod StriContainerListUTF8.n c) 0); [lia|done].
Qed.

(** X14. The accessors recycle with period [n]: two indices inside
    [0, nrecycle) that agree modulo [n] give the same answer of [isNA]
    and the same element of [get], in a debug and in a release build. *)
Theorem container_recycles {A : Type} (NDEBUG : bool)
    (c : StriContainerListUTF8.t A) (i i' : Z) :
  0 < StriContainerListUTF8.n c →
  0 ≤ i < StriContainerListUTF8.nrecycle c →
  0 ≤ i' < StriContainerListUTF8.nrecycle c →
  i mod StriContainerListUTF8.n c = i' mod StriContainerListUTF8.n c →
  StriContainerListUTF8.isNA NDEBUG c i = StriContainerListUTF8.isNA NDEBUG c i'
  ∧ StriContainerListUTF8.get NDEBUG c i = StriContainerListUTF8.get NDEBUG c i'.
Proof.
  intros Hn Hi Hi' Hmod.
  unfold StriContainerListUTF8.isNA, StriContainerListUTF8.get.
  rewrite !data_at_mod by lia. rewrite Hmod.
  destruct (Z.ltb_spec i 0); [lia|]. destruct (Z.ltb_spec i' 0); [lia|].
  destruct (Z.leb_spec (StriContainerListUTF8.nrecycle c) i); [lia|].
  destruct (Z.leb_spec (StriContainerListUTF8.nrecycle c) i'); [lia|].
  done.
Qed.

Lemma container_recycles_witness :
  StriContainerListUTF8.isNA false
    (StriContainerListUTF8.Make [Some (bytes "a"); None; Some (bytes "c")] 3 8) 1
  = StriContainerListUTF8.isNA false
      (StriContainerListUTF8.Make [Some (bytes "a"); None; Some (bytes "c")] 3 8) 7
  ∧ StriContainerListUTF8.get false
      (StriContainerListUTF8.Make [Some (bytes "a"); None; Some (bytes "c")] 3 8) 1
    = StriContainerListUTF8.get false
        (StriContainerListUTF8.Make [Some (bytes "a"); None; Some (bytes "c")] 3 8) 7.
Proof.
  apply (container_recycles false
           (StriContainerListUTF8.Make [Some (bytes "a"); None; Some (bytes "c")] 3 8) 1 7).
  - reflexivity.
  - simpl. lia.
  - simpl. lia.
  - reflexivity.
Defined.

(** X15. With [data] holding [n > 0] entries, an index inside
    [0, nrecycle) never reads outside [data], and [get] agrees with
    [isNA]: where [isNA] answers false, [get] returns the element
    [data[i mod n]]; where it answers true, [get] raises the isNA error
    in a debug build and dereferences [NULL] in a release build. *)
Theorem container_get_agrees_with_isNA {A : Type} (NDEBUG : bool)
    (c : StriContainerListUTF8.t A) (i : Z) :
  Z.of_nat (length (StriContainerListUTF8.data c)) = StriContainerListUTF8.n c →
  0 < StriContainerListUTF8.n c →
  0 ≤ i < StriContainerListUTF8.nrecycle c →
  ∃ b, StriContainerListUTF8.isNA NDEBUG c i = StriContainerListUTF8.Value b
    ∧ (b = false →
       ∃ x, StriContainerListUTF8.get NDEBUG c i = StriContainerListUTF8.Value x
            ∧ StriContainerListUTF8.data c !! Z.to_nat (i mod StriContainerListUTF8.n c)
              = Some (Some x))
    ∧ (b = true →
       StriContainerListUTF8.get NDEBUG c i
       = if NDEBUG then StriContainerListUTF8.Undefined_access
         else StriContainerListUTF8.Rf_error "StriContainerListUTF8::get(): isNA").
Proof.
  intros Hlen Hn Hi.
  unfold StriContainerListUTF8.isNA, StriContainerListUTF8.get.
  rewrite !data_at_mod by lia.
  destruct (Z.ltb_spec i 0); [lia|].
  destruct (Z.leb_spec (StriContainerListUTF8.nrecycle c) i); [lia|].
  rewrite andb_false_r.
  pose proof (Z.mod_pos_bound i (StriContainerListUTF8.n c) Hn).
  destruct (lookup_lt_is_Some_2 (StriContainerListUTF8.data c)
              (Z.to_nat (i mod StriContainerListUTF8.n c))) as [d Hd]; [lia|].
  rewrite Hd. destruct d as [x|].
  - exists false. split; [done|]. split; [eauto|done].
  - exists true. split; [done|]. split; [done|]. intros _. by destruct NDEBUG.
Qed.

Lemma container_get_agrees_with_isNA_witness :
  ∃ b, StriContainerListUTF8.isNA false
         (StriContainerListUTF8.Make [Some (bytes "a"); None; Some (bytes "c")] 3 8) 4
       = StriContainerListUTF8.Value b
    ∧ (b = false →
       ∃ x, StriContainerListUTF8.get false
              (StriContainerListUTF8.Make [Some (bytes "a"); None; Some (bytes "c")] 3 8) 4
            = StriContainerListUTF8.Value x
            ∧ [Some (bytes "a"); None; Some (bytes "c")] !! Z.to_nat (4 mod 3)
              = Some (Some x))
    ∧ (b = true →
       StriContainerListUTF8.get false
         (StriContainerListUTF8.Make [Some (bytes "a"); None; Some (bytes "c")] 3 8) 4
       = StriContainerListUTF8.Rf_error "StriContainerListUTF8::get(): isNA").
Proof.
  apply (container_get_agrees_with_isNA false
           (StriContainerListUTF8.Make [Some (bytes "a"); None; Some (bytes "c")] 3 8) 4).
  - reflexivity.
  - reflexivity.
  - simpl. lia.
Defined.

(** ** Lines and words *)

Lemma line_ranges_cover (ends : list nat) (first last : nat) :
  strictly_increasing (ends ++ [last]) →
  (∀ k, k ∈ ends ++ [last] → (first ≤ k)%nat) →
  concat (map words_of (line_ranges first (ends ++ [last])))
  = seq first (last + 1 - first).
Proof.
  revert first. induction ends as [|w ends IH]; intros first Hsi Hge.
  - simpl. by rewrite app_nil_r.
  - simpl. apply strictly_increasing_cons_inv in Hsi as [Hsi Hw].
    rewrite IH; [|done|intros k Hk; apply Hw in Hk; lia].
    pose proof (Hge w ltac:(left)).
    pose proof (Hw last ltac:(apply elem_of_app; right; by apply list_elem_of_singleton)).
    unfold words_of. cbn [fst snd].
    replace (last + 1 - first)%nat with ((w + 1 - first) + (last + 1 - S w))%nat by lia.
    rewrite seq_app. do 2 f_equal. lia.
Qed.

(** X16. The lines partition the words: walking the breaks of the
    selected planner as the driver does, with the index it appends, the
    words of the lines in order are exactly the words [0 .. wordCount-1],
    each once. *)
Theorem lines_partition_words {D : Type} `{DoubleOps D} (width_val : Z)
    (exponent_val : D) (counts_orig counts_trim : list Z) (wordCount : nat) :
  SignLaws exponent_val →
  length counts_orig = wordCount → length counts_trim = wordCount →
  (1 ≤ wordCount)%nat →
  ∃ wrap,
    plan width_val exponent_val (wordCount + 1) counts_orig counts_trim = Some wrap
    ∧ concat (map words_of (line_ranges 0 (push_back_last (wordCount + 1) wrap)))
      = seq 0 wordCount.
Proof.
  intros Hlaws Ho Ht Hn.
  destruct (plan_layout width_val exponent_val counts_orig counts_trim wordCount
              Hlaws Ho Ht Hn) as (wrap & Hplan & Hsi & Hbound & _).
  exists wrap. split; [done|]. unfold push_back_last.
  rewrite line_ranges_cover.
  - f_equal. lia.
  - apply strictly_increasing_snoc; [done|]. intros y Hy. apply Hbound in Hy. lia.
  - intros k _. lia.
Qed.

Lemma lines_partition_words_witness :
  ∃ wrap,
    plan (D:=Z) 10 2 (5 + 1) [4; 6; 6; 4; 5] [3; 5; 5; 3; 5] = Some wrap
    ∧ concat (map words_of (line_ranges 0 (push_back_last (5 + 1) wrap))) = seq 0 5.
Proof.
  apply (lines_partition_words (D:=Z) 10 2 [4; 6; 6; 4; 5] [3; 5; 5; 3; 5] 5).
  - apply ZDouble_laws.
  - reflexivity.
  - reflexivity.
  - lia.
Defined.

(** X17. No line cuts a code point: on a well-formed string whose
    boundaries lie on code points, every line of the result is the bytes
    between two offsets of the string that decoding from offset 0 both
    reaches. *)
Theorem lines_cut_at_code_points {D : Type} `{DoubleOps D}
    (U8_NEXT : list byte → Z → Z → Z * Z)
    (line_boundaries : list byte → option (list Z))
    (width_val : Z) (exponent_val : D) (str_cur_s : list byte) (pos : list Z)
    (res : SEXP) :
  SignLaws exponent_val →
  line_boundaries str_cur_s = Some pos → (2 ≤ length pos)%nat →
  well_decoded U8_NEXT str_cur_s → well_segmented U8_NEXT str_cur_s pos →
  wrap_element U8_NEXT line_boundaries width_val exponent_val (Some str_cur_s) = Done res →
  ∃ lines,
    res = STRSXP lines
    ∧ ∀ i line, lines !! i = Some line →
        ∃ start stop m m',
          span U8_NEXT str_cur_s 0 start m ∧ span U8_NEXT str_cur_s 0 stop m'
          ∧ 0 ≤ start ≤ stop ∧ stop ≤ Z.of_nat (length str_cur_s)
          ∧ line = mkChar (take (Z.to_nat (stop - start))
                             (drop (Z.to_nat start) str_cur_s)).
Proof.
  intros Hlaws Hpos Hlen Hdec Hseg Hres.
  destruct (wrap_element_inv U8_NEXT line_boundaries width_val exponent_val str_cur_s pos
              res Hlaws Hpos Hlen Hres)
    as (st & wrap & lines & Hst & _ & Hsi & Hbound & Hbuild & ->).
  exists lines. split; [done|].
  apply (build_spec _ _ _ _ 0%nat) in Hbuild as (Hlines & _ & Hbytes); [|done].
  unfold allocVector_STRSXP in Hlines. rewrite length_replicate in Hlines.
  pose proof (measure_spans U8_NEXT str_cur_s pos Hdec Hseg Hlen st Hst) as Hblocks.
  intros i line Hi.
  destruct (lookup_lt_is_Some_2 (line_ranges 0 (push_back_last (length pos) wrap)) i)
    as [[a b] Hab].
  { rewrite line_ranges_length. unfold push_back_last. rewrite length_app. simpl.
    apply lookup_lt_Some in Hi. lia. }
  destruct (Hbytes i a b Hab) as (start & stop & Hstart & Hstop & Hline).
  simpl in Hline. rewrite Hi in Hline. injection Hline as ->.
  unfold push_back_last in Hab. apply list_elem_of_lookup_2 in Hab.
  apply (line_ranges_is_line (length pos - 2) 0 wrap) in Hab as (Ha & Hb & _);
    [|done|intros k Hk; apply Hbound in Hk; lia|lia].
  assert (∃ m, span U8_NEXT str_cur_s 0 start m) as [m Hm].
  { unfold line_start in Hstart. destruct (Nat.eqb_spec a 0) as [->|Hne].
    - injection Hstart as <-. exists 0. apply span_here.
    - destruct (blocks_span U8_NEXT str_cur_s pos st 0 a Hblocks) as (p & q & Hp & Hq & Hsp);
        [lia|].
      destruct Hseg as (H0 & _). rewrite H0 in Hp. injection Hp as <-.
      simpl in Hq. rewrite Hstart in Hq. injection Hq as <-. eauto. }
  pose proof (line_span U8_NEXT str_cur_s pos st a b start stop Hseg Hblocks
                ltac:(lia) ltac:(lia) Hstart Hstop) as Hspan.
  destruct (Hblocks b) as (p & q & e & _ & Hq & He & Heq & _); [lia|].
  rewrite Hstop in He. injection He as <-.
  pose proof Hdec as [Hadv _].
  pose proof (span_le U8_NEXT str_cur_s Hadv _ _ _ Hm) as [? _].
  pose proof (span_le U8_NEXT str_cur_s Hadv _ _ _ Hspan) as [? _].
  destruct Hseg as (_ & _ & Hrange & _). pose proof (Hrange _ _ Hq).
  exists start, stop, m. eexists.
  split; [done|]. split; [apply (span_trans _ _ _ _ _ _ _ Hm Hspan)|].
  split; [lia|]. split; [lia|done].
Qed.

Lemma lines_cut_at_code_points_witness :
  ∃ lines,
    STRSXP [mkChar (bytes "The quick"); mkChar (bytes "brown"); mkChar (bytes "fox jumps")]
    = STRSXP lines
    ∧ ∀ i line, lines !! i = Some line →
        ∃ start stop m m',
          span u8_next (bytes "The quick brown fox jumps") 0 start m
          ∧ span u8_next (bytes "The quick brown fox jumps") 0 stop m'
          ∧ 0 ≤ start ≤ stop
          ∧ stop ≤ Z.of_nat (length (bytes "The quick brown fox jumps"))
          ∧ line = mkChar (take (Z.to_nat (stop - start))
                             (drop (Z.to_nat start) (bytes "The quick brown fox jumps"))).
Proof.
  apply (lines_cut_at_code_points (D:=Z) u8_next space_boundaries 10 2
           (bytes "The quick brown fox jumps") [0; 4; 10; 16; 20; 25]).
  - apply ZDouble_laws.
  - reflexivity.
  - simpl. lia.
  - apply quick_brown_fox_well_formed.
  - apply quick_brown_fox_well_formed.
  - vm_compute. reflexivity.
Defined.

(** ** The search for the best break in [stri__wrap_dynamic] *)

Lemma ZDouble_order : OrderLaws Z.
Proof.
  split; simpl.
  - intros x. apply Z.ltb_irrefl.
  - intros x y z Hxy Hzy. apply Z.ltb_lt in Hxy. apply Z.ltb_ge in Hzy.
    apply Z.ltb_ge. lia.
Qed.

Lemma improve_loop_best {D : Type} `{DoubleOps D} (n : nat) (cost f : list D)
    (j i0 hi : nat) (best0 best : D) (i : nat) :
  OrderLaws D →
  for_loop (i0 + 1) hi (improve n cost f j) (best0, i0) = Some (best, i) →
  dltb best0 best = false
  ∧ (∀ k c fk, (i0 < k < hi)%nat →
       cost !! IDX n (k + 1) j = Some c → dltb c (dofZ 0) = false → f !! k = Some fk →
       dltb (dadd fk c) best = false)
  ∧ ((best, i) = (best0, i0)
     ∨ ∃ c fk, (i0 < i < hi)%nat ∧ cost !! IDX n (i + 1) j = Some c
               ∧ dltb c (dofZ 0) = false ∧ f !! i = Some fk ∧ best = dadd fk c).
Proof.
  intros [Hirr Hbelow].
  destruct (decide (i0 + 1 ≤ hi)%nat) as [Hle|Hgt].
  2:{ rewrite for_loop_empty by lia. intros [= <- <-].
      split; [apply Hirr|]. split; [intros; lia|by left]. }
  revert best i. induction Hle as [|hi Hle IH]; intros best i.
  - rewrite for_loop_empty by lia. intros [= <- <-].
    split; [apply Hirr|]. split; [intros; lia|by left].
  - rewrite for_loop_last by done.
    destruct (for_loop (i0 + 1) hi (improve n cost f j) (best0, i0))
      as [[b i1]|] eqn:Hloop; cbn [mbind option_bind]; [|done].
    destruct (IH b i1 eq_refl) as (Hseed & Hcand & Hpair).
    unfold improve.
    destruct (cost !! IDX n (hi + 1) j) as [c|] eqn:Hc; cbn [mbind option_bind]; [|done].
    destruct (dltb c (dofZ 0)) eqn:Hneg.
    { intros [= <- <-]. split; [done|]. split.
      - intros k c' fk Hk Hc' Hpos Hfk. destruct (decide (k = hi)) as [->|Hne].
        + rewrite Hc in Hc'. injection Hc' as <-. by rewrite Hneg in Hpos.
        + apply (Hcand k c' fk); [lia|done..].
      - destruct Hpair as [?|(c' & fk & ? & ?)]; [by left|right].
        exists c', fk. split; [lia|done]. }
    destruct (f !! hi) as [fhi|] eqn:Hfhi; cbn [mbind option_bind]; [|done].
    destruct (dltb (dadd fhi c) b) eqn:Hbetter; intros [= <- <-].
    + split; [by apply (Hbelow _ b)|]. split.
      * intros k c' fk Hk Hc' Hpos Hfk. destruct (decide (k = hi)) as [->|Hne].
        -- rewrite Hc in Hc'. injection Hc' as <-.
           rewrite Hfhi in Hfk. injection Hfk as <-. apply Hirr.
        -- apply (Hbelow _ b); [done|]. apply (Hcand k c' fk); [lia|done..].
      * right. exists c, fhi. split; [lia|done].
    + split; [done|]. split.
      * intros k c' fk Hk Hc' Hpos Hfk. destruct (decide (k = hi)) as [->|Hne].
        -- rewrite Hc in Hc'. injection Hc' as <-.
           rewrite Hfhi in Hfk. by injection Hfk as <-.
        -- apply (Hcand k c' fk); [lia|done..].
      * destruct Hpair as [?|(c' & fk & ? & ?)]; [by left|right].
        exists c', fk. split; [lia|done].
Qed.

Lemma iterM_ext {S : Type} (body body' : nat → S → option S) (js : list nat) (s : S) :
  (∀ k t, k ∈ js → body k t = body' k t) → iterM body js s = iterM body' js s.
Proof.
  revert s. induction js as [|k js IH]; intros s Hext; simpl; [done|].
  rewrite (Hext k s) by left. destruct (body' k s); [|done].
  apply IH. intros k' t Hk'. apply Hext. by right.
Qed.

(** The search reads [f] at the candidates only. *)
Lemma improve_frame {D : Type} `{DoubleOps D} (n : nat) (cost f f' : list D)
    (j lo hi : nat) (st : D * nat) :
  (∀ k, (lo ≤ k < hi)%nat → f' !! k = f !! k) →
  for_loop lo hi (improve n cost f' j) st = for_loop lo hi (improve n cost f j) st.
Proof.
  intros Hsame. unfold for_loop. apply iterM_ext.
  intros k [best i] Hk. apply elem_of_seq in Hk. unfold improve.
  rewrite Hsame by lia. done.
Qed.

Lemma column_done_frame {D : Type} `{DoubleOps D} (n : nat) (cost : list D) (j : nat)
    (st st' : list D * list bool) :
  (∀ k, (k ≤ j)%nat → st'.1 !! k = st.1 !! k) →
  (∀ k j', (k < n)%nat → (j' ≤ j)%nat → st'.2 !! IDX n k j' = st.2 !! IDX n k j') →
  column_done n cost j st → column_done n cost j st'.
Proof.
  intros Hf Hw (c0 & Hc0 & Hcol). exists c0. split; [done|].
  destruct (dleb (dofZ 0) c0).
  - destruct Hcol as [Hfj Hno]. split; [by rewrite Hf|].
    intros k Hk. rewrite Hw by lia. by apply Hno.
  - destruct Hcol as (i0 & f0 & ci & best & i & Hff & Hf0 & Hci & Hloop & Hfj & Hi & Hcolj).
    exists i0, f0, ci, best, i. split; [done|]. split; [rewrite Hf; [done|lia]|].
    split; [done|]. split.
    { rewrite <- Hloop. apply improve_frame. intros k Hk. apply Hf. lia. }
    split; [by rewrite Hf|]. split; [done|].
    intros k Hk. rewrite Hw by lia. rewrite (Hw k i) by lia. by apply Hcolj.
Qed.

Section Recurrence.
Context {D : Type} `{DoubleOps D}.
Variables (width_val : Z) (exponent_val : D) (counts_orig counts_trim : list Z).
Variable n : nat.
Variable cost : list D.
Hypothesis laws : SignLaws exponent_val.
Hypothesis cost_cells : ∀ i j, (i ≤ j < n)%nat →
  cost !! IDX n i j = Some (cell_value width_val exponent_val counts_orig counts_trim i j).

Local Abbreviation cell := (cell_value width_val exponent_val counts_orig counts_trim).
Local Abbreviation pinv := (plan_inv (D:=D) width_val counts_orig counts_trim n).

(** One column: the step writes [f[j]] and column [j] of [where] only,
    and leaves column [j] done. *)
Lemma plan_column_done (j : nat) (st : list D * list bool) :
  (j < n)%nat → pinv j st →
  ∃ st', plan_column n cost j st = Some st' ∧ pinv (S j) st'
         ∧ (∀ k, k ≠ j → st'.1 !! k = st.1 !! k)
         ∧ (∀ k j', (k < n)%nat → (j' < n)%nat → j' ≠ j →
              st'.2 !! IDX n k j' = st.2 !! IDX n k j')
         ∧ column_done n cost j st'.
Proof.
  intros Hj Hinv.
  destruct (plan_column_step width_val exponent_val counts_orig counts_trim n cost
              laws cost_cells j st Hj Hinv) as (st' & Hstep & Hinv').
  exists st'. split; [done|]. split; [done|].
  destruct st as [f where_].
  pose proof Hinv as (Hf & Hw & Hcells & _). cbn [fst snd] in *.
  unfold plan_column in Hstep. rewrite cost_cells in Hstep by lia.
  cbn [mbind option_bind] in Hstep.
  unfold column_done. rewrite cost_cells by lia.
  destruct (dleb (dofZ 0) (cell 0 j)) eqn:Hc0.
  - rewrite vec_set_Some in Hstep by lia. cbn [mbind option_bind] in Hstep.
    injection Hstep as <-. cbn [fst snd].
    split; [intros k Hk; by apply list_lookup_insert_ne|]. split; [done|].
    eexists. split; [done|]. rewrite Hc0.
    split; [apply list_lookup_insert_eq; lia|].
    intros k Hk. destruct (Hcells k j Hk Hj) as (b & Hb & Hrange).
    destruct b; [specialize (Hrange eq_refl); lia|done].
  - assert (0 < j)%nat as Hj0.
    { destruct j; [|lia].
      rewrite (cell_diag_nonneg width_val exponent_val counts_orig counts_trim laws)
        in Hc0. done. }
    destruct (first_fit_spec width_val exponent_val counts_orig counts_trim n cost
                laws cost_cells j (j + 1) 0) as (i0 & Hff & Hi0 & Hci0); [lia|lia|lia|].
    rewrite Hff in Hstep. cbn [mbind option_bind] in Hstep.
    destruct (lookup_lt_is_Some_2 f 0) as [f0 Hf0]; [lia|].
    rewrite Hf0 in Hstep. cbn [mbind option_bind] in Hstep.
    rewrite cost_cells in Hstep by lia. cbn [mbind option_bind] in Hstep.
    destruct (improve_loop_spec width_val exponent_val counts_orig counts_trim n cost
                laws cost_cells f j i0 (dadd f0 (cell (i0 + 1) j)))
      as ([best i] & Himp & Hi & Hci); [done|lia|lia|done|].
    rewrite Himp in Hstep. cbn [fst snd mbind option_bind] in *.
    destruct (copy_loop_spec n where_ i j) as (w1 & Hcopy & Hw1 & Hcopied); [done|lia|].
    rewrite Hcopy in Hstep. cbn [mbind option_bind] in Hstep.
    rewrite (vec_set_Some w1) in Hstep by (rewrite Hw1; apply IDX_lt; lia).
    cbn [mbind option_bind] in Hstep.
    rewrite (vec_set_Some f) in Hstep by lia. cbn [mbind option_bind] in Hstep.
    injection Hstep as <-. cbn [fst snd].
    assert (∀ k j', (k < n)%nat → (j' < n)%nat →
              <[IDX n i j:=true]> w1 !! IDX n k j'
              = if decide (k = i ∧ j' = j) then Some true
                else if decide (j' = j ∧ k < i)%nat then where_ !! IDX n k i
                else where_ !! IDX n k j') as Hnew.
    { intros k j' Hk Hj'. destruct (decide (k = i ∧ j' = j)) as [[-> ->]|Hne].
      - apply list_lookup_insert_eq. rewrite Hw1. apply IDX_lt; lia.
      - rewrite list_lookup_insert_ne by (intros Heq; apply IDX_inj in Heq; lia).
        by apply Hcopied. }
    split; [intros k Hk; by apply list_lookup_insert_ne|]. split.
    { intros k j' Hk Hj' Hne. rewrite Hnew by done.
      destruct (decide (k = i ∧ j' = j)); [lia|].
      destruct (decide (j' = j ∧ k < i)%nat); [lia|done]. }
    eexists. split; [done|]. rewrite Hc0.
    exists i0, f0, (cell (i0 + 1) j), best, i.
    split; [done|]. split; [rewrite list_lookup_insert_ne by lia; done|].
    split; [apply cost_cells; lia|]. split.
    { rewrite <- Himp. apply improve_frame. intros k Hk.
      apply list_lookup_insert_ne. lia. }
    split; [apply list_lookup_insert_eq; lia|]. split; [lia|].
    intros k Hk. rewrite Hnew by done. rewrite (Hnew k i) by lia.
    destruct (decide (k = i)) as [->|Hne].
    + destruct (decide (i = i ∧ j = j)); [done|lia].
    + destruct (decide (k = i ∧ j = j)); [lia|].
      destruct (decide (k < i)%nat) as [Hlt|Hge].
      * destruct (decide (j = j ∧ k < i)%nat); [|lia].
        destruct (decide (k = i ∧ i = j)); [lia|].
        destruct (decide (i = j ∧ k < i)%nat); [lia|done].
      * destruct (decide (j = j ∧ k < i)%nat); [lia|].
        destruct (Hcells k j Hk Hj) as (b & Hb & Hrange).
        destruct b; [specialize (Hrange eq_refl); lia|done].
Qed.

(** The loop over [j] completes with every column done. *)
Lemma plan_columns_done :
  ∃ st, plan_columns n cost = Some st ∧ pinv n st
        ∧ ∀ j, (j < n)%nat → column_done n cost j st.
Proof.
  unfold plan_columns.
  destruct (for_loop_inv
    (λ j st, pinv j st ∧ ∀ j', (j' < j)%nat → column_done n cost j' st) 0 n
    (plan_column n cost) (replicate n (dofZ 0), replicate (n * n) false))
    as (st & Hst & Hinv & Hdone); [lia| | |eauto].
  - split; [|intros j' Hj'; lia].
    split; [|split; [|split]]; cbn [fst snd].
    + by rewrite length_replicate.
    + by rewrite length_replicate.
    + intros k j' Hk Hj'. exists false. split; [|done].
      apply lookup_replicate_2. apply IDX_lt; lia.
    + intros j' Hj'. lia.
  - intros j st Hj [Hinv Hdone].
    destruct (plan_column_done j st) as (st' & Hstep & Hinv' & Hf & Hw & Hcol);
      [lia|done|].
    exists st'. split; [done|]. split; [done|].
    intros j' Hj'. destruct (decide (j' = j)) as [->|Hne]; [done|].
    apply (column_done_frame n cost j' st).
    + intros k Hk. apply Hf. lia.
    + intros k j'' Hk Hj''. apply Hw; lia.
    + apply Hdone. lia.
Qed.
End Recurrence.

(** X18. The layout of [stri__wrap_dynamic] is built from the layouts of
    the prefixes: the breaks returned are those of the last column of
    [where]; a column [j] whose words [0..j] the cost matrix accepts as
    one line has no break, and any other column [j] has a break after
    some word [i < j] such that the words [i+1..j] fit one line, and
    before [i] exactly the breaks of column [i]. *)
Theorem dynamic_layout_recurrence {D : Type} `{DoubleOps D} (width_val : Z)
    (exponent_val : D) (counts_orig counts_trim : list Z) (n : nat) :
  SignLaws exponent_val →
  length counts_orig = n → length counts_trim = n → (1 ≤ n)%nat →
  ∃ cost f where_ wrap,
    cost_matrix width_val exponent_val counts_orig counts_trim n = Some cost
    ∧ plan_columns n cost = Some (f, where_)
    ∧ stri__wrap_dynamic [] (n + 1) width_val exponent_val counts_orig counts_trim
      = Some wrap
    ∧ (∀ k, k ∈ wrap ↔ (k < n)%nat ∧ breaks_at n where_ (n - 1) k)
    ∧ ∀ j, (j < n)%nat →
        ∃ c0, cost !! IDX n 0 j = Some c0
          ∧ if dleb (dofZ 0) c0
            then ∀ k, (k < n)%nat → ¬ breaks_at n where_ j k
            else ∃ i, (i < j)%nat
                   ∧ fits width_val counts_orig counts_trim (i + 1) j
                   ∧ ∀ k, (k < n)%nat →
                       breaks_at n where_ j k
                       ↔ k = i ∨ ((k < i)%nat ∧ breaks_at n where_ i k).
Proof.
  intros Hlaws Ho Ht Hn.
  destruct (cost_matrix_spec width_val exponent_val counts_orig counts_trim Hlaws n Ho Ht)
    as (cost & Hcost & _ & Hcells).
  destruct (plan_columns_done width_val exponent_val counts_orig counts_trim n cost
              Hlaws Hcells) as ([f where_] & Hplan & (_ & Hw & _ & Hfit) & Hdone).
  cbn [fst snd] in *.
  destruct (collect_loop_spec n where_ Hw) as (wrap & Hwrap & _ & Hmem).
  exists cost, f, where_, wrap. split; [done|]. split; [done|]. split.
  { unfold stri__wrap_dynamic. replace (n + 1 - 1)%nat with n by lia.
    rewrite Hcost. cbn [mbind option_bind]. rewrite Hplan. done. }
  split; [done|]. intros j Hj.
  destruct (Hdone j Hj) as (c0 & Hc0 & Hcol). exists c0. split; [done|].
  cbn [fst snd] in Hcol.
  destruct (dleb (dofZ 0) c0).
  - destruct Hcol as [_ Hno]. intros k Hk Hbrk. unfold breaks_at in Hbrk.
    rewrite (Hno k Hk) in Hbrk. done.
  - destruct Hcol as (i0 & f0 & ci & best & i & _ & _ & _ & _ & _ & Hi & Hcolj).
    cbn [fst snd] in *.
    assert (∀ k, (k < n)%nat →
              breaks_at n where_ j k ↔ k = i ∨ ((k < i)%nat ∧ breaks_at n where_ i k))
      as Hrec.
    { intros k Hk. unfold breaks_at. rewrite (Hcolj k Hk).
      destruct (decide (k = i)) as [->|Hne]; [split; [by left|done]|].
      destruct (decide (k < i)%nat) as [Hlt|Hge].
      - split; [by right|]. intros [->|[_ ?]]; done.
      - split; [done|]. intros [->|[? _]]; [done|lia]. }
    exists i. split; [lia|]. split; [|done].
    apply (Hfit j Hj). split; [lia|]. split; [|split; [by left|]].
    + right. split; [lia|]. replace (i + 1 - 1)%nat with i by lia.
      apply Hrec; [lia|by left].
    + intros k Hk Hbrk. apply Hrec in Hbrk; [|lia]. lia.
Qed.

Lemma dynamic_layout_recurrence_witness :
  ∃ cost f where_ wrap,
    cost_matrix (D:=Z) 10 2 [4; 6; 6; 4; 5] [3; 5; 5; 3; 5] 5 = Some cost
    ∧ plan_columns 5 cost = Some (f, where_)
    ∧ stri__wrap_dynamic (D:=Z) [] (5 + 1) 10 2 [4; 6; 6; 4; 5] [3; 5; 5; 3; 5]
      = Some wrap
    ∧ (∀ k, k ∈ wrap ↔ (k < 5)%nat ∧ breaks_at 5 where_ (5 - 1) k)
    ∧ ∀ j, (j < 5)%nat →
        ∃ c0, cost !! IDX 5 0 j = Some c0
          ∧ if dleb (dofZ 0) c0
            then ∀ k, (k < 5)%nat → ¬ breaks_at 5 where_ j k
            else ∃ i, (i < j)%nat
                   ∧ fits 10 [4; 6; 6; 4; 5] [3; 5; 5; 3; 5] (i + 1) j
                   ∧ ∀ k, (k < 5)%nat →
                       breaks_at 5 where_ j k
                       ↔ k = i ∨ ((k < i)%nat ∧ breaks_at 5 where_ i k).
Proof.
  apply (dynamic_layout_recurrence (D:=Z) 10 2 [4; 6; 6; 4; 5] [3; 5; 5; 3; 5] 5).
  - apply ZDouble_laws.
  - reflexivity.
  - reflexivity.
  - lia.
Defined.

(** X19. The totals [f] of [stri__wrap_dynamic]: [f[j]] is the cost of
    the single line when the cost matrix accepts words [0..j] as one
    line; otherwise it is the best of the totals the code tries, namely
    [f[0] + cost[IDX(i+1,j)]] for the first start [i+1] whose line is
    accepted and [f[k] + cost[IDX(k+1,j)]] for the later accepted starts:
    it is one of them, and none of them is below it. *)
Theorem dynamic_totals_are_best {D : Type} `{DoubleOps D} (width_val : Z)
    (exponent_val : D) (counts_orig counts_trim : list Z) (n : nat) :
  SignLaws exponent_val → OrderLaws D →
  length counts_orig = n → length counts_trim = n →
  ∃ cost f where_,
    cost_matrix width_val exponent_val counts_orig counts_trim n = Some cost
    ∧ plan_columns n cost = Some (f, where_)
    ∧ ∀ j, (j < n)%nat →
        ∃ c0 fj, cost !! IDX n 0 j = Some c0 ∧ f !! j = Some fj
          ∧ if dleb (dofZ 0) c0 then fj = c0
            else ∃ i0 f0 ci,
                   first_fit n cost j (j + 1) 0 = Some i0
                   ∧ f !! 0%nat = Some f0 ∧ cost !! IDX n (i0 + 1) j = Some ci
                   ∧ dltb (dadd f0 ci) fj = false
                   ∧ (∀ k c fk, (i0 < k < j)%nat →
                        cost !! IDX n (k + 1) j = Some c → dltb c (dofZ 0) = false →
                        f !! k = Some fk → dltb (dadd fk c) fj = false)
                   ∧ (fj = dadd f0 ci
                      ∨ ∃ k c fk, (i0 < k < j)%nat ∧ cost !! IDX n (k + 1) j = Some c
                                  ∧ dltb c (dofZ 0) = false ∧ f !! k = Some fk
                                  ∧ fj = dadd fk c).
Proof.
  intros Hlaws Horder Ho Ht.
  destruct (cost_matrix_spec width_val exponent_val counts_orig counts_trim Hlaws n Ho Ht)
    as (cost & Hcost & _ & Hcells).
  destruct (plan_columns_done width_val exponent_val counts_orig counts_trim n cost
              Hlaws Hcells) as ([f where_] & Hplan & _ & Hdone).
  exists cost, f, where_. split; [done|]. split; [done|]. intros j Hj.
  destruct (Hdone j Hj) as (c0 & Hc0 & Hcol). cbn [fst snd] in Hcol.
  destruct (dleb (dofZ 0) c0) eqn:Hsign.
  - destruct Hcol as [Hfj _]. exists c0, c0. rewrite Hsign. done.
  - destruct Hcol as (i0 & f0 & ci & best & i & Hff & Hf0 & Hci & Hloop & Hfj & _ & _).
    exists c0, best. rewrite Hsign. split; [done|]. split; [done|].
    exists i0, f0, ci.
    destruct (improve_loop_best n cost f j i0 j (dadd f0 ci) best i Horder Hloop)
      as (Hseed & Hcand & Hpair).
    repeat (split; [done|]).
    destruct Hpair as [[= -> ->]|(c & fk & ? & ? & ? & ? & ?)]; [by left|right].
    exists i, c, fk. done.
Qed.

Lemma dynamic_totals_are_best_witness :
  ∃ cost f where_,
    cost_matrix (D:=Z) 10 1 [3; 3; 3; 6] [2; 2; 2; 6] 4 = Some cost
    ∧ plan_columns 4 cost = Some (f, where_)
    ∧ ∀ j, (j < 4)%nat →
        ∃ c0 fj, cost !! IDX 4 0 j = Some c0 ∧ f !! j = Some fj
          ∧ if dleb (dofZ 0) c0 then fj = c0
            else ∃ i0 f0 ci,
                   first_fit 4 cost j (j + 1) 0 = Some i0
                   ∧ f !! 0%nat = Some f0 ∧ cost !! IDX 4 (i0 + 1) j = Some ci
                   ∧ dltb (dadd f0 ci) fj = false
                   ∧ (∀ k c fk, (i0 < k < j)%nat →
                        cost !! IDX 4 (k + 1) j = Some c → dltb c (dofZ 0) = false →
                        f !! k = Some fk → dltb (dadd fk c) fj = false)
                   ∧ (fj = dadd f0 ci
                      ∨ ∃ k c fk, (i0 < k < j)%nat ∧ cost !! IDX 4 (k + 1) j = Some c
                                  ∧ dltb c (dofZ 0) = false ∧ f !! k = Some fk
                                  ∧ fj = dadd fk c).
Proof.
  apply (dynamic_totals_are_best (D:=Z) 10 1 [3; 3; 3; 6] [2; 2; 2; 6] 4).
  - apply ZDouble_laws.
  - apply ZDouble_order.
  - reflexivity.
  - reflexivity.
Defined.

(** ** The greedy layout has the fewest lines *)

Lemma zsum_take_drop_S (l : list Z) (a m : nat) :
  zsum (take (S m) (drop a l)) = count_at l a + zsum (take m (drop (S a) l)).
Proof.
  unfold count_at. destruct (l !! a) as [x|] eqn:Hx.
  - rewrite (drop_S _ _ _ Hx). simpl. done.
  - apply lookup_ge_None in Hx. rewrite !drop_ge by lia. by rewrite !take_nil.
Qed.

Lemma line_sum_start_mono (counts_orig counts_trim : list Z) (a a' b : nat) :
  (∀ k, 0 ≤ count_at counts_orig k) →
  (a ≤ a')%nat → (a' ≤ b)%nat →
  line_sum counts_orig counts_trim a' b ≤ line_sum counts_orig counts_trim a b.
Proof.
  intros Hnn Ha. induction Ha as [|a' Ha IH]; intros Hb; [lia|].
  etransitivity; [|apply IH; lia].
  unfold line_sum. replace (b - a')%nat with (S (b - S a')) by lia.
  rewrite zsum_take_drop_S. pose proof (Hnn a'). lia.
Qed.

(** A part of a line that fits fits. *)
Lemma fits_sub (width_val : Z) (counts_orig counts_trim : list Z) (a a' b' b : nat) :
  (∀ k, 0 ≤ count_at counts_trim k ≤ count_at counts_orig k) →
  (a ≤ a')%nat → (a' ≤ b')%nat → (b' ≤ b)%nat →
  fits width_val counts_orig counts_trim a b →
  fits width_val counts_orig counts_trim a' b'.
Proof.
  intros Hcounts Ha Hab Hb [->|Hle]; [left; lia|right].
  pose proof (line_sum_mono counts_orig counts_trim a' b' b Hcounts ltac:(lia)).
  pose proof (line_sum_start_mono counts_orig counts_trim a a' b
                (λ k, Z.le_trans _ _ _ (proj1 (Hcounts k)) (proj2 (Hcounts k)))
                Ha ltac:(lia)).
  lia.
Qed.

Lemma line_ranges_lookup_end (first : nat) (l : list nat) (m a b : nat) :
  line_ranges first l !! m = Some (a, b) → l !! m = Some b.
Proof.
  revert first m. induction l as [|w l IH]; intros first m; [done|].
  destruct m as [|m]; simpl; [by intros [= _ ->]|]. apply IH.
Qed.

Lemma line_ranges_lookup (first : nat) (l : list nat) (m b : nat) :
  l !! m = Some b → ∃ a, line_ranges first l !! m = Some (a, b).
Proof.
  revert first m. induction l as [|w l IH]; intros first m; [done|].
  destruct m as [|m]; simpl; [intros [= ->]; eauto|]. apply IH.
Qed.

Lemma line_ranges_lookup_start (first : nat) (l : list nat) (m a b : nat) :
  line_ranges first l !! m = Some (a, b) →
  match m with
  | O => a = first
  | S m' => ∃ a0 b0, line_ranges first l !! m' = Some (a0, b0) ∧ a = S b0
  end.
Proof.
  revert first m. induction l as [|w l IH]; intros first m; [done|].
  destruct m as [|m]; simpl; [by intros [= -> _]|].
  intros Hm. specialize (IH (S w) m Hm). destruct m as [|m].
  - subst a. exists first, w. done.
  - destruct IH as (a0 & b0 & Hprev & ->). exists a0, b0. done.
Qed.

(** Line by line, a layout whose breaks are forced ends no earlier than
    any layout whose lines fit. *)
Lemma forced_layout_stays_ahead (width_val : Z) (counts_orig counts_trim : list Z)
    (n : nat) (wrap other : list nat) :
  (∀ k, 0 ≤ count_at counts_trim k ≤ count_at counts_orig k) →
  (1 ≤ n)%nat →
  strictly_increasing wrap → (∀ k, k ∈ wrap → (k + 1 < n)%nat) →
  (∀ a b, is_line (λ k, k ∈ wrap) (n - 1) a b → (b < n - 1)%nat →
          width_val < line_sum counts_orig counts_trim a (b + 1)) →
  strictly_increasing other → (∀ k, k ∈ other → (k + 1 < n)%nat) →
  lines_fit width_val counts_orig counts_trim (λ k, k ∈ other) (n - 1) →
  ∀ m a b a' b',
    line_ranges 0 (wrap ++ [(n - 1)%nat]) !! m = Some (a, b) →
    line_ranges 0 (other ++ [(n - 1)%nat]) !! m = Some (a', b') →
    (a' ≤ a)%nat ∧ (b' ≤ b)%nat.
Proof.
  intros Hcounts Hn Hsi Hbound Hforced Hsi' Hbound' Hfit.
  assert (∀ m a b a' b',
            line_ranges 0 (wrap ++ [(n - 1)%nat]) !! m = Some (a, b) →
            line_ranges 0 (other ++ [(n - 1)%nat]) !! m = Some (a', b') →
            (a' ≤ a)%nat → (b' ≤ b)%nat) as Hend.
  { intros m a b a' b' Hg Hh Ha.
    apply list_elem_of_lookup_2 in Hg, Hh.
    apply (line_ranges_is_line (n - 1) 0 wrap) in Hg as (Hab & Hb & Hstart & Hstop & Hno);
      [|done|intros k Hk; apply Hbound in Hk; lia|lia].
    apply (line_ranges_is_line (n - 1) 0 other) in Hh
      as (Hab' & Hb' & Hstart' & Hstop' & Hno');
      [|done|intros k Hk; apply Hbound' in Hk; lia|lia].
    destruct (decide (b' ≤ b)%nat) as [|Hgt]; [done|exfalso].
    assert (width_val < line_sum counts_orig counts_trim a (b + 1)) as Hwide.
    { apply Hforced; [|lia]. split; [lia|]. done. }
    assert (fits width_val counts_orig counts_trim a' b') as Hfits.
    { apply Hfit. split; [lia|]. done. }
    apply (fits_sub _ _ _ a' a (b + 1) b' Hcounts) in Hfits as [Heq|Hle]; lia. }
  induction m as [|m IH]; intros a b a' b' Hg Hh.
  - pose proof (line_ranges_lookup_start _ _ _ _ _ Hg) as ->.
    pose proof (line_ranges_lookup_start _ _ _ _ _ Hh) as ->.
    split; [done|]. by apply (Hend 0%nat 0%nat b 0%nat b').
  - destruct (line_ranges_lookup_start _ _ _ _ _ Hg) as (a0 & b0 & Hg0 & ->).
    destruct (line_ranges_lookup_start _ _ _ _ _ Hh) as (a0' & b0' & Hh0 & ->).
    destruct (IH a0 b0 a0' b0' Hg0 Hh0) as [_ Hb0].
    split; [lia|]. apply (Hend (S m) (S b0) b (S b0') b'); [done|done|lia].
Qed.

(** X20. The greedy policy uses the fewest lines: for counts with
    [0 <= trimmed <= original], any layout of the words whose lines fit
    has at least as many breaks as the greedy layout, and each of its
    breaks comes no later than the greedy break of the same rank. *)
Theorem greedy_uses_fewest_lines (width_val : Z) (counts_orig counts_trim : list Z)
    (n : nat) (other : list nat) :
  length counts_orig = n → length counts_trim = n → (1 ≤ n)%nat →
  (∀ k, 0 ≤ count_at counts_trim k ≤ count_at counts_orig k) →
  strictly_increasing other → (∀ k, k ∈ other → (k + 1 < n)%nat) →
  lines_fit width_val counts_orig counts_trim (λ k, k ∈ other) (n - 1) →
  ∃ wrap,
    stri__wrap_greedy [] (n + 1) width_val counts_orig counts_trim = Some wrap
    ∧ (length wrap ≤ length other)%nat
    ∧ ∀ m x y, wrap !! m = Some x → other !! m = Some y → (y ≤ x)%nat.
Proof.
  intros Ho Ht Hn Hcounts Hsi' Hbound' Hfit.
  destruct (greedy_layout_forced width_val counts_orig counts_trim n Ho Ht Hn)
    as (wrap & Hwrap & Hsi & Hbound & Hforced).
  pose proof (forced_layout_stays_ahead width_val counts_orig counts_trim n wrap other
                Hcounts Hn Hsi Hbound Hforced Hsi' Hbound' Hfit) as Hahead.
  exists wrap. split; [done|]. split.
  - destruct (decide (length wrap ≤ length other)%nat) as [|Hgt]; [done|exfalso].
    destruct (lookup_lt_is_Some_2 wrap (length other)) as [x Hx]; [lia|].
    pose proof (Hbound x (list_elem_of_lookup_2 _ _ _ Hx)).
    destruct (line_ranges_lookup 0 (wrap ++ [(n - 1)%nat]) (length other) x) as [a Ha].
    { by apply lookup_app_l_Some. }
    destruct (line_ranges_lookup 0 (other ++ [(n - 1)%nat]) (length other) (n - 1))
      as [a' Ha'].
    { by rewrite list_lookup_middle. }
    destruct (Hahead _ _ _ _ _ Ha Ha'). lia.
  - intros m x y Hx Hy.
    destruct (line_ranges_lookup 0 (wrap ++ [(n - 1)%nat]) m x) as [a Ha].
    { by apply lookup_app_l_Some. }
    destruct (line_ranges_lookup 0 (other ++ [(n - 1)%nat]) m y) as [a' Ha'].
    { by apply lookup_app_l_Some. }
    by destruct (Hahead _ _ _ _ _ Ha Ha').
Qed.

Lemma greedy_uses_fewest_lines_witness :
  ∃ wrap,
    stri__wrap_greedy [] (5 + 1) 10 [4; 6; 6; 4; 5] [3; 5; 5; 3; 5] = Some wrap
    ∧ (length wrap ≤ length [0; 1; 2; 3]%nat)%nat
    ∧ ∀ m x y, wrap !! m = Some x → [0; 1; 2; 3]%nat !! m = Some y → (y ≤ x)%nat.
Proof.
  apply (greedy_uses_fewest_lines 10 [4; 6; 6; 4; 5] [3; 5; 5; 3; 5] 5 [0; 1; 2; 3]%nat).
  - reflexivity.
  - reflexivity.
  - lia.
  - intros [|[|[|[|[|k]]]]]; vm_compute; split; discriminate.
  - intros i i' x y Hlt Hx Hy.
    destruct i as [|[|[|[|i]]]]; try discriminate; injection Hx as <-;
      destruct i' as [|[|[|[|i']]]]; try discriminate; injection Hy as <-; lia.
  - intros k Hk. apply list_elem_of_In in Hk. simpl in Hk. lia.
  - intros a b (Hab & _ & _ & Hno). left.
    destruct (decide (a = b)) as [|Hne]; [done|]. exfalso.
    apply (Hno a); [lia|]. apply list_elem_of_In. simpl. lia.
Defined.
